(** * par_sprune.h: sweep and prune over axis-aligned boxes

    A shallow embedding of [src/par_sprune.h] and the properties of its
    sort ([par_qsort]), of the sweep ([par_sprune_overlap]) and of the two
    entry points the header declares without a body ([par_sprune_update],
    [par_sprune_cull]).

    Conventions of the embedding.
    - A stretchy array of [PARINT] is the list of the cells below its
      count; [pa_count] is the length of the list.  Its block holds
      [pa___m] cells and the count never exceeds [pa___m], so a cell below
      the count lies in the block.  The arrays of the context that [pa_add]
      resizes carry their header (capacity and count): the index arrays
      ([index_array]) and the flag arrays ([flag_array]), the latter with
      the bytes of their block, since [pa___growf] rounds the payload of
      one-byte cells down to a multiple of [sizeof(int) = 4].  The header
      arithmetic and the block [pa___growf] asks of [realloc] are in
      [Stretchy]; [realloc] is taken to succeed.
    - [PARINT] and [int] values are in [Z].  The products [naabbs * 2] and,
      where [pa_add] sends an array through [pa___growf], [itemsize * m]
      are checked against [int32_t], where C and [Z] agree: outside it the
      call stops on a fault ([IntOverflow]), signed overflow being undefined
      in C.  The arrays of the sweep ([active], [pairs], [collision_pairs])
      grow by [pa_push], which appends a cell to the list: the product
      [itemsize * m] of their growth is an [int] while they hold fewer than
      [2 ^ 28] cells, as they do for up to [2 ^ 13] boxes (at most
      [n (n - 1)] cells of pairs); the return of a whole call is stated up
      to that count.  The other arithmetic of the source ([i * 4 + 3], the
      fields of an array header) stays inside [int32_t] whenever
      [naabbs ≤ 2 ^ 29].  Array positions and [size_t] counts are in [nat].
    - [PARFLT] is a parameter of the header; the development is parametric
      in the coordinate type and its [<].  The caller's box array is the
      function from a float index to the float stored there.
    - A call either returns or stops on a fault: a read or write outside the
      cells of an array (for the flag arrays: outside the block asked of
      [realloc]), an [int] product outside [int32_t], or the failed [assert]
      of [par_sprune__remove]. *)

From Stdlib Require Import ZArith Lia.
From stdpp Require Import base tactics option list sorting.

(** ** Outcomes of a call *)

Inductive par_error : Set :=
  | OutOfBounds    (* access outside the cells of an array: undefined in C *)
  | AssertFailed   (* [assert(i >= 0)] of [par_sprune__remove] *)
  | InvalidCount   (* named by the interface description; raised nowhere *)
  | IntOverflow.   (* an [int] product outside [int32_t]: undefined in C *)

Inductive result (T : Type) : Type :=
  | Ok (v : T)
  | Err (e : par_error).
Arguments Ok {T} v.
Arguments Err {T} e.

#[global] Instance result_ret : MRet result := λ T v, Ok v.
#[global] Instance result_bind : MBind result := λ T U k m,
  match m with Ok v => k v | Err e => Err e end.

(** [base[i]], checked against the cells of the array. *)
Definition load {T} (base : list T) (i : nat) : result T :=
  match base !! i with Some x => Ok x | None => Err OutOfBounds end.

(** An [int] product, checked against [int32_t]. *)
Definition int32 (z : Z) : result Z :=
  if ((- 2 ^ 31 <=? z) && (z <? 2 ^ 31))%Z then Ok z else Err IntOverflow.

(** ** The sort: [par_qsort_cmpswap] and [par_qsort] *)

Module Qsort.
Section Qsort.
(** An element of type [T] stands for a block of [w] bytes; [compar] reads
    two blocks and the context pointer [arg]. *)
Context {T Arg : Type}.
Variable compar : T → T → Arg → Z.
Variable arg : Arg.

(** [par_qsort_cmpswap(a, b, w, compar, arg)] on the blocks at positions
    [a] and [b] of [base]: the byte loop exchanges the two blocks. *)
Definition par_qsort_cmpswap (base : list T) (a b : nat)
    : result (list T * bool) :=
  x ← load base a;
  y ← load base b;
  if (0 <? compar x y arg)%Z
  then Ok (<[b := x]> (<[a := y]> base), true)
  else Ok (base, false).

(** The inner loop of the small case:
    [for (pj = pi; pj > b && par_qsort_cmpswap(pj-w, pj, ...); pj -= w)]. *)
Fixpoint sift_down (base : list T) (pj : nat) : result (list T) :=
  match pj with
  | 0 => Ok base
  | S pj' =>
      '(base', swapped) ← par_qsort_cmpswap base pj' pj;
      if swapped : bool then sift_down base' pj' else Ok base'
  end.

(** The outer loop [for (pi = b+w; pi < end; pi += w)], with [todo] the
    number of positions from [pi] to [end]. *)
Fixpoint insertion_loop (base : list T) (pi todo : nat) : result (list T) :=
  match todo with
  | 0 => Ok base
  | S todo' => base' ← sift_down base pi; insertion_loop base' (S pi) todo'
  end.

Definition insertion_sort (base : list T) (nel : nat) : result (list T) :=
  insertion_loop base 1 (nel - 1).

(** Median of three: the position [l[1]] after the three comparisons. *)
Definition median3 (base : list T) (nel : nat) : result nat :=
  let l0 := 0 in
  let l1 := nel / 2 in
  let l2 := nel - 1 in
  x0 ← load base l0;
  x1 ← load base l1;
  let '(l0, l1) := if (0 <? compar x0 x1 arg)%Z then (l1, l0) else (l0, l1) in
  x1 ← load base l1;
  x2 ← load base l2;
  if (0 <? compar x1 x2 arg)%Z then
    let '(l1, l2) := (l2, l1) in
    x0 ← load base l0;
    x1 ← load base l1;
    if (0 <? compar x0 x1 arg)%Z then Ok l0 else Ok l1
  else Ok l1.

(** The byte loop that exchanges the blocks at [x] and [y]. *)
Definition swap_blocks (base : list T) (x y : nat) : result (list T) :=
  vx ← load base x;
  vy ← load base y;
  Ok (<[y := vx]> (<[x := vy]> base)).

(** The partition loop
    [while (pl < pr) { for (; pl < pr; pl += w) ...; for (; pl < pr; pr -= w) ... }].
    [upward] tells which of the two [for] loops is running; [pr] is
    [pl + gap], and every iteration of either loop shrinks [gap] by one. *)
Fixpoint partition_loop (upward : bool) (base : list T) (pl gap : nat)
    : result (list T * nat) :=
  match gap with
  | 0 => Ok (base, pl)
  | S gap' =>
      '(base', swapped) ← par_qsort_cmpswap base pl (pl + gap);
      match upward, swapped with
      | true, true => partition_loop false base' pl gap'        (* pr -= w; break *)
      | true, false => partition_loop true base' (S pl) gap'    (* pl += w *)
      | false, true => partition_loop true base' (S pl) gap'    (* pl += w; break *)
      | false, false => partition_loop false base' pl gap'      (* pr -= w *)
      end
  end.

Definition partition (base : list T) (nel : nat) : result (list T * nat) :=
  m ← median3 base nel;
  base1 ← swap_blocks base m (nel - 1);
  partition_loop true base1 0 (nel - 1).

(** [par_qsort(base, nel, w, compar, arg)].  The second recursive call
    works on the cells from [pl + 1] on.  [fuel] bounds the depth of the
    recursion; [nel ≤ fuel] holds at every call. *)
Fixpoint par_qsort_rec (fuel : nat) (base : list T) (nel : nat)
    : result (list T) :=
  if nel <? 7 then insertion_sort base nel
  else
    match fuel with
    | 0 => insertion_sort base nel
    | S fuel' =>
        '(base1, pl) ← partition base nel;
        base2 ← par_qsort_rec fuel' base1 pl;
        right ← par_qsort_rec fuel' (drop (S pl) base2) (nel - S pl);
        Ok (take (S pl) base2 ++ right)
    end.

Definition par_qsort (base : list T) (nel : nat) : result (list T) :=
  par_qsort_rec nel base nel.

(** The order the comparator defines. *)
Definition cmp_le (x y : T) : Prop := (compar x y arg ≤ 0)%Z.

(** What the sort needs of a comparator that defines a total order. *)
Definition cmp_ordered : Prop :=
  (∀ x y, (0 < compar x y arg)%Z → (compar y x arg ≤ 0)%Z)
  ∧ (∀ x y z, (compar x y arg ≤ 0)%Z → (compar y z arg ≤ 0)%Z →
              (compar x z arg ≤ 0)%Z).

End Qsort.
End Qsort.

(** ** Stretchy arrays ([pa_*] macros) *)

(** [pa_clear] sets the count to zero; [pa_add(a, n)] hands out [n] more
    cells, whose contents are whatever the memory held ([fresh]): nothing for
    a negative [n]; [pa_push] appends. *)
Definition pa_clear {T} (a : list T) : list T := [].
Definition pa_add {T} (a : list T) (n : Z) (fresh : nat → T) : list T :=
  a ++ (fresh <$> seq 0 (Z.to_nat n)).
Definition pa_push {T} (a : list T) (v : T) : list T := a ++ [v].
Definition pa_count {T} (a : list T) : Z := Z.of_nat (length a).

(** [base[i] = v], checked against the cells of the array. *)
Definition store {T} (base : list T) (i : nat) (v : T) : result (list T) :=
  if decide (i < length base) then Ok (<[i := v]> base) else Err OutOfBounds.

(** An [int] count passed where [size_t] is expected (64-bit [size_t]). *)
Definition size_t_of_int (z : Z) : nat := Z.to_nat (z mod 2 ^ 64).

(** [PAR_MIN(a, b)] is [(a > b ? b : a)], [PAR_MAX(a, b)] is [(a > b ? a : b)]. *)
Definition PAR_MIN (a b : Z) : Z := if (b <? a)%Z then b else a.
Definition PAR_MAX (a b : Z) : Z := if (b <? a)%Z then a else b.

(** A flat array of [PARINT] read as two-tuples, and back. *)
Fixpoint tuples (flat : list Z) : list (Z * Z) :=
  match flat with
  | a :: b :: rest => (a, b) :: tuples rest
  | _ => []
  end.
Definition untuples (l : list (Z * Z)) : list Z := l ≫= (λ p, [p.1; p.2]).

(** [par__cmppairs] and [par__cmpfind]: two-tuples compared by first, then
    second component. *)
Definition par__cmppairs (pa pb : Z * Z) (unused : unit) : Z :=
  if (pb.1 <? pa.1)%Z then 1
  else if (pa.1 <? pb.1)%Z then -1
  else if (pb.2 <? pa.2)%Z then 1
  else if (pa.2 <? pb.2)%Z then -1
  else 0.

Definition par__cmpfind (pa pb : Z * Z) : Z :=
  if (pb.1 <? pa.1)%Z then 1
  else if (pa.1 <? pb.1)%Z then -1
  else if (pb.2 <? pa.2)%Z then 1
  else if (pa.2 <? pb.2)%Z then -1
  else 0.

(** [bsearch] of the C library (not part of the repository), as the binary
    search over [base[lo .. lo + width)]: [true] stands for a non-null result. *)
Fixpoint bsearch_loop (compar : Z * Z → Z * Z → Z) (key : Z * Z)
    (base : list (Z * Z)) (lo width : nat) (fuel : nat) : bool :=
  match fuel with
  | 0 => false
  | S fuel' =>
      if width =? 0 then false
      else
        let mid := lo + width / 2 in
        match base !! mid with
        | None => false
        | Some p =>
            let c := compar key p in
            if (c <? 0)%Z then bsearch_loop compar key base lo (width / 2) fuel'
            else if (0 <? c)%Z
            then bsearch_loop compar key base (S mid) (width - S (width / 2)) fuel'
            else true
        end
  end.

Definition bsearch (key : Z * Z) (base : list (Z * Z)) (nmemb : nat)
    (compar : Z * Z → Z * Z → Z) : bool :=
  bsearch_loop compar key base 0 nmemb nmemb.

(** [par_sprune__remove(arr, val)]: the scan from the end for [val], the
    [assert], the shift of the cells behind it, and the count decremented. *)
Fixpoint remove_scan (arr : list Z) (val : Z) (i : nat) : option nat :=
  match i with
  | 0 => None
  | S i' => if decide (arr !! i' = Some val) then Some i' else remove_scan arr val i'
  end.

Fixpoint remove_shift (arr : list Z) (i todo : nat) : result (list Z) :=
  match todo with
  | 0 => Ok arr
  | S todo' =>
      x ← load arr (i - 1);
      y ← load arr i;
      remove_shift (<[i := x]> (<[i - 1 := y]> arr)) (S i) todo'
  end.

Definition par_sprune__remove (arr : list Z) (val : Z) : result (list Z) :=
  match remove_scan arr val (length arr) with
  | None => Err AssertFailed
  | Some i =>
      arr' ← remove_shift arr (S i) (length arr - S i);
      Ok (take (length arr' - 1) arr')
  end.

(** ** The header of a stretchy array: [pa___growf] *)

Module Stretchy.

(** The two [int]s in front of the cells: the capacity [pa___m] and the
    count [pa___n].  A null array is [None].  The arithmetic of the source
    on these [int]s is assumed not to overflow. *)
Record header : Set := { pa___m : Z; pa___n : Z }.

Definition pa_count (a : option header) : Z :=
  match a with Some h => pa___n h | None => 0 end.

Definition pa_clear (a : option header) : option header :=
  match a with
  | Some h => Some {| pa___m := pa___m h; pa___n := 0 |}
  | None => None
  end.

Definition pa___needgrow (a : option header) (n : Z) : bool :=
  match a with
  | None => true
  | Some h => (pa___m h <=? pa___n h + n)%Z
  end.

(** The capacity [m] that [pa___growf(arr, increment, itemsize)] settles on. *)
Definition growf_capacity (arr : option header) (increment : Z) : Z :=
  let dbl_cur := match arr with Some h => 2 * pa___m h | None => 0 end%Z in
  let min_needed := (pa_count arr + increment)%Z in
  if (min_needed <? dbl_cur)%Z then dbl_cur else min_needed.

(** The bytes it asks of [realloc]:
    [sizeof(int) * (itemsize * m / sizeof(int) + 2)].  The product
    [itemsize * m] is one of two [int]s; the division, the sum and the
    product by [sizeof(int)] are those of [size_t] (64 bits). *)
Definition growf_bytes (arr : option header) (increment itemsize : Z)
    : result Z :=
  let m := growf_capacity arr increment in
  product ← int32 (itemsize * m);
  Ok ((4 * ((product mod 2 ^ 64) / 4 + 2)) mod 2 ^ 64)%Z.

(** The bytes of that block behind the two [int]s of the header. *)
Definition growf_payload (arr : option header) (increment itemsize : Z)
    : result Z :=
  bytes ← growf_bytes arr increment itemsize;
  Ok (bytes - 2 * 4)%Z.

(** The header [pa___growf] leaves when [realloc] succeeds; when it fails
    the array returned has a null [pa___raw] ([None]). *)
Definition pa___growf (realloc_ok : bool) (arr : option header)
    (increment itemsize : Z) : option header :=
  if realloc_ok then
    Some {| pa___m := growf_capacity arr increment;
            pa___n := match arr with Some h => pa___n h | None => 0 end |}
  else None.

Definition pa___maybegrow (realloc_ok : bool) (a : option header)
    (n itemsize : Z) : option header :=
  if pa___needgrow a n then pa___growf realloc_ok a n itemsize else a.

(** [pa_add(a, n)]: the header after [pa___n(a) += (n)]. *)
Definition pa_add (realloc_ok : bool) (a : option header) (n itemsize : Z)
    : result header :=
  match pa___maybegrow realloc_ok a n itemsize with
  | Some h => Ok {| pa___m := pa___m h; pa___n := (pa___n h + n)%Z |}
  | None => Err OutOfBounds
  end.

(** [pa_push(a, v)]: the position of the cell written and the header after
    [pa___n(a)++]. *)
Definition pa_push (realloc_ok : bool) (a : option header) (itemsize : Z)
    : result (Z * header) :=
  match pa___maybegrow realloc_ok a 1 itemsize with
  | Some h => Ok (pa___n h, {| pa___m := pa___m h; pa___n := (pa___n h + 1)%Z |})
  | None => Err OutOfBounds
  end.

(** [k] calls of [pa_push] in a row. *)
Fixpoint pushes (realloc_ok : bool) (a : option header) (itemsize : Z)
    (k : nat) : result (option header) :=
  match k with
  | 0 => Ok a
  | S k' =>
      '(_, h) ← pa_push realloc_ok a itemsize;
      pushes realloc_ok (Some h) itemsize k'
  end.

End Stretchy.

(** ** The flag arrays: stretchy arrays of one-byte cells *)

(** A [bool*] stretchy array ([sizeof(bool) = 1]): its header and the bytes
    of its block behind the header.  A null array has no block. *)
Record flag_array : Set := {
  flag_header : option Stretchy.header;
  flag_block : list bool
}.

Definition flags_null : flag_array :=
  {| flag_header := None; flag_block := [] |}.

(** [pa_clear] on a flag array. *)
Definition flags_clear (a : flag_array) : flag_array :=
  {| flag_header := Stretchy.pa_clear (flag_header a);
     flag_block := flag_block a |}.

(** [realloc] to [bytes] bytes behind the header: the bytes the old block
    had are kept, the others are whatever the memory held ([fresh]). *)
Definition realloc_block (old : list bool) (bytes : Z) (fresh : nat → bool)
    : list bool :=
  take (Z.to_nat bytes)
    (old ++ (fresh <$> seq (length old) (Z.to_nat bytes - length old))).

(** [pa_add(a, n)] on a flag array, with a [realloc] that succeeds: the
    block is the old one unless [pa___needgrow] sends the array through
    [pa___growf]. *)
Definition flags_add (a : flag_array) (n : Z) (fresh : nat → bool)
    : result flag_array :=
  block ←
    (if Stretchy.pa___needgrow (flag_header a) n
     then payload ← Stretchy.growf_payload (flag_header a) n 1;
          Ok (realloc_block (flag_block a) payload fresh)
     else Ok (flag_block a));
  h ← Stretchy.pa_add true (flag_header a) n 1;
  Ok {| flag_header := Some h; flag_block := block |}.

(** ** The index arrays: stretchy arrays of [PARINT] cells *)

(** A [PARINT*] stretchy array kept in the context ([sizeof(PARINT) = 4]):
    its header and the cells below its count.  The block behind the header
    holds [pa___m] cells, and the count never exceeds [pa___m]. *)
Record index_array : Set := {
  index_header : option Stretchy.header;
  index_cells : list Z
}.

Definition indices_null : index_array :=
  {| index_header := None; index_cells := [] |}.

(** [pa_clear] on an index array. *)
Definition indices_clear (a : index_array) : index_array :=
  {| index_header := Stretchy.pa_clear (index_header a);
     index_cells := pa_clear (index_cells a) |}.

(** [pa_add(a, n)] on an index array, with a [realloc] that succeeds: when
    [pa___needgrow] sends the array through [pa___growf], the product
    [itemsize * m] is taken. *)
Definition indices_add (a : index_array) (n : Z) (fresh : nat → Z)
    : result index_array :=
  _ ← (if Stretchy.pa___needgrow (index_header a) n
       then Stretchy.growf_bytes (index_header a) n 4
       else Ok 0%Z);
  h ← Stretchy.pa_add true (index_header a) n 4;
  Ok {| index_header := Some h; index_cells := pa_add (index_cells a) n fresh |}.

(** ** Events and boxes *)

(** The encodings of the min and max event of box [c] on [axis] (0 or 1),
    and the event array of [n] boxes as the fill loop writes it. *)
Definition ev_min (axis c : Z) : Z := (c * 4 + axis)%Z.
Definition ev_max (axis c : Z) : Z := (c * 4 + 2 + axis)%Z.
Definition events (axis n : Z) : list Z :=
  seqZ 0 n ≫= (λ c, [ev_min axis c; ev_max axis c]).

(** The comparison of coordinates is a strict weak order (as [<] is on
    floats that are not NaN). *)
Class FltOrder {F} (flt_lt : F → F → bool) : Prop := {
  flt_irrefl x : flt_lt x x = false;
  flt_trans x y z : flt_lt x y = true → flt_lt y z = true → flt_lt x z = true;
  flt_incomp x y z : flt_lt x y = false → flt_lt y z = false → flt_lt x z = false
}.

(** Every one of the [n] boxes has min ≤ max on both axes. *)
Definition boxes_wf {F} (flt_lt : F → F → bool) (boxes : Z → F) (n : Z) : bool :=
  forallb (λ c, negb (flt_lt (boxes (ev_max 0 c)) (boxes (ev_min 0 c)))
                && negb (flt_lt (boxes (ev_max 1 c)) (boxes (ev_min 1 c))))
          (seqZ 0 n).

(** Closed intervals: [a.min ≤ b.max] and [b.min ≤ a.max]. *)
Definition closed_overlap {F} (flt_lt : F → F → bool) (boxes : Z → F)
    (axis a b : Z) : bool :=
  negb (flt_lt (boxes (ev_max axis b)) (boxes (ev_min axis a)))
  && negb (flt_lt (boxes (ev_max axis a)) (boxes (ev_min axis b))).

(** What the sweep reports for [a < b]: [a.min ≤ b.max] and [b.min < a.max]. *)
Definition sweep_overlap {F} (flt_lt : F → F → bool) (boxes : Z → F)
    (axis a b : Z) : bool :=
  negb (flt_lt (boxes (ev_max axis b)) (boxes (ev_min axis a)))
  && flt_lt (boxes (ev_min axis b)) (boxes (ev_max axis a)).

(** Intervals that share more than an end point: [a.min < b.max] and
    [b.min < a.max]. *)
Definition open_overlap {F} (flt_lt : F → F → bool) (boxes : Z → F)
    (axis a b : Z) : bool :=
  flt_lt (boxes (ev_min axis a)) (boxes (ev_max axis b))
  && flt_lt (boxes (ev_min axis b)) (boxes (ev_max axis a)).

(** Pairs in ascending order of (first, second). *)
Definition pair_lt (p q : Z * Z) : Prop :=
  (p.1 < q.1 ∨ (p.1 = q.1 ∧ p.2 < q.2))%Z.

(** The two-tuples [(a, b)] with [0 ≤ a < b < n]. *)
Definition pairs_below (n : Z) : list (Z * Z) :=
  seqZ 0 n ≫= λ b, (λ a, (a, b)) <$> seqZ 0 b.

(** ** The sweep: [par_sprune_overlap] *)

Module Sprune.
Section Sprune.
Context {F : Type}.
(** [x < y] on [PARFLT]; [x > y] is [flt_lt y x]. *)
Variable flt_lt : F → F → bool.

Record par__sprune_sorter := { sorter_aabbs : Z → F }.

Record par_sprune__context := {
  collision_pairs : list Z;
  ncollision_pairs : Z;
  culled : list Z;
  nculled : Z;
  aabbs : option (Z → F);
  naabbs : Z;
  sorted_indices : index_array * index_array;
  overlap_flags : flag_array * flag_array
}.

(** The cells of the two index arrays. *)
Definition sorted_cells (ctx : par_sprune__context) : list Z * list Z :=
  (index_cells (sorted_indices ctx).1, index_cells (sorted_indices ctx).2).

(** What [PAR_CALLOC(par_sprune__context, 1)] returns. *)
Definition calloc_context : par_sprune__context :=
  {| collision_pairs := []; ncollision_pairs := 0; culled := []; nculled := 0;
     aabbs := None; naabbs := 0;
     sorted_indices := (indices_null, indices_null);
     overlap_flags := (flags_null, flags_null) |}.

Definition par__cmpinds (a b : Z) (sorter : par__sprune_sorter) : Z :=
  let vala := sorter_aabbs sorter a in
  let valb := sorter_aabbs sorter b in
  if flt_lt valb vala then 1
  else if flt_lt vala valb then -1
  else if (b <? a)%Z then 1
  else if (a <? b)%Z then -1
  else 0.

(** The contents of the cells [pa_add] hands out, per array. *)
Record fresh_cells := {
  fresh_indices0 : nat → Z;
  fresh_indices1 : nat → Z;
  fresh_flags0 : nat → bool;
  fresh_flags1 : nat → bool
}.

(** The loop that writes the event encodings [4i], [4i+2] (x) and [4i+1],
    [4i+3] (y), and clears the flags. *)
Fixpoint fill_loop (s0 s1 : list Z) (f0 f1 : list bool) (i : Z) (todo : nat)
    : result (list Z * list Z * list bool * list bool) :=
  match todo with
  | 0 => Ok (s0, s1, f0, f1)
  | S todo' =>
      s0 ← store s0 (Z.to_nat (i * 2 + 0)) (i * 4 + 0)%Z;
      s1 ← store s1 (Z.to_nat (i * 2 + 0)) (i * 4 + 1)%Z;
      s0 ← store s0 (Z.to_nat (i * 2 + 1)) (i * 4 + 2)%Z;
      s1 ← store s1 (Z.to_nat (i * 2 + 1)) (i * 4 + 3)%Z;
      f0 ← store f0 (Z.to_nat i) false;
      f1 ← store f1 (Z.to_nat i) false;
      fill_loop s0 s1 f0 f1 (i + 1) todo'
  end.

(** The loop over the active boxes on a min event. *)
Fixpoint emit_pairs (active : list Z) (boxindex : Z) (pairs : list Z) : list Z :=
  match active with
  | [] => pairs
  | aj :: rest =>
      let a := PAR_MIN aj boxindex in
      let b := PAR_MAX aj boxindex in
      emit_pairs rest boxindex (pa_push (pa_push pairs a) b)
  end.

(** One event of the sweep. *)
Definition sweep_event (axis : Z) (active pairs : list Z) (fltindex : Z)
    : result (list Z * list Z) :=
  let boxindex := (fltindex `quot` 4)%Z in
  let ismin := ((fltindex - axis) `rem` 4 =? 0)%Z in
  if ismin then
    Ok (pa_push active boxindex, emit_pairs active boxindex pairs)
  else
    active' ← par_sprune__remove active boxindex;
    Ok (active', pairs).

(** [for (PARINT i = 0; i < naabbs * 2; i++)] over [indices]. *)
Fixpoint sweep_loop (axis : Z) (indices active pairs : list Z) (i todo : nat)
    : result (list Z * list Z) :=
  match todo with
  | 0 => Ok (active, pairs)
  | S todo' =>
      fltindex ← load indices i;
      '(active', pairs') ← sweep_event axis active pairs fltindex;
      sweep_loop axis indices active' pairs' (S i) todo'
  end.

(** One round of the loop over the axes: sort the events, then sweep. *)
Definition sweep_axis (sorter : par__sprune_sorter) (axis : Z)
    (indices active : list Z) (naabbs : Z)
    : result (list Z * list Z * list Z) :=
  count ← int32 (naabbs * 2);
  indices' ← Qsort.par_qsort par__cmpinds sorter indices (size_t_of_int count);
  let active := pa_clear active in
  '(active', pairs) ← sweep_loop axis indices' active [] 0 (Z.to_nat count);
  Ok (indices', active', pairs).

(** [par_qsort(pairs, pa_count(pairs) / 2, 2 * sizeof(PARINT), par__cmppairs, 0)]
    on the flat array read as two-tuples. *)
Definition sort_pairs (pairs : list Z) : result (list Z) :=
  sorted ← Qsort.par_qsort par__cmppairs () (tuples pairs)
             (Z.to_nat (pa_count pairs `quot` 2));
  Ok (untuples sorted).

(** The loop [for (i = 0; i < pa_count(pairs[0]); i += 2)] that keeps the x
    pairs [bsearch] finds among the y pairs; [keys] are the two-tuples of
    [pairs[0]] from position [i] on. *)
Fixpoint intersect_loop (keys : list (Z * Z)) (pairs1 out : list Z) : list Z :=
  match keys with
  | [] => out
  | key :: rest =>
      let found :=
        bsearch key (tuples pairs1) (Z.to_nat (pa_count pairs1 `quot` 2))
          par__cmpfind in
      intersect_loop rest pairs1
        (if found then pa_push (pa_push out key.1) key.2 else out)
  end.

(** The two sorts of the candidate pairs and the loop above, into the
    cleared [collision_pairs]. *)
Definition intersect (pairs0 pairs1 coll : list Z) : result (list Z) :=
  pairs0 ← sort_pairs pairs0;
  pairs1 ← sort_pairs pairs1;
  Ok (intersect_loop (tuples pairs0) pairs1 (pa_clear coll)).

(** The first half of [par_sprune_overlap]: the context taken or
    allocated, its arrays cleared, resized and filled.  The fill loop
    writes the flags into the blocks of the flag arrays. *)
Definition init_arrays (fresh : fresh_cells) (n : Z)
    (ctx : par_sprune__context)
    : result (index_array * index_array * flag_array * flag_array) :=
  count ← int32 (n * 2);
  s0 ← indices_add (indices_clear (sorted_indices ctx).1) count
         (fresh_indices0 fresh);
  f0 ← flags_add (flags_clear (overlap_flags ctx).1) count (fresh_flags0 fresh);
  s1 ← indices_add (indices_clear (sorted_indices ctx).2) count
         (fresh_indices1 fresh);
  f1 ← flags_add (flags_clear (overlap_flags ctx).2) count (fresh_flags1 fresh);
  '(c0, c1, b0, b1) ←
    fill_loop (index_cells s0) (index_cells s1) (flag_block f0) (flag_block f1)
      0 (Z.to_nat n);
  Ok ({| index_header := index_header s0; index_cells := c0 |},
      {| index_header := index_header s1; index_cells := c1 |},
      {| flag_header := flag_header f0; flag_block := b0 |},
      {| flag_header := flag_header f1; flag_block := b1 |}).

(** The second half: both axes sorted and swept, the pairs intersected. *)
Definition collide (boxes : Z → F) (n : Z) (s0 s1 coll : list Z)
    : result (list Z * list Z * list Z) :=
  let sorter := {| sorter_aabbs := boxes |} in
  let active := [] in
  '(s0, active, pairs0) ← sweep_axis sorter 0 s0 active n;
  '(s1, active, pairs1) ← sweep_axis sorter 1 s1 active n;
  coll ← intersect pairs0 pairs1 coll;
  Ok (s0, s1, coll).

(** The context a call works on: the previous one or, without one, what
    [PAR_CALLOC] returns. *)
Definition context_taken (previous : option par_sprune__context)
    : par_sprune__context :=
  match previous with Some c => c | None => calloc_context end.

Definition par_sprune_overlap (fresh : fresh_cells) (boxes : Z → F)
    (n : Z) (previous : option par_sprune__context)
    : result par_sprune__context :=
  let ctx := context_taken previous in
  '(s0, s1, f0, f1) ← init_arrays fresh n ctx;
  '(c0, c1, coll) ←
    collide boxes n (index_cells s0) (index_cells s1) (collision_pairs ctx);
  Ok {| collision_pairs := coll;
        ncollision_pairs := (pa_count coll `quot` 2)%Z;
        culled := culled ctx; nculled := nculled ctx;
        aabbs := Some boxes; naabbs := n;
        sorted_indices :=
          ({| index_header := index_header s0; index_cells := c0 |},
           {| index_header := index_header s1; index_cells := c1 |});
        overlap_flags := (f0, f1) |}.

(** The public fields a call leaves behind, or the fault. *)
Definition reported (r : result par_sprune__context) : result (list Z * Z) :=
  c ← r; Ok (collision_pairs c, ncollision_pairs c).

End Sprune.
End Sprune.


(** ** Invariants of the sweep *)

Section SweepInvariants.
Context {F : Type}.
Variable flt_lt : F → F → bool.
Variable boxes : Z → F.
Variable axis : Z.

(** Event [x] sorts strictly before event [y]. *)
Definition ev_before (x y : Z) : Prop :=
  (Sprune.par__cmpinds flt_lt x y {| Sprune.sorter_aabbs := boxes |} < 0)%Z.

(** The intervals of boxes [a] and [b] cross in the event order. *)
Definition crossing (a b : Z) : Prop :=
  ev_before (ev_min axis a) (ev_max axis b)
  ∧ ev_before (ev_min axis b) (ev_max axis a).

(** What holds of the active boxes [act] and of the emitted pairs [ps] once
    the events [P] are processed, whatever the order of the events. *)
Definition weak_inv (P act : list Z) (ps : list (Z * Z)) : Prop :=
  NoDup act
  ∧ (∀ c, c ∈ act → ev_min axis c ∈ P)
  ∧ NoDup ps
  ∧ (∀ a b, (a, b) ∈ ps → (a < b)%Z ∧ ev_min axis a ∈ P ∧ ev_min axis b ∈ P).

(** The same for sorted events of well-formed boxes. *)
Definition sweep_inv (P act : list Z) (ps : list (Z * Z)) : Prop :=
  NoDup act
  ∧ (∀ c, c ∈ act ↔ ev_min axis c ∈ P ∧ ev_max axis c ∉ P)
  ∧ (∀ a b, (a, b) ∈ ps ↔
       (a < b)%Z ∧ ev_min axis a ∈ P ∧ ev_min axis b ∈ P ∧ crossing a b).

End SweepInvariants.

(** ** The entry points without a body: [par_sprune_update], [par_sprune_cull] *)

Module Incremental.
Section Incremental.
Context {F : Type}.
Variable flt_lt : F → F → bool.
Abbreviation context := (@Sprune.par_sprune__context F).
Abbreviation sorter := (@Sprune.par__sprune_sorter F).

(** Modelled from the spec: the check of [par_sprune_update] (no body in
    the source) that an adjacent pair of the retained event order is out of
    order under the coordinates the sorter reads. *)
Fixpoint order_broken (srt : sorter) (indices : list Z) : bool :=
  match indices with
  | a :: (b :: _) as rest =>
      (0 <? Sprune.par__cmpinds flt_lt a b srt)%Z || order_broken srt rest
  | _ => false
  end.

(** Modelled from the spec: the step of [par_sprune_update] (no body in the
    source) on one axis, the insertion pass from the retained order and the
    sweep.
    The context of the source keeps the event orders and not the candidate
    pairs: the candidate pairs of an axis are those the sweep gives on its
    order. *)
Definition refresh_axis (srt : sorter) (axis : Z) (indices : list Z)
    : result (list Z * list Z) :=
  indices' ←
    (if order_broken srt indices
     then Qsort.insertion_sort (Sprune.par__cmpinds flt_lt) srt indices
            (length indices)
     else Ok indices);
  '(_, pairs) ←
    Sprune.sweep_loop axis indices' [] [] 0 (length indices');
  Ok (indices', pairs).

(** Modelled from the spec: [par_sprune_update] is declared in the header
    (with its comment) and has no body in the source.  The spec's
    Incremental Updater: each axis' retained event order is checked against
    the coordinates now behind the box pointer ([boxes]); when no adjacent
    pair is out of order on either axis the context is left as it is and
    the answer is [false]; otherwise the orders are re-sorted by insertion,
    the sweep and the intersection are redone, and the answer tells whether
    the collision pairs differ from the ones held before. *)
Definition par_sprune_update (boxes : Z → F) (ctx : context)
    : result (context * bool) :=
  let srt := {| Sprune.sorter_aabbs := boxes |} in
  let '(s0, s1) := Sprune.sorted_cells ctx in
  if negb (order_broken srt s0) && negb (order_broken srt s1)
  then Ok (ctx, false)
  else
    '(s0', pairs0) ← refresh_axis srt 0 s0;
    '(s1', pairs1) ← refresh_axis srt 1 s1;
    coll ← Sprune.intersect pairs0 pairs1 (Sprune.collision_pairs ctx);
    Ok ({| Sprune.collision_pairs := coll;
           Sprune.ncollision_pairs := (pa_count coll `quot` 2)%Z;
           Sprune.culled := Sprune.culled ctx;
           Sprune.nculled := Sprune.nculled ctx;
           Sprune.aabbs := Some boxes;
           Sprune.naabbs := Sprune.naabbs ctx;
           Sprune.sorted_indices :=
             ({| index_header := index_header (Sprune.sorted_indices ctx).1;
                 index_cells := s0' |},
              {| index_header := index_header (Sprune.sorted_indices ctx).2;
                 index_cells := s1' |});
           Sprune.overlap_flags := Sprune.overlap_flags ctx |},
        bool_decide (coll ≠ Sprune.collision_pairs ctx)).

(** What a context holds between calls: the count, an order of the events
    of each axis, and the collision pairs the sweeps of these orders give. *)
Definition tracks (ctx : context) (n : Z) : Prop :=
  Sprune.naabbs ctx = n
  ∧ ∃ E0 E1 a0 a1 p0 p1,
      Sprune.sorted_cells ctx = (E0, E1)
      ∧ E0 ≡ₚ events 0 n ∧ E1 ≡ₚ events 1 n
      ∧ Sprune.sweep_loop 0 E0 [] [] 0 (length E0) = Ok (a0, p0)
      ∧ Sprune.sweep_loop 1 E1 [] [] 0 (length E1) = Ok (a1, p1)
      ∧ Sprune.intersect p0 p1 [] = Ok (Sprune.collision_pairs ctx).

(** A run of updates, one per frame of box data, each compared with a
    fresh [par_sprune_overlap] on that frame; the fresh call returns for up
    to [2 ^ 13] boxes, one box apart. *)
Fixpoint frames_agree (fresh : Sprune.fresh_cells) (ctx : context)
    (frames : list (Z → F)) : Prop :=
  match frames with
  | [] => True
  | boxes :: later =>
      ∃ ctx' changed,
        par_sprune_update boxes ctx = Ok (ctx', changed)
        ∧ (∀ created,
             Sprune.par_sprune_overlap flt_lt fresh boxes (Sprune.naabbs ctx) None
             = Ok created →
             Sprune.collision_pairs ctx' = Sprune.collision_pairs created)
        ∧ ((Sprune.naabbs ctx ≤ 2 ^ 13)%Z → Sprune.naabbs ctx ≠ 1%Z →
           ∃ created,
             Sprune.par_sprune_overlap flt_lt fresh boxes (Sprune.naabbs ctx) None
             = Ok created)
        ∧ (changed = true
           ↔ Sprune.collision_pairs ctx' ≠ Sprune.collision_pairs ctx)
        ∧ frames_agree fresh ctx' later
  end.

End Incremental.
End Incremental.

Module Cull.

(** Modelled from the spec: the helpers of [par_sprune_cull] (no body in the
    source) below follow the spec's Culler.  Whether box [v] is an endpoint
    of the pair [e]. *)
Definition touches (v : Z) (e : Z * Z) : bool := (e.1 =? v)%Z || (e.2 =? v)%Z.

Definition add_vertex (v : Z) (vs : list Z) : list Z :=
  if bool_decide (v ∈ vs) then vs else vs ++ [v].

(** One round of flood fill over the pair list. *)
Definition flood_step (edges : list (Z * Z)) (seen : list Z) : list Z :=
  foldl (λ acc e,
           if bool_decide (e.1 ∈ acc) || bool_decide (e.2 ∈ acc)
           then add_vertex e.2 (add_vertex e.1 acc) else acc)
        seen edges.

Fixpoint flood (rounds : nat) (edges : list (Z * Z)) (seen : list Z) : list Z :=
  match rounds with
  | 0 => seen
  | S r => flood r edges (flood_step edges seen)
  end.

(** The boxes connected to [v]. *)
Definition component_of (edges : list (Z * Z)) (v : Z) : list Z :=
  flood (length edges) edges [v].

(** The pair list split into connected components, in order of first
    appearance. *)
Fixpoint components (fuel : nat) (edges : list (Z * Z)) : list (list (Z * Z)) :=
  match fuel, edges with
  | S fuel', e :: _ =>
      let vs := component_of edges e.1 in
      filter (λ e', e'.1 ∈ vs) edges
        :: components fuel' (filter (λ e', e'.1 ∉ vs) edges)
  | _, _ => []
  end.

Definition degree (edges : list (Z * Z)) (v : Z) : nat :=
  length (filter (λ e, touches v e = true) edges).

(** The box of highest remaining degree, the smaller id on a tie. *)
Definition better (edges : list (Z * Z)) (best v : Z) : Z :=
  if (degree edges best <? degree edges v)
     || ((degree edges best =? degree edges v) && (v <? best)%Z)
  then v else best.

Definition pick (edges : list (Z * Z)) (first : Z) : Z :=
  foldl (better edges) first (untuples edges).

(** Greedy selection inside one component, until no pair is left. *)
Fixpoint greedy (fuel : nat) (edges : list (Z * Z)) : list Z :=
  match fuel, edges with
  | S fuel', e :: _ =>
      let v := pick edges e.1 in
      v :: greedy fuel' (filter (λ e', touches v e' = false) edges)
  | _, _ => []
  end.

Definition cull_pairs (edges : list (Z * Z)) : list Z :=
  components (length edges) edges ≫= (λ comp, greedy (length comp) comp).

(** Modelled from the spec: [par_sprune_cull] is declared in the header
    (with its comment) and has no body in the source.  The spec's Culler:
    the collision pairs are the edges of a graph over the box ids; they are
    split into connected components, and inside each the box of highest
    remaining degree (smaller id on a tie) is culled and its pairs removed,
    until none is left.  The result fills [culled] and [nculled]. *)
Definition par_sprune_cull {F} (ctx : @Sprune.par_sprune__context F)
    : @Sprune.par_sprune__context F :=
  let picked := cull_pairs (tuples (Sprune.collision_pairs ctx)) in
  {| Sprune.collision_pairs := Sprune.collision_pairs ctx;
     Sprune.ncollision_pairs := Sprune.ncollision_pairs ctx;
     Sprune.culled := picked;
     Sprune.nculled := pa_count picked;
     Sprune.aabbs := Sprune.aabbs ctx;
     Sprune.naabbs := Sprune.naabbs ctx;
     Sprune.sorted_indices := Sprune.sorted_indices ctx;
     Sprune.overlap_flags := Sprune.overlap_flags ctx |}.

End Cull.

(** ** Sample inputs *)

(** A box array given by the list of its floats, over integer coordinates. *)
Definition zboxes (l : list Z) : Z → Z := λ i, nth (Z.to_nat i) l 0%Z.

Definition zero_cells : Sprune.fresh_cells :=
  {| Sprune.fresh_indices0 := λ _, 0%Z; Sprune.fresh_indices1 := λ _, 0%Z;
     Sprune.fresh_flags0 := λ _, false; Sprune.fresh_flags1 := λ _, false |}.

Definition stale_cells : Sprune.fresh_cells :=
  {| Sprune.fresh_indices0 := λ i, Z.of_nat i; Sprune.fresh_indices1 := λ _, 7%Z;
     Sprune.fresh_flags0 := λ _, true; Sprune.fresh_flags1 := λ _, false |}.

(** Two overlapping boxes and one apart. *)
Definition three_boxes : Z → Z := zboxes [0; 0; 2; 2;  1; 1; 3; 3;  5; 5; 6; 6]%Z.

(** The same after the third box moved onto the second. *)
Definition three_boxes_moved : Z → Z :=
  zboxes [0; 0; 2; 2;  1; 1; 3; 3;  2; 2; 6; 6]%Z.

(** Box 0 ends on x where box 1 starts. *)
Definition touching_boxes : Z → Z := zboxes [0; 0; 1; 1;  1; 0; 2; 1]%Z.

(** The same two boxes, numbered the other way round. *)
Definition touching_boxes_swapped : Z → Z := zboxes [1; 0; 2; 1;  0; 0; 1; 1]%Z.

(** A box whose min on x is above its max. *)
Definition crossed_box : Z → Z := zboxes [1; 0; 0; 1]%Z.

(** The same box followed by a well-formed one. *)
Definition crossed_boxes : Z → Z := zboxes [1; 0; 0; 1;  5; 5; 6; 6]%Z.

Definition one_box : Z → Z := zboxes [0; 0; 1; 1]%Z.

(** Three boxes that overlap one another. *)
Definition mutual_boxes : Z → Z := zboxes [0; 0; 3; 3;  1; 1; 4; 4;  2; 2; 5; 5]%Z.

(** An index array whose capacity is its count. *)
Definition indices_of (cells : list Z) : index_array :=
  {| index_header :=
       Some {| Stretchy.pa___m := pa_count cells;
               Stretchy.pa___n := pa_count cells |};
     index_cells := cells |}.

(** A flag array of capacity and count [m] with the given block. *)
Definition flags_of (m : Z) (block : list bool) : flag_array :=
  {| flag_header := Some {| Stretchy.pa___m := m; Stretchy.pa___n := m |};
     flag_block := block |}.

(** A context left by an earlier call on other boxes. *)
Definition used_context : @Sprune.par_sprune__context Z :=
  {| Sprune.collision_pairs := [0; 1]%Z; Sprune.ncollision_pairs := 1;
     Sprune.culled := [0]%Z; Sprune.nculled := 1;
     Sprune.aabbs := Some touching_boxes; Sprune.naabbs := 2;
     Sprune.sorted_indices :=
       (indices_of [4; 0; 6; 2]%Z, indices_of [1; 5; 3; 7]%Z);
     Sprune.overlap_flags :=
       (flags_of 4 [false; false; true; true],
        flags_of 4 [false; false; true; true]) |}.

(** What a call on [three_boxes] leaves when it reuses [used_context] and
    the new cells are [stale_cells]. *)
Definition reused_context : @Sprune.par_sprune__context Z :=
  {| Sprune.collision_pairs := [0; 1]%Z; Sprune.ncollision_pairs := 1;
     Sprune.culled := [0]%Z; Sprune.nculled := 1;
     Sprune.aabbs := Some three_boxes; Sprune.naabbs := 3;
     Sprune.sorted_indices :=
       ({| index_header :=
             Some {| Stretchy.pa___m := 8; Stretchy.pa___n := 6 |};
           index_cells := [0; 4; 2; 6; 8; 10]%Z |},
        {| index_header :=
             Some {| Stretchy.pa___m := 8; Stretchy.pa___n := 6 |};
           index_cells := [1; 5; 3; 7; 9; 11]%Z |});
     Sprune.overlap_flags :=
       ({| flag_header :=
             Some {| Stretchy.pa___m := 8; Stretchy.pa___n := 6 |};
           flag_block :=
             [false; false; false; true; true; true; true; true] |},
        {| flag_header :=
             Some {| Stretchy.pa___m := 8; Stretchy.pa___n := 6 |};
           flag_block :=
             [false; false; false; true; false; false; false; false] |}) |}.

Definition no_boxes : Z → Z := zboxes [].

(** The contexts a first call leaves on [three_boxes] and [touching_boxes]. *)
Definition three_boxes_context : @Sprune.par_sprune__context Z :=
  {| Sprune.collision_pairs := [0; 1]%Z; Sprune.ncollision_pairs := 1;
     Sprune.culled := []; Sprune.nculled := 0;
     Sprune.aabbs := Some three_boxes; Sprune.naabbs := 3;
     Sprune.sorted_indices :=
       (indices_of [0; 4; 2; 6; 8; 10]%Z, indices_of [1; 5; 3; 7; 9; 11]%Z);
     Sprune.overlap_flags :=
       (flags_of 6 [false; false; false; false],
        flags_of 6 [false; false; false; false]) |}.

Definition touching_context : @Sprune.par_sprune__context Z :=
  {| Sprune.collision_pairs := []; Sprune.ncollision_pairs := 0;
     Sprune.culled := []; Sprune.nculled := 0;
     Sprune.aabbs := Some touching_boxes; Sprune.naabbs := 2;
     Sprune.sorted_indices :=
       (indices_of [0; 2; 4; 6]%Z, indices_of [1; 5; 3; 7]%Z);
     Sprune.overlap_flags :=
       (flags_of 4 [false; false; false; false],
        flags_of 4 [false; false; false; false]) |}.

Definition zcompar (x y : Z) (_ : unit) : Z := (x - y)%Z.
Definition sample_array : list Z := [5; 3; 8; 1; 9; 2; 7; 4; 6; 0]%Z.

(** A header with one free cell left; a comparator that is no order; one
    that agrees with [zcompar] on the cells of [sample_array] only; and
    [three_boxes] followed by two more floats. *)
Definition full_header : Stretchy.header :=
  {| Stretchy.pa___m := 4; Stretchy.pa___n := 3 |}.
Definition one_compar (x y : Z) (_ : unit) : Z := 1%Z.
Definition clamped_compar (x y : Z) (_ : bool) : Z :=
  if ((0 <=? x) && (x <? 10) && (0 <=? y) && (y <? 10))%Z then (x - y)%Z else 0%Z.
Definition three_boxes_padded : Z → Z :=
  zboxes [0; 0; 2; 2;  1; 1; 3; 3;  5; 5; 6; 6;  9; 9]%Z.

(** * Properties *)

(** ** The error monad and the checked accesses *)

Lemma load_lookup {T} (base : list T) i x :
  base !! i = Some x → load base i = Ok x.
Proof. unfold load. by intros ->. Qed.

Lemma load_middle {T} (l1 l2 : list T) x :
  load (l1 ++ x :: l2) (length l1) = Ok x.
Proof. apply load_lookup, list_lookup_middle. done. Qed.

Lemma load_nil {T} i : load (@nil T) i = Err OutOfBounds.
Proof. done. Qed.

Lemma store_lt {T} (base : list T) i v :
  i < length base → store base i v = Ok (<[i := v]> base).
Proof. unfold store. intros. by rewrite decide_True. Qed.

(** Exchanging two cells of a list, seen on the list cut at the two cells. *)
Lemma exchange_cells {T} (L M R : list T) x y :
  <[length L + S (length M) := x]> (<[length L := y]> (L ++ x :: M ++ y :: R))
  = L ++ y :: M ++ x :: R.
Proof.
  replace (length L) with (length L + 0) at 2 by lia.
  rewrite !insert_app_r. simpl. f_equal. f_equal.
  replace (length M) with (length M + 0) by lia.
  by rewrite insert_app_r.
Qed.

Lemma bind_Ok {U V} (v : U) (k : U → result V) : Ok v ≫= k = k v.
Proof. done. Qed.

(** Inversion of a bind that returned. *)
Tactic Notation "bind_inv" hyp(H) :=
  match type of H with
  | mbind _ ?m = Ok _ =>
      let E := fresh "E" in
      destruct m eqn:E; [rewrite bind_Ok in H | discriminate H]
  end.

Tactic Notation "bind_inv" hyp(H) "as" simple_intropattern(x) ident(Hx) :=
  match type of H with
  | mbind _ ?m = Ok _ =>
      destruct m as [x|] eqn:Hx; [rewrite bind_Ok in H | discriminate H]
  end.

Lemma load_lt {T} (base : list T) i :
  i < length base → ∃ x, load base i = Ok x ∧ base !! i = Some x.
Proof.
  intros [x Hx]%lookup_lt_is_Some. exists x. split; [|done]. by apply load_lookup.
Qed.

Lemma exchange_Permutation {T} (l : list T) i j x y :
  l !! i = Some x → l !! j = Some y → <[j := x]> (<[i := y]> l) ≡ₚ l.
Proof.
  assert (Hhead : ∀ (l : list T) j x y, l !! j = Some y →
            y :: <[j := x]> l ≡ₚ x :: l).
  { clear. intros l j x y Hj.
    rewrite insert_take_drop by (by eapply lookup_lt_Some).
    rewrite <-(take_drop_middle l j y Hj) at 3.
    rewrite <-!Permutation_middle. apply perm_swap. }
  revert i j. induction l as [|z l IH]; intros [|i] [|j] Hi Hj;
    simplify_eq/=; try done.
  - by apply Hhead.
  - by apply Hhead.
  - f_equiv. by apply IH.
Qed.

(** ** The sort *)

Section QsortFacts.
Context {T Arg : Type}.
Variable compar : T → T → Arg → Z.
Variable arg : Arg.

Local Abbreviation le := (Qsort.cmp_le compar arg).
Local Abbreviation cmpswap := (Qsort.par_qsort_cmpswap compar arg).
Local Abbreviation ordered := (Qsort.cmp_ordered compar arg).

Lemma cmpswap_cut (L M R : list T) x y :
  cmpswap (L ++ x :: M ++ y :: R) (length L) (length L + S (length M))
  = Ok (if (0 <? compar x y arg)%Z
        then (L ++ y :: M ++ x :: R, true)
        else (L ++ x :: M ++ y :: R, false)).
Proof.
  unfold Qsort.par_qsort_cmpswap.
  rewrite load_middle. simpl.
  rewrite (load_lookup _ _ y); simpl.
  - destruct (0 <? compar x y arg)%Z; [|done]. by rewrite exchange_cells.
  - rewrite lookup_app_r by lia.
    replace (length L + S (length M) - length L) with (S (length M)) by lia.
    simpl. by apply list_lookup_middle.
Qed.

Lemma sift_down_cut (pre suf : list T) x :
  ∃ l1 l2, pre = l1 ++ l2
    ∧ Qsort.sift_down compar arg (pre ++ x :: suf) (length pre)
      = Ok (l1 ++ x :: l2 ++ suf)
    ∧ (ordered → StronglySorted le pre →
       Forall (λ y, le y x) l1 ∧ Forall (λ y, le x y) l2).
Proof.
  revert suf. induction pre as [|y pre IH] using rev_ind; intros suf.
  { exists [], []. split_and!; [done|done|]. intros _ _. split; constructor. }
  rewrite length_app, Nat.add_1_r. simpl.
  rewrite <-(assoc_L (++)). simpl.
  pose proof (cmpswap_cut pre [] suf y x) as Hc. simpl in Hc.
  rewrite Nat.add_1_r in Hc. rewrite Hc. clear Hc.
  destruct (0 <? compar y x arg)%Z eqn:Hyx; simpl.
  - destruct (IH (y :: suf)) as (l1 & l2 & -> & -> & Hord).
    exists l1, (l2 ++ [y]). rewrite <-!(assoc_L (++)). simpl.
    split_and!; [done|done|]. intros Ho Hs. rewrite (assoc_L (++)) in Hs.
    apply StronglySorted_app in Hs as (_ & Hpre & _).
    destruct (Hord Ho Hpre) as [H1 H2]. split; [done|].
    apply Forall_app; split; [done|]. repeat constructor.
    apply Ho. lia.
  - exists (pre ++ [y]), []. rewrite app_nil_r, <-(assoc_L (++)). simpl.
    split_and!; [done|done|]. intros Ho Hs. split; [|constructor].
    apply StronglySorted_app in Hs as (Hall & _ & _).
    assert (le y x) by (unfold Qsort.cmp_le; lia).
    apply Forall_app; split; [|by repeat constructor].
    apply Forall_forall. intros z Hz. apply (proj2 Ho z y x); [|done].
    apply Hall; [done|]. by apply list_elem_of_singleton.
Qed.

Lemma insertion_loop_cut (mid pre rest : list T) :
  ∃ s, Qsort.insertion_loop compar arg (pre ++ mid ++ rest) (length pre) (length mid)
       = Ok (s ++ rest)
     ∧ s ≡ₚ pre ++ mid
     ∧ (ordered → StronglySorted le pre → StronglySorted le s).
Proof.
  revert pre. induction mid as [|x mid IH]; intros pre.
  { exists pre. by rewrite app_nil_r. }
  simpl.
  destruct (sift_down_cut pre (mid ++ rest) x) as (l1 & l2 & -> & -> & Hord).
  simpl.
  destruct (IH (l1 ++ x :: l2)) as (s & Hrun & Hperm & Hsorted).
  exists s. split_and!.
  - rewrite <-Hrun. f_equal.
    + by rewrite <-!(assoc_L (++)).
    + rewrite !length_app. simpl. lia.
  - rewrite Hperm. rewrite <-!(assoc_L (++)). simpl.
    by rewrite <-!Permutation_middle.
  - intros Ho Hs. apply (Hsorted Ho). destruct (Hord Ho Hs) as [H1 H2].
    apply StronglySorted_app in Hs as (H12 & Hl1 & Hl2).
    apply StronglySorted_app. split_and!; [|done|by constructor].
    intros a b Ha Hb. apply elem_of_cons in Hb as [->|Hb].
    + by eapply Forall_forall in H1.
    + by apply H12.
Qed.

Lemma insertion_sort_cut (seg rest : list T) :
  ∃ s, Qsort.insertion_sort compar arg (seg ++ rest) (length seg) = Ok (s ++ rest)
     ∧ s ≡ₚ seg
     ∧ (ordered → StronglySorted le s).
Proof.
  destruct seg as [|x seg].
  { exists []. split_and!; [done|done|constructor]. }
  unfold Qsort.insertion_sort. simpl. rewrite Nat.sub_0_r.
  destruct (insertion_loop_cut seg [x] rest) as (s & Hrun & Hperm & Hs).
  exists s. split_and!; [done|done|]. intros Ho. apply (Hs Ho).
  repeat constructor.
Qed.

Lemma partition_loop_cut n :
  (∀ M L R p, length M = n →
     ∃ A B, Qsort.partition_loop compar arg true (L ++ M ++ p :: R) (length L) n
            = Ok (L ++ A ++ p :: B ++ R, length L + length A)
          ∧ A ++ B ≡ₚ M
          ∧ (ordered → Forall (λ y, le y p) A ∧ Forall (λ y, le p y) B))
  ∧ (∀ M L R p, length M = n →
     ∃ A B, Qsort.partition_loop compar arg false (L ++ p :: M ++ R) (length L) n
            = Ok (L ++ A ++ p :: B ++ R, length L + length A)
          ∧ A ++ B ≡ₚ M
          ∧ (ordered → Forall (λ y, le y p) A ∧ Forall (λ y, le p y) B)).
Proof.
  induction n as [|n [IHup IHdown]].
  { split; intros M L R p ->%nil_length_inv; exists [], []; simpl;
      rewrite Nat.add_0_r; (split_and!; [done|done|]);
      intros _; split; constructor. }
  split; intros M L R p Hlen.
  - destruct M as [|x M]; simplify_eq/=.
    rewrite cmpswap_cut. simpl.
    destruct (0 <? compar x p arg)%Z eqn:Hxp; simpl.
    + destruct (IHdown M L (x :: R) p eq_refl) as (A & B & -> & HAB & Hord).
      exists A, (B ++ [x]). rewrite <-!(assoc_L (++)). simpl.
      split_and!; [done| |].
      * rewrite (assoc_L (++)), HAB. by rewrite <-Permutation_cons_append.
      * intros Ho. destruct (Hord Ho) as [HA HB]. split; [done|].
        apply Forall_app; split; [done|]. repeat constructor.
        apply Ho. lia.
    + destruct (IHup M (L ++ [x]) R p eq_refl) as (A & B & HAB' & HAB & Hord).
      rewrite length_app, Nat.add_1_r, <-!(assoc_L (++)) in HAB'. simpl in HAB'.
      exists (x :: A), B. simpl.
      split_and!; [|by rewrite HAB|].
      * rewrite HAB'. do 2 f_equal. lia.
      * intros Ho. destruct (Hord Ho) as [HA HB]. split; [|done].
        constructor; [|done]. unfold Qsort.cmp_le. lia.
  - destruct M as [|y M _] using rev_ind; [done|].
    rewrite length_app, Nat.add_1_r in Hlen. simplify_eq/=.
    rewrite <-!(assoc_L (++)). simpl.
    rewrite cmpswap_cut. simpl.
    destruct (0 <? compar p y arg)%Z eqn:Hpy; simpl.
    + destruct (IHup M (L ++ [y]) R p eq_refl) as (A & B & HAB' & HAB & Hord).
      rewrite length_app, Nat.add_1_r, <-!(assoc_L (++)) in HAB'. simpl in HAB'.
      exists (y :: A), B. simpl.
      split_and!.
      * rewrite HAB'. do 2 f_equal. lia.
      * rewrite HAB. by rewrite <-Permutation_cons_append.
      * intros Ho. destruct (Hord Ho) as [HA HB]. split; [|done].
        constructor; [|done]. apply Ho. lia.
    + destruct (IHdown M L (y :: R) p eq_refl) as (A & B & -> & HAB & Hord).
      exists A, (B ++ [y]). rewrite <-!(assoc_L (++)). simpl.
      split_and!; [done| |].
      * by rewrite (assoc_L (++)), HAB.
      * intros Ho. destruct (Hord Ho) as [HA HB]. split; [done|].
        apply Forall_app; split; [done|]. repeat constructor.
        unfold Qsort.cmp_le. lia.
Qed.

Lemma median3_lt (base : list T) nel :
  0 < nel → nel ≤ length base →
  ∃ m, Qsort.median3 compar arg base nel = Ok m ∧ m < nel.
Proof.
  intros Hpos Hlen. unfold Qsort.median3. cbv zeta.
  assert (nel / 2 < nel) as Hhalf by (apply Nat.div_lt; lia).
  destruct (load_lt base 0) as (x0 & Hx0 & _); [lia|].
  destruct (load_lt base (nel / 2)) as (x1 & Hx1 & _); [lia|].
  destruct (load_lt base (nel - 1)) as (x2 & Hx2 & _); [lia|].
  rewrite Hx0, bind_Ok, Hx1, bind_Ok.
  destruct (0 <? compar x0 x1 arg)%Z;
    rewrite ?Hx0, ?Hx1, ?Hx2, ?bind_Ok;
    repeat (case_match; rewrite ?Hx0, ?Hx1, ?Hx2, ?bind_Ok);
    eexists; (split; [done|lia]).
Qed.

Lemma swap_blocks_cut (seg rest : list T) i j :
  i < length seg → j < length seg →
  ∃ seg', Qsort.swap_blocks (seg ++ rest) i j = Ok (seg' ++ rest) ∧ seg' ≡ₚ seg.
Proof.
  intros Hi Hj. unfold Qsort.swap_blocks.
  destruct (load_lt seg i Hi) as (x & _ & Hx).
  destruct (load_lt seg j Hj) as (y & _ & Hy).
  rewrite (load_lookup (seg ++ rest) i x), (load_lookup (seg ++ rest) j y)
    by by apply lookup_app_l_Some.
  simpl. exists (<[j := x]> (<[i := y]> seg)). split.
  - by rewrite !insert_app_l by (rewrite ?length_insert; lia).
  - by apply exchange_Permutation.
Qed.

Lemma partition_cut (seg rest : list T) :
  0 < length seg →
  ∃ A p B, Qsort.partition compar arg (seg ++ rest) (length seg)
           = Ok (A ++ p :: B ++ rest, length A)
         ∧ A ++ p :: B ≡ₚ seg
         ∧ (ordered → Forall (λ y, le y p) A ∧ Forall (λ y, le p y) B).
Proof.
  intros Hpos. unfold Qsort.partition.
  destruct (median3_lt (seg ++ rest) (length seg)) as (m & -> & Hm);
    [done|rewrite length_app; lia|]. simpl.
  destruct (swap_blocks_cut seg rest m (length seg - 1)) as (seg' & -> & Hperm);
    [lia..|]. simpl.
  pose proof (Permutation_length Hperm) as Hlen.
  destruct seg' as [|p M _] using rev_ind; [simpl in Hlen; lia|].
  rewrite length_app, Nat.add_1_r in Hlen. rewrite <-Hlen. simpl.
  rewrite Nat.sub_0_r, <-(assoc_L (++)). simpl.
  destruct (proj1 (partition_loop_cut (length M)) M [] rest p eq_refl)
    as (A & B & Hrun & HAB & Hord). simpl in Hrun.
  exists A, p, B. split_and!; [done| |done].
  rewrite <-Hperm, <-Permutation_middle, HAB. by rewrite Permutation_cons_append.
Qed.

Lemma par_qsort_rec_cut fuel (seg rest : list T) :
  length seg ≤ fuel →
  ∃ s, Qsort.par_qsort_rec compar arg fuel (seg ++ rest) (length seg)
       = Ok (s ++ rest)
     ∧ s ≡ₚ seg ∧ (ordered → StronglySorted le s).
Proof.
  revert seg rest. induction fuel as [|fuel IH]; intros seg rest Hfuel.
  { simpl. destruct (length seg <? 7); apply insertion_sort_cut. }
  simpl. destruct (length seg <? 7) eqn:Hsmall; [apply insertion_sort_cut|].
  apply Nat.ltb_ge in Hsmall.
  destruct (partition_cut seg rest) as (A & p & B & -> & Hperm & Hord); [lia|].
  simpl. pose proof (Permutation_length Hperm) as Hlen.
  rewrite length_app in Hlen. simpl in Hlen.
  destruct (IH A (p :: B ++ rest)) as (sA & -> & HpA & HsA); [lia|].
  rewrite bind_Ok.
  pose proof (Permutation_length HpA) as HlenA.
  replace (sA ++ p :: B ++ rest) with ((sA ++ [p]) ++ B ++ rest)
    by (by rewrite <-(assoc_L (++))).
  replace (S (length A)) with (length (sA ++ [p]))
    by (rewrite length_app; simpl; lia).
  rewrite drop_app_length, take_app_length.
  replace (length seg - length (sA ++ [p])) with (length B)
    by (rewrite length_app; simpl; lia).
  destruct (IH B rest) as (sB & -> & HpB & HsB); [lia|]. rewrite bind_Ok.
  exists (sA ++ p :: sB). split_and!.
  - by rewrite <-!(assoc_L (++)).
  - by rewrite HpA, HpB.
  - intros Ho. destruct (Hord Ho) as [HA HB].
    apply StronglySorted_app. split_and!; [|by apply HsA|].
    + intros a b Ha Hb. rewrite HpA in Ha.
      eapply Forall_forall in HA; [|done].
      apply elem_of_cons in Hb as [->|Hb]; [done|].
      rewrite HpB in Hb. eapply Forall_forall in HB; [|done].
      by apply (proj2 Ho a p b).
    + constructor; [by apply HsB|]. by rewrite HpB.
Qed.

(** The sort on the first [nel] cells of an array. *)
Lemma par_qsort_prefix (base : list T) nel :
  nel ≤ length base →
  ∃ s, Qsort.par_qsort compar arg base nel = Ok (s ++ drop nel base)
     ∧ s ≡ₚ take nel base ∧ (ordered → StronglySorted le s).
Proof.
  intros Hnel. unfold Qsort.par_qsort.
  assert (length (take nel base) = nel) as Hlen by (rewrite length_take; lia).
  destruct (par_qsort_rec_cut nel (take nel base) (drop nel base))
    as (s & Hrun & Hs); [lia|].
  rewrite take_drop, Hlen in Hrun. by exists s.
Qed.

End QsortFacts.

Section QsortFuel.
Context {T Arg : Type}.
Variable compar : T → T → Arg → Z.
Variable arg : Arg.

Lemma partition_loop_bounds gap : ∀ up base pl base' pl',
  Qsort.partition_loop compar arg up base pl gap = Ok (base', pl') →
  pl ≤ pl' ≤ pl + gap.
Proof.
  induction gap as [|gap IH]; intros up base pl base' pl' H; simpl in H.
  { simplify_eq. lia. }
  bind_inv H as [base1 sw] Hswap.
  destruct up, sw; apply IH in H; lia.
Qed.

Lemma partition_bounds base nel base' pl :
  Qsort.partition compar arg base nel = Ok (base', pl) → pl ≤ nel - 1.
Proof.
  unfold Qsort.partition. intros H.
  bind_inv H as m Hm. bind_inv H as base1 Hswap.
  apply partition_loop_bounds in H. lia.
Qed.

(** The bound on the depth of the recursion is never reached. *)
Lemma par_qsort_rec_fuel f1 : ∀ f2 base nel,
  nel ≤ f1 → nel ≤ f2 →
  Qsort.par_qsort_rec compar arg f1 base nel
  = Qsort.par_qsort_rec compar arg f2 base nel.
Proof.
  induction f1 as [|f1 IH]; intros f2 base nel H1 H2.
  { replace nel with 0 by lia. by destruct f2. }
  destruct f2 as [|f2].
  { replace nel with 0 by lia. done. }
  cbn [Qsort.par_qsort_rec]. destruct (Nat.ltb_spec nel 7) as [|Hnel]; [done|].
  destruct (Qsort.partition compar arg base nel) as [[base1 pl]|] eqn:Hpart;
    [|done].
  apply partition_bounds in Hpart. rewrite !bind_Ok.
  rewrite (IH f2 base1 pl) by lia.
  destruct (Qsort.par_qsort_rec compar arg f2 base1 pl) as [base2|]; [|done].
  rewrite !bind_Ok. by rewrite (IH f2 (drop (S pl) base2) (nel - S pl)) by lia.
Qed.

(** [par_qsort] satisfies the recursive equation of the source. *)
Lemma par_qsort_equation base nel :
  Qsort.par_qsort compar arg base nel
  = if nel <? 7 then Qsort.insertion_sort compar arg base nel
    else
      '(base1, pl) ← Qsort.partition compar arg base nel;
      base2 ← Qsort.par_qsort compar arg base1 pl;
      right ← Qsort.par_qsort compar arg (drop (S pl) base2) (nel - S pl);
      Ok (take (S pl) base2 ++ right).
Proof.
  unfold Qsort.par_qsort. destruct nel as [|fuel]; [done|].
  cbn [Qsort.par_qsort_rec]. destruct (Nat.ltb_spec (S fuel) 7); [done|].
  destruct (Qsort.partition compar arg base (S fuel)) as [[base1 pl]|] eqn:Hpart;
    [|done].
  apply partition_bounds in Hpart. rewrite !bind_Ok.
  rewrite (par_qsort_rec_fuel fuel pl base1 pl) by lia.
  destruct (Qsort.par_qsort_rec compar arg pl base1 pl) as [base2|]; [|done].
  rewrite !bind_Ok.
  by rewrite (par_qsort_rec_fuel fuel (S fuel - S pl)
                (drop (S pl) base2) (S fuel - S pl)) by lia.
Qed.

End QsortFuel.

(** C10. For a comparator that defines a total order (with its context
    argument), [par_qsort] on the first [nel] cells of an array returns; the
    cells are then a permutation of what they were, in non-decreasing order
    of the comparator, and the cells behind them are untouched. *)
Theorem par_qsort_sorts {T Arg} (compar : T → T → Arg → Z) (arg : Arg)
    (base : list T) (nel : nat) :
  Qsort.cmp_ordered compar arg →
  nel ≤ length base →
  ∃ base', Qsort.par_qsort compar arg base nel = Ok base'
    ∧ take nel base' ≡ₚ take nel base
    ∧ drop nel base' = drop nel base
    ∧ StronglySorted (Qsort.cmp_le compar arg) (take nel base').
Proof.
  intros Ho Hnel.
  destruct (par_qsort_prefix compar arg base nel Hnel) as (s & Hrun & Hperm & Hs).
  assert (length s = nel) as Hlen.
  { rewrite (Permutation_length Hperm), length_take. lia. }
  exists (s ++ drop nel base).
  rewrite take_app_length', drop_app_length' by done. auto.
Qed.

(** ** Pairs, events and the active set *)

Lemma tuples_untuples ps : tuples (untuples ps) = ps.
Proof. induction ps as [|[a b] ps IH]; simpl; [done|]. by rewrite IH. Qed.

Lemma untuples_app ps qs : untuples (ps ++ qs) = untuples ps ++ untuples qs.
Proof. unfold untuples. by rewrite bind_app. Qed.

Lemma length_untuples ps : length (untuples ps) = 2 * length ps.
Proof.
  induction ps as [|[a b] ps IH]; [done|].
  change (untuples ((a, b) :: ps)) with (a :: b :: untuples ps).
  simpl. rewrite IH. lia.
Qed.

Lemma pa_count_untuples ps :
  Z.to_nat (pa_count (untuples ps) `quot` 2) = length ps.
Proof.
  unfold pa_count. rewrite length_untuples.
  rewrite Z.quot_div_nonneg by lia.
  replace (Z.of_nat (2 * length ps)) with (Z.of_nat (length ps) * 2)%Z by lia.
  rewrite Z.div_mul by lia. lia.
Qed.

(** Events *)
Lemma elem_of_events axis n e :
  e ∈ events axis n ↔ ∃ c, (0 ≤ c < n)%Z ∧ (e = ev_min axis c ∨ e = ev_max axis c).
Proof.
  unfold events. rewrite list_elem_of_bind. split.
  - intros (c & He & Hc). apply elem_of_seqZ in Hc. exists c. split; [lia|].
    apply elem_of_cons in He as [->|He]; [by left|].
    apply list_elem_of_singleton in He. by right.
  - intros (c & Hc & He). exists c. split; [|apply elem_of_seqZ; lia].
    rewrite elem_of_cons, list_elem_of_singleton. done.
Qed.

Lemma NoDup_events axis n : NoDup (events axis n).
Proof.
  unfold events. apply NoDup_bind; [| |apply NoDup_seqZ].
  - intros c1 c2 e _ _ H1 H2. unfold ev_min, ev_max in *.
    rewrite elem_of_cons, list_elem_of_singleton in H1, H2. lia.
  - intros c _. unfold ev_min, ev_max. apply NoDup_cons.
    split; [|apply NoDup_singleton]. rewrite list_elem_of_singleton. lia.
Qed.

Lemma ev_min_events axis n c : ev_min axis c ∈ events axis n ↔ (0 ≤ c < n)%Z.
Proof.
  rewrite elem_of_events. unfold ev_min, ev_max. split.
  - intros (c' & Hc & [?|?]); [by replace c with c' by lia|lia].
  - intros Hc. exists c. auto.
Qed.

Lemma ev_max_events axis n c : ev_max axis c ∈ events axis n ↔ (0 ≤ c < n)%Z.
Proof.
  rewrite elem_of_events. unfold ev_min, ev_max. split.
  - intros (c' & Hc & [?|?]); [lia|by replace c with c' by lia].
  - intros Hc. exists c. auto.
Qed.

(** An event decoded as the sweep does. *)
Lemma decode_min axis c :
  (0 ≤ c)%Z → (axis = 0 ∨ axis = 1)%Z →
  (ev_min axis c `quot` 4 = c)%Z ∧ ((ev_min axis c - axis) `rem` 4 =? 0)%Z = true.
Proof.
  intros Hc Hax. unfold ev_min. split.
  - rewrite Z.quot_div_nonneg by lia.
    symmetry. apply (Z.div_unique _ 4 c axis); lia.
  - replace (c * 4 + axis - axis)%Z with (c * 4)%Z by lia.
    rewrite Z.rem_mul by lia. done.
Qed.

Lemma decode_max axis c :
  (0 ≤ c)%Z → (axis = 0 ∨ axis = 1)%Z →
  (ev_max axis c `quot` 4 = c)%Z ∧ ((ev_max axis c - axis) `rem` 4 =? 0)%Z = false.
Proof.
  intros Hc Hax. unfold ev_max. split.
  - rewrite Z.quot_div_nonneg by lia.
    symmetry. apply (Z.div_unique _ 4 c (2 + axis)); lia.
  - replace (c * 4 + 2 + axis - axis)%Z with (2 + c * 4)%Z by lia.
    rewrite Z.rem_add by lia. done.
Qed.

(** [par_sprune__remove] *)
Lemma remove_scan_absent arr val i : val ∉ arr → remove_scan arr val i = None.
Proof.
  intros Hval. induction i as [|i IH]; simpl; [done|].
  rewrite decide_False; [done|]. intros Hi. apply Hval.
  by eapply list_elem_of_lookup_2.
Qed.

Lemma remove_scan_last l1 l2 val k :
  val ∉ l2 → k ≤ length l2 →
  remove_scan (l1 ++ val :: l2) val (length l1 + S k) = Some (length l1).
Proof.
  intros Hval. induction k as [|k IH]; intros Hk.
  - rewrite Nat.add_1_r. simpl. rewrite decide_True; [done|].
    by apply list_lookup_middle.
  - rewrite Nat.add_succ_r. simpl. rewrite decide_False; [apply IH; lia|].
    rewrite lookup_app_r by lia.
    replace (length l1 + S k - length l1) with (S k) by lia. simpl.
    intros Hi. apply Hval. by eapply list_elem_of_lookup_2.
Qed.

Lemma remove_shift_end l2 l1 val :
  remove_shift (l1 ++ val :: l2) (S (length l1)) (length l2)
  = Ok (l1 ++ l2 ++ [val]).
Proof.
  revert l1. induction l2 as [|y l2 IH]; intros l1; [done|].
  simpl. rewrite Nat.sub_0_r, load_middle, bind_Ok.
  rewrite (load_lookup _ _ y), bind_Ok.
  2:{ rewrite lookup_app_r by lia.
      by replace (S (length l1) - length l1) with 1 by lia. }
  pose proof (exchange_cells l1 [] l2 val y) as Hx. simpl in Hx.
  rewrite Nat.add_1_r in Hx. rewrite Hx.
  specialize (IH (l1 ++ [y])). rewrite length_app, Nat.add_1_r in IH.
  rewrite <-!(assoc_L (++)) in IH. done.
Qed.

Lemma remove_last_occurrence l1 l2 val :
  val ∉ l2 → par_sprune__remove (l1 ++ val :: l2) val = Ok (l1 ++ l2).
Proof.
  intros Hval. unfold par_sprune__remove.
  rewrite length_app. simpl.
  rewrite (remove_scan_last l1 l2 val (length l2)) by done.
  replace (length l1 + S (length l2) - S (length l1)) with (length l2) by lia.
  rewrite remove_shift_end, bind_Ok. f_equal.
  rewrite (assoc_L (++)). apply take_app_length'.
  rewrite !length_app. simpl. lia.
Qed.

Lemma remove_absent arr val :
  val ∉ arr → par_sprune__remove arr val = Err AssertFailed.
Proof. intros Hval. unfold par_sprune__remove. by rewrite remove_scan_absent. Qed.

Lemma remove_Ok arr val arr' :
  par_sprune__remove arr val = Ok arr' →
  ∃ l1 l2, arr = l1 ++ val :: l2 ∧ arr' = l1 ++ l2 ∧ val ∉ l2.
Proof.
  intros Hrun. destruct (decide (val ∈ arr)) as [Hin|Hnot].
  - apply list_elem_of_split_r in Hin as (l1 & l2 & -> & Hval).
    rewrite remove_last_occurrence in Hrun by done. simplify_eq. eauto.
  - by rewrite remove_absent in Hrun.
Qed.

Lemma emit_pairs_untuples act c ps :
  Sprune.emit_pairs act c (untuples ps)
  = untuples (ps ++ ((λ aj, (PAR_MIN aj c, PAR_MAX aj c)) <$> act)).
Proof.
  revert ps. induction act as [|aj act IH]; intros ps; simpl.
  { by rewrite app_nil_r. }
  unfold pa_push. rewrite <-(assoc_L (++)). simpl.
  change [PAR_MIN aj c; PAR_MAX aj c] with (untuples [(PAR_MIN aj c, PAR_MAX aj c)]).
  rewrite <-untuples_app, IH, <-(assoc_L (++)). done.
Qed.

Lemma PAR_MIN_MAX_lt aj c :
  aj ≠ c → (PAR_MIN aj c < PAR_MAX aj c)%Z
  ∧ ((PAR_MIN aj c = aj ∧ PAR_MAX aj c = c) ∨ (PAR_MIN aj c = c ∧ PAR_MAX aj c = aj)).
Proof. unfold PAR_MIN, PAR_MAX. intros. destruct (Z.ltb_spec c aj); lia. Qed.

(** ** The sweep over any order of the events *)

Section WeakSweep.
Variable axis : Z.
Hypothesis axis01 : (axis = 0 ∨ axis = 1)%Z.

Lemma ev_min_inj c c' : ev_min axis c = ev_min axis c' → c = c'.
Proof. unfold ev_min. lia. Qed.
Lemma ev_max_inj c c' : ev_max axis c = ev_max axis c' → c = c'.
Proof. unfold ev_max. lia. Qed.
Lemma ev_min_max c c' : ev_min axis c ≠ ev_max axis c'.
Proof. unfold ev_min, ev_max. lia. Qed.

Lemma sweep_event_min act ps c :
  (0 ≤ c)%Z →
  Sprune.sweep_event axis act (untuples ps) (ev_min axis c)
  = Ok (act ++ [c],
        untuples (ps ++ ((λ aj, (PAR_MIN aj c, PAR_MAX aj c)) <$> act))).
Proof.
  intros Hc. unfold Sprune.sweep_event.
  destruct (decode_min axis c Hc axis01) as [-> ->].
  by rewrite emit_pairs_untuples.
Qed.

Lemma sweep_event_max act out c :
  (0 ≤ c)%Z →
  Sprune.sweep_event axis act out (ev_max axis c)
  = act' ← par_sprune__remove act c; Ok (act', out).
Proof.
  intros Hc. unfold Sprune.sweep_event.
  by destruct (decode_max axis c Hc axis01) as [-> ->].
Qed.

Lemma sweep_loop_weak Q : ∀ P act ps act' out,
  NoDup (P ++ Q) →
  (∀ e, e ∈ Q → ∃ c, (0 ≤ c)%Z ∧ (e = ev_min axis c ∨ e = ev_max axis c)) →
  weak_inv axis P act ps →
  Sprune.sweep_loop axis (P ++ Q) act (untuples ps) (length P) (length Q)
  = Ok (act', out) →
  ∃ ps', out = untuples ps' ∧ weak_inv axis (P ++ Q) act' ps'.
Proof.
  induction Q as [|e Q IH]; intros P act ps act' out Hnd Hev Hinv Hrun.
  { simpl in Hrun. simplify_eq. exists ps. by rewrite app_nil_r. }
  simpl in Hrun. rewrite load_middle, bind_Ok in Hrun.
  destruct (Hev e) as (c & Hc & He); [left|].
  assert (e ∉ P) as HeP.
  { apply NoDup_app in Hnd as (_ & Hnd & _). intros HP. apply (Hnd e HP). left. }
  assert (NoDup ((P ++ [e]) ++ Q)) as Hnd' by (by rewrite <-(assoc_L (++))).
  assert (∀ e', e' ∈ Q → ∃ c, (0 ≤ c)%Z ∧ (e' = ev_min axis c ∨ e' = ev_max axis c))
    as Hev' by (intros e' He'; apply Hev; by right).
  destruct Hinv as (Hact & HactP & Hps & HpsP).
  replace (P ++ e :: Q) with ((P ++ [e]) ++ Q) in * by (by rewrite <-(assoc_L (++))).
  replace (S (length P)) with (length (P ++ [e])) in Hrun
    by (rewrite length_app; simpl; lia).
  destruct He as [-> | ->].
  - rewrite sweep_event_min, bind_Ok in Hrun by done.
    apply (IH _ _ _ _ _ Hnd' Hev') in Hrun; [done|]. unfold weak_inv.
    assert (c ∉ act) as Hcact by (intros Hin; by apply HeP, HactP).
    split_and!.
    + apply NoDup_app. split_and!; [done| |apply NoDup_singleton].
      intros x Hx ->%list_elem_of_singleton. done.
    + intros c' [Hc'| ->%list_elem_of_singleton]%elem_of_app;
        apply elem_of_app; [left; by apply HactP|right; left].
    + apply NoDup_app. split_and!; [done| |].
      * intros [a b] Hab (aj & Heq & Haj)%list_elem_of_fmap.
        destruct (HpsP a b Hab) as (_ & Ha & Hb).
        destruct (PAR_MIN_MAX_lt aj c) as (_ & [[Hmin Hmax]|[Hmin Hmax]]);
          [by intros ->|simplify_eq..].
        -- rewrite Hmax in Hb. by apply HeP.
        -- rewrite Hmin in Ha. by apply HeP.
      * apply NoDup_fmap_2_strong; [|done].
        intros x y Hx Hy Heq.
        destruct (PAR_MIN_MAX_lt x c) as (_ & Hxc); [by intros ->|].
        destruct (PAR_MIN_MAX_lt y c) as (_ & Hyc); [by intros ->|].
        simplify_eq. lia.
    + intros a b [Hab|(aj & Heq & Haj)%list_elem_of_fmap]%elem_of_app.
      * destruct (HpsP a b Hab) as (? & ? & ?).
        split_and!; [done|apply elem_of_app; by left..].
      * destruct (PAR_MIN_MAX_lt aj c) as (Hlt & Hcases); [by intros ->|].
        simplify_eq. split; [done|].
        destruct Hcases as [[-> ->]|[-> ->]]; split; apply elem_of_app;
          (by left; apply HactP) || (right; left).
  - rewrite sweep_event_max in Hrun by done.
    destruct (par_sprune__remove act c) as [act1|] eqn:Hrm; [|done].
    rewrite !bind_Ok in Hrun.
    apply remove_Ok in Hrm as (l1 & l2 & -> & -> & _).
    apply (IH _ _ _ _ _ Hnd' Hev') in Hrun; [done|]. unfold weak_inv.
    split_and!.
    + apply NoDup_app in Hact as (H1 & H12 & [_ H2]%NoDup_cons).
      apply NoDup_app. split_and!; [done| |done].
      intros x Hx Hx2. apply (H12 x Hx). by right.
    + intros c' Hc'. apply elem_of_app. left. apply HactP.
      apply elem_of_app in Hc' as [?|?]; apply elem_of_app; [by left|right; by right].
    + done.
    + intros a b Hab. destruct (HpsP a b Hab) as (? & ? & ?).
      split_and!; [done|apply elem_of_app; by left..].
Qed.

End WeakSweep.

(** ** The order of the events *)

Section EventOrder.
Context {F : Type} (flt_lt : F → F → bool).
Variable boxes : Z → F.

Local Abbreviation srt := {| Sprune.sorter_aabbs := boxes |}.
Local Abbreviation cmpinds := (Sprune.par__cmpinds flt_lt).
Local Abbreviation before := (ev_before flt_lt boxes).

Lemma cmpinds_neg x y :
  (cmpinds x y srt < 0)%Z ↔
  flt_lt (boxes y) (boxes x) = false
  ∧ (flt_lt (boxes x) (boxes y) = true ∨ (x < y)%Z).
Proof.
  unfold Sprune.par__cmpinds. simpl.
  destruct (flt_lt (boxes y) (boxes x)), (flt_lt (boxes x) (boxes y)),
    (Z.ltb_spec y x), (Z.ltb_spec x y); intuition (done || lia).
Qed.

Lemma cmpinds_nonpos x y :
  (cmpinds x y srt ≤ 0)%Z ↔
  flt_lt (boxes y) (boxes x) = false
  ∧ (flt_lt (boxes x) (boxes y) = true ∨ (x ≤ y)%Z).
Proof.
  unfold Sprune.par__cmpinds. simpl.
  destruct (flt_lt (boxes y) (boxes x)), (flt_lt (boxes x) (boxes y)),
    (Z.ltb_spec y x), (Z.ltb_spec x y); intuition (done || lia).
Qed.

Lemma cmpinds_pos x y :
  (0 < cmpinds x y srt)%Z ↔
  flt_lt (boxes y) (boxes x) = true
  ∨ (flt_lt (boxes x) (boxes y) = false ∧ (y < x)%Z).
Proof.
  unfold Sprune.par__cmpinds. simpl.
  destruct (flt_lt (boxes y) (boxes x)), (flt_lt (boxes x) (boxes y)),
    (Z.ltb_spec y x), (Z.ltb_spec x y); intuition (done || lia).
Qed.

(** Two events that compare both ways are the same event. *)
Lemma cmpinds_antisym x y :
  (cmpinds x y srt ≤ 0)%Z → (cmpinds y x srt ≤ 0)%Z → x = y.
Proof.
  rewrite !cmpinds_nonpos. intros (H1 & H2) (H3 & H4).
  destruct H2 as [?|?], H4 as [?|?]; try congruence. lia.
Qed.

Context `{!FltOrder flt_lt}.

Lemma flt_asym (x y : F) : flt_lt x y = true → flt_lt y x = false.
Proof.
  intros Hxy. destruct (flt_lt y x) eqn:Hyx; [|done].
  pose proof (flt_trans (flt_lt:=flt_lt) x y x Hxy Hyx) as Hxx.
  by rewrite flt_irrefl in Hxx.
Qed.

Lemma cmpinds_ordered : Qsort.cmp_ordered cmpinds srt.
Proof.
  split.
  - intros x y. rewrite cmpinds_pos, cmpinds_nonpos.
    intros [H|[H ?]]; (split; [|right; lia]) || split; auto using flt_asym.
  - intros x y z. rewrite !cmpinds_nonpos. intros (H1 & H2) (H3 & H4).
    split; [by apply (flt_incomp (flt_lt:=flt_lt) _ (boxes y))|].
    destruct (flt_lt (boxes x) (boxes z)) eqn:Hxz; [by left|right].
    destruct H2 as [H2|H2].
    { by rewrite (flt_incomp (flt_lt:=flt_lt) (boxes x) (boxes z) (boxes y)) in H2. }
    destruct H4 as [H4|H4]; [|lia].
    by rewrite (flt_incomp (flt_lt:=flt_lt) (boxes y) (boxes x) (boxes z)) in H4.
Qed.

Lemma before_asym x y : before x y → before y x → False.
Proof.
  unfold ev_before. rewrite !cmpinds_neg.
  intros (H1 & [H2|H2]) (H3 & [H4|H4]); try congruence. lia.
Qed.

Lemma sorted_before P Q x y :
  StronglySorted (Qsort.cmp_le cmpinds srt) (P ++ Q) → NoDup (P ++ Q) →
  x ∈ P → y ∈ Q → before x y.
Proof.
  intros Hs Hnd Hx Hy.
  pose proof (StronglySorted_app_1_elem_of _ _ _ _ _ Hs Hx Hy) as Hle.
  unfold Qsort.cmp_le in Hle. apply cmpinds_nonpos in Hle as (H1 & H2).
  apply cmpinds_neg. split; [done|]. destruct H2 as [?|H2]; [by left|right].
  assert (x ≠ y); [|lia]. intros ->.
  apply NoDup_app in Hnd as (_ & Hnd & _). by apply (Hnd y).
Qed.

Lemma wf_before axis n c :
  boxes_wf flt_lt boxes n = true → (axis = 0 ∨ axis = 1)%Z → (0 ≤ c < n)%Z →
  before (ev_min axis c) (ev_max axis c).
Proof.
  intros Hwf Hax Hc. unfold boxes_wf in Hwf.
  rewrite forallb_forall in Hwf. specialize (Hwf c).
  rewrite andb_true_iff, !negb_true_iff in Hwf.
  destruct Hwf as [H0 H1]; [apply list_elem_of_In, elem_of_seqZ; lia|].
  apply cmpinds_neg. split; [by destruct Hax as [-> | ->]|].
  right. unfold ev_min, ev_max. lia.
Qed.

(** Crossing intervals, in terms of the coordinates. *)
Lemma crossing_overlap axis a b :
  (a < b)%Z →
  crossing flt_lt boxes axis a b ↔ sweep_overlap flt_lt boxes axis a b = true.
Proof.
  intros Hab. unfold crossing, ev_before, sweep_overlap.
  rewrite !cmpinds_neg, andb_true_iff, negb_true_iff.
  unfold ev_min, ev_max. split.
  - intros ((H1 & _) & (H2 & [H3|H3])); [done|lia].
  - intros (H1 & H2). split_and!; [done|right; lia|by apply flt_asym|by left].
Qed.

End EventOrder.

(** ** The sweep over the sorted events of well-formed boxes *)

Section StrongSweep.
Context {F : Type} (flt_lt : F → F → bool) `{!FltOrder flt_lt}.
Variable boxes : Z → F.
Variable n : Z.
Variable axis : Z.
Hypothesis axis01 : (axis = 0 ∨ axis = 1)%Z.
Hypothesis Hwf : boxes_wf flt_lt boxes n = true.

Local Abbreviation srt := {| Sprune.sorter_aabbs := boxes |}.
Local Abbreviation cmpinds := (Sprune.par__cmpinds flt_lt).
Local Abbreviation before := (ev_before flt_lt boxes).
Local Abbreviation inv := (sweep_inv flt_lt boxes axis).

Lemma elem_of_app_singleton (P : list Z) e x : x ∈ P ++ [e] ↔ x ∈ P ∨ x = e.
Proof. by rewrite elem_of_app, list_elem_of_singleton. Qed.

Lemma sweep_inv_min P Q act ps c :
  P ++ ev_min axis c :: Q ≡ₚ events axis n →
  StronglySorted (Qsort.cmp_le cmpinds srt) (P ++ ev_min axis c :: Q) →
  inv P act ps →
  inv (P ++ [ev_min axis c]) (act ++ [c])
      (ps ++ ((λ aj, (PAR_MIN aj c, PAR_MAX aj c)) <$> act)).
Proof.
  intros Hperm Hsorted (Hact & HactP & Hps).
  assert (NoDup (P ++ ev_min axis c :: Q)) as Hnd
    by (rewrite Hperm; apply NoDup_events).
  assert (∀ x, x ∈ events axis n ↔ x ∈ P ∨ x = ev_min axis c ∨ x ∈ Q) as HE.
  { intros x. by rewrite <-Hperm, elem_of_app, elem_of_cons. }
  assert (ev_min axis c ∉ P) as HeP.
  { apply NoDup_app in Hnd as (_ & Hnd & _). intros HP.
    apply (Hnd _ HP). left. }
  assert ((0 ≤ c < n)%Z) as Hc by (apply (ev_min_events axis), HE; auto).
  assert (∀ x y, x ∈ P → y ∈ ev_min axis c :: Q → before x y) as HPQ.
  { intros x y Hx Hy. by apply (sorted_before _ _ P (ev_min axis c :: Q)). }
  assert (∀ y, y ∈ Q → before (ev_min axis c) y) as HeQ.
  { intros y Hy. apply (sorted_before _ _ (P ++ [ev_min axis c]) Q).
    - by rewrite <-(assoc_L (++)).
    - by rewrite <-(assoc_L (++)).
    - apply elem_of_app_singleton. by right.
    - done. }
  assert (∀ d, (0 ≤ d < n)%Z → ev_max axis d ∉ P → ev_max axis d ∈ Q) as HmaxQ.
  { intros d Hd HdP. apply (ev_max_events axis) in Hd.
    apply HE in Hd as [?|[Hd|?]]; [done| |done].
    by apply symmetry, ev_min_max in Hd. }
  assert (ev_max axis c ∉ P) as HmaxcP.
  { intros HP.
    apply (before_asym flt_lt boxes (ev_min axis c) (ev_max axis c));
      [by apply (wf_before _ _ axis n)|].
    apply HPQ; [done|left]. }
  assert (c ∉ act) as Hcact by (intros Hin; by apply HeP, HactP).
  split_and!.
  - apply NoDup_app. split_and!; [done| |apply NoDup_singleton].
    by intros x Hx ->%list_elem_of_singleton.
  - intros d. rewrite !elem_of_app_singleton, HactP. split.
    + intros [[Hd1 Hd2]| ->].
      * split; [by left|]. intros [?|Hd]; [done|].
        by apply symmetry, ev_min_max in Hd.
      * split; [by right|]. intros [?|Hd]; [done|].
        by apply symmetry, ev_min_max in Hd.
    + intros [[Hd| ->%ev_min_inj] Hd2]; [left|by right].
      split; [done|]. intros HdP. apply Hd2. by left.
  - intros a b. rewrite elem_of_app, list_elem_of_fmap, Hps.
    rewrite !elem_of_app_singleton. split.
    + intros [(Hab & Ha & Hb & Hcr)|(aj & Heq & Haj)]; [by auto|].
      destruct (PAR_MIN_MAX_lt aj c) as (Hlt & Hcases); [by intros ->|].
      apply HactP in Haj as [Haj1 Haj2].
      assert ((0 ≤ aj < n)%Z) as Hajn by (apply (ev_min_events axis), HE; auto).
      assert (crossing flt_lt boxes axis aj c) as [Hcr1 Hcr2].
      { split.
        - apply HPQ; [done|]. right. by apply HmaxQ.
        - apply HeQ. by apply HmaxQ. }
      simplify_eq. split; [done|].
      destruct Hcases as [[-> ->]|[-> ->]]; split_and!; auto; by split.
    + intros (Hab & [Ha|Ha] & [Hb|Hb] & Hcr1 & Hcr2).
      * left. by split_and!.
      * apply ev_min_inj in Hb as ->. right. exists a. split.
        -- unfold PAR_MIN, PAR_MAX.
           destruct (Z.ltb_spec c a); [lia|done].
        -- apply HactP. split; [done|]. intros HaP.
           apply (before_asym flt_lt boxes _ _ Hcr2). apply HPQ; [done|left].
      * apply ev_min_inj in Ha as ->. right. exists b. split.
        -- unfold PAR_MIN, PAR_MAX.
           destruct (Z.ltb_spec c b); [done|lia].
        -- apply HactP. split; [done|]. intros HbP.
           apply (before_asym flt_lt boxes _ _ Hcr1). apply HPQ; [done|left].
      * apply ev_min_inj in Ha, Hb. lia.
Qed.

Lemma sweep_inv_max P Q act ps c :
  P ++ ev_max axis c :: Q ≡ₚ events axis n →
  StronglySorted (Qsort.cmp_le cmpinds srt) (P ++ ev_max axis c :: Q) →
  inv P act ps →
  ∃ l1 l2, act = l1 ++ c :: l2 ∧ (c ∉ l2)
    ∧ inv (P ++ [ev_max axis c]) (l1 ++ l2) ps.
Proof.
  intros Hperm Hsorted (Hact & HactP & Hps).
  assert (NoDup (P ++ ev_max axis c :: Q)) as Hnd
    by (rewrite Hperm; apply NoDup_events).
  assert (∀ x, x ∈ events axis n ↔ x ∈ P ∨ x = ev_max axis c ∨ x ∈ Q) as HE.
  { intros x. by rewrite <-Hperm, elem_of_app, elem_of_cons. }
  assert (ev_max axis c ∉ P) as HeP.
  { apply NoDup_app in Hnd as (_ & Hnd & _). intros HP.
    apply (Hnd _ HP). left. }
  assert ((0 ≤ c < n)%Z) as Hc by (apply (ev_max_events axis), HE; auto).
  assert (ev_min axis c ∈ P) as HminP.
  { pose proof (proj2 (ev_min_events axis n c) Hc) as Hin.
    apply HE in Hin as [?|[Hin|Hin]]; [done|by apply ev_min_max in Hin|].
    exfalso.
    apply (before_asym flt_lt boxes (ev_min axis c) (ev_max axis c));
      [by apply (wf_before _ _ axis n)|].
    apply (sorted_before _ _ (P ++ [ev_max axis c]) Q).
    - by rewrite <-(assoc_L (++)).
    - by rewrite <-(assoc_L (++)).
    - apply elem_of_app_singleton. by right.
    - done. }
  assert (c ∈ act) as Hin by (by apply HactP).
  apply list_elem_of_split_r in Hin as (l1 & l2 & -> & Hc2).
  exists l1, l2. split_and!; [done|done|].
  apply NoDup_app in Hact as (H1 & H12 & [Hc2' H2]%NoDup_cons).
  assert (∀ d, d ∈ l1 ++ l2 ↔ d ∈ l1 ++ c :: l2 ∧ d ≠ c) as Hrem.
  { intros d. rewrite !elem_of_app, elem_of_cons. split.
    - intros [Hd|Hd]; (split; [auto|intros ->]); [|done].
      apply (H12 c Hd). left.
    - intros [[?|[?|?]] ?]; auto; done. }
  split_and!.
  - apply NoDup_app. split_and!; [done| |done].
    intros x Hx Hx2. apply (H12 x Hx). by right.
  - intros d. rewrite Hrem, HactP, !elem_of_app_singleton. split.
    + intros [[Hd1 Hd2] Hdc]. split; [by left|].
      intros [?|Hd%ev_max_inj]; done.
    + intros [[Hd|Hd] Hd2]; [|by apply ev_min_max in Hd].
      split_and!; [done|by auto|]. intros ->. apply Hd2. by right.
  - intros a b. rewrite Hps, !elem_of_app_singleton. split.
    + intros (? & ? & ? & ?). by auto.
    + intros (? & [?|Ha] & [?|Hb] & ?); [done|..];
        by (apply ev_min_max in Ha) || by (apply ev_min_max in Hb).
Qed.

Lemma sweep_loop_strong Q : ∀ P R act ps,
  P ++ Q ++ R ≡ₚ events axis n →
  StronglySorted (Qsort.cmp_le cmpinds srt) (P ++ Q ++ R) →
  inv P act ps →
  ∃ act' ps',
    Sprune.sweep_loop axis (P ++ Q ++ R) act (untuples ps) (length P) (length Q)
    = Ok (act', untuples ps')
    ∧ inv (P ++ Q) act' ps'.
Proof.
  induction Q as [|e Q IH]; intros P R act ps Hperm Hsorted Hinv.
  { exists act, ps. by rewrite app_nil_r. }
  simpl. rewrite load_middle, bind_Ok.
  assert (e ∈ events axis n) as He.
  { rewrite <-Hperm. apply elem_of_app. right. left. }
  apply elem_of_events in He as (c & Hc & He).
  replace (S (length P)) with (length (P ++ [e]))
    by (rewrite length_app; simpl; lia).
  replace (P ++ e :: Q ++ R) with ((P ++ [e]) ++ Q ++ R)
    by (by rewrite <-(assoc_L (++))).
  replace (P ++ e :: Q) with ((P ++ [e]) ++ Q) by (by rewrite <-(assoc_L (++))).
  destruct He as [-> | ->].
  - rewrite sweep_event_min, bind_Ok by (done || lia).
    apply IH; [by rewrite <-(assoc_L (++))..|].
    by apply (sweep_inv_min P (Q ++ R)).
  - rewrite sweep_event_max by (done || lia).
    destruct (sweep_inv_max P (Q ++ R) act ps c) as (l1 & l2 & -> & Hc2 & Hinv');
      [done..|].
    rewrite remove_last_occurrence, !bind_Ok by done.
    apply IH; [by rewrite <-(assoc_L (++))..|done].
Qed.

End StrongSweep.

(** ** The arrays of a context after the fill loop *)

Lemma store_middle {T} (l1 l2 : list T) x v k :
  k = length l1 → store (l1 ++ x :: l2) k v = Ok (l1 ++ v :: l2).
Proof.
  intros ->. rewrite store_lt by (rewrite length_app; simpl; lia).
  f_equal. replace (length l1) with (length l1 + 0) at 1 by lia.
  by rewrite insert_app_r.
Qed.

Lemma store_next {T} (l1 l2 : list T) x y v k :
  k = S (length l1) → store (l1 ++ x :: y :: l2) k v = Ok (l1 ++ x :: v :: l2).
Proof.
  intros ->. pose proof (store_middle (l1 ++ [x]) l2 y v (S (length l1))) as H.
  rewrite length_app, Nat.add_1_r, <-!(assoc_L (++)) in H. by apply H.
Qed.

Lemma int32_Ok z : (- 2 ^ 31 ≤ z < 2 ^ 31)%Z → int32 z = Ok z.
Proof.
  intros Hz. unfold int32.
  destruct (Z.leb_spec (- 2 ^ 31) z), (Z.ltb_spec z (2 ^ 31)); simpl; [done|lia..].
Qed.

Lemma int32_inv z z' : int32 z = Ok z' → z' = z ∧ (- 2 ^ 31 ≤ z < 2 ^ 31)%Z.
Proof.
  unfold int32.
  destruct (Z.leb_spec (- 2 ^ 31) z), (Z.ltb_spec z (2 ^ 31)); simpl;
    intros; simplify_eq. split; [done|lia].
Qed.

Lemma store_ge {T} (base : list T) i v :
  length base ≤ i → store base i v = Err OutOfBounds.
Proof. unfold store. intros. rewrite decide_False; [done|lia]. Qed.

(** The fill loop with flag blocks that hold every flag it writes. *)
Lemma fill_loop_cells todo : ∀ (i : nat) (d0 d1 j0 j1 : list Z)
    (fd0 fd1 k0 k1 r0 r1 : list bool),
  length d0 = 2 * i → length d1 = 2 * i →
  length j0 = 2 * todo → length j1 = 2 * todo →
  length fd0 = i → length fd1 = i →
  length k0 = todo → length k1 = todo →
  Sprune.fill_loop (d0 ++ j0) (d1 ++ j1) (fd0 ++ k0 ++ r0) (fd1 ++ k1 ++ r1)
    (Z.of_nat i) todo
  = Ok (d0 ++ (seqZ (Z.of_nat i) (Z.of_nat todo)
                 ≫= (λ c, [ev_min 0 c; ev_max 0 c])),
        d1 ++ (seqZ (Z.of_nat i) (Z.of_nat todo)
                 ≫= (λ c, [ev_min 1 c; ev_max 1 c])),
        fd0 ++ replicate todo false ++ r0,
        fd1 ++ replicate todo false ++ r1).
Proof.
  induction todo as [|todo IH];
    intros i d0 d1 j0 j1 fd0 fd1 k0 k1 r0 r1 Hd0 Hd1 Hj0 Hj1 Hfd0 Hfd1 Hk0 Hk1.
  { apply nil_length_inv in Hj0 as ->. apply nil_length_inv in Hj1 as ->.
    apply nil_length_inv in Hk0 as ->. apply nil_length_inv in Hk1 as ->.
    simpl. by rewrite !app_nil_r. }
  destruct j0 as [|a0 [|b0 j0]]; [simpl in Hj0; lia..|].
  destruct j1 as [|a1 [|b1 j1]]; [simpl in Hj1; lia..|].
  destruct k0 as [|x0 k0]; [simpl in Hk0; lia|].
  destruct k1 as [|x1 k1]; [simpl in Hk1; lia|].
  cbn [Sprune.fill_loop]. rewrite <-!app_comm_cons.
  repeat first [rewrite store_middle by lia | rewrite store_next by lia
               | rewrite bind_Ok].
  replace (Z.of_nat i + 1)%Z with (Z.of_nat (S i)) by lia.
  pose proof (IH (S i)
              ((d0 ++ [(Z.of_nat i * 4 + 0)%Z]) ++ [(Z.of_nat i * 4 + 2)%Z])
              ((d1 ++ [(Z.of_nat i * 4 + 1)%Z]) ++ [(Z.of_nat i * 4 + 3)%Z])
              j0 j1 (fd0 ++ [false]) (fd1 ++ [false]) k0 k1 r0 r1) as Hrun.
  rewrite <-!(assoc_L (++)) in Hrun. simpl in Hrun. rewrite Hrun;
    rewrite ?length_app; simpl in *; try lia.
  rewrite (seqZ_cons (Z.of_nat i) (Z.of_nat (S todo))) by lia.
  replace (Z.pred (Z.of_nat (S todo))) with (Z.of_nat todo) by lia.
  replace (Z.succ (Z.of_nat i)) with (Z.of_nat (S i)) by lia.
  unfold ev_min, ev_max. simpl.
  replace (Z.of_nat i * 4 + 2 + 0)%Z with (Z.of_nat i * 4 + 2)%Z by lia.
  by replace (Z.of_nat i * 4 + 2 + 1)%Z with (Z.of_nat i * 4 + 3)%Z by lia.
Qed.

(** The fill loop with a flag block too short for the flags it writes. *)
Lemma fill_loop_short todo : ∀ (i : nat) (d0 d1 j0 j1 : list Z)
    (b0 b1 : list bool),
  length d0 = 2 * i → length d1 = 2 * i →
  length j0 = 2 * todo → length j1 = 2 * todo →
  i ≤ length b0 → i ≤ length b1 →
  length b0 < i + todo ∨ length b1 < i + todo →
  Sprune.fill_loop (d0 ++ j0) (d1 ++ j1) b0 b1 (Z.of_nat i) todo
  = Err OutOfBounds.
Proof.
  induction todo as [|todo IH];
    intros i d0 d1 j0 j1 b0 b1 Hd0 Hd1 Hj0 Hj1 Hb0 Hb1 Hshort; [lia|].
  destruct j0 as [|a0 [|c0 j0]]; [simpl in Hj0; lia..|].
  destruct j1 as [|a1 [|c1 j1]]; [simpl in Hj1; lia..|].
  cbn [Sprune.fill_loop].
  repeat first [rewrite store_middle by lia | rewrite store_next by lia
               | rewrite bind_Ok].
  rewrite Nat2Z.id.
  destruct (decide (i < length b0)) as [Hi0|];
    [|by rewrite (store_ge b0) by lia].
  rewrite (store_lt b0), bind_Ok by done.
  destruct (decide (i < length b1)) as [Hi1|];
    [|by rewrite (store_ge b1) by lia].
  rewrite (store_lt b1), bind_Ok by done.
  replace (Z.of_nat i + 1)%Z with (Z.of_nat (S i)) by lia.
  pose proof (IH (S i)
              ((d0 ++ [(Z.of_nat i * 4 + 0)%Z]) ++ [(Z.of_nat i * 4 + 2)%Z])
              ((d1 ++ [(Z.of_nat i * 4 + 1)%Z]) ++ [(Z.of_nat i * 4 + 3)%Z])
              j0 j1 (<[i := false]> b0) (<[i := false]> b1)) as Hrun.
  rewrite <-!(assoc_L (++)) in Hrun. simpl in Hrun. apply Hrun;
    rewrite ?length_app, ?length_insert; simpl in *; lia.
Qed.

(** The fill loop from its start: it returns exactly when both flag blocks
    hold the flags of the boxes. *)
Lemma fill_loop_outcome todo (j0 j1 : list Z) (b0 b1 : list bool) :
  length j0 = 2 * todo → length j1 = 2 * todo →
  Sprune.fill_loop j0 j1 b0 b1 0 todo
  = if decide (todo ≤ length b0 ∧ todo ≤ length b1)
    then Ok (seqZ 0 (Z.of_nat todo) ≫= (λ c, [ev_min 0 c; ev_max 0 c]),
             seqZ 0 (Z.of_nat todo) ≫= (λ c, [ev_min 1 c; ev_max 1 c]),
             replicate todo false ++ drop todo b0,
             replicate todo false ++ drop todo b1)
    else Err OutOfBounds.
Proof.
  intros Hj0 Hj1. destruct (decide _) as [[H0 H1]|Hshort].
  - pose proof (fill_loop_cells todo 0 [] [] j0 j1 [] []
                  (take todo b0) (take todo b1) (drop todo b0) (drop todo b1))
      as Hrun.
    simpl in Hrun. rewrite !take_drop in Hrun.
    apply Hrun; rewrite ?length_take; lia.
  - apply (fill_loop_short todo 0 [] [] j0 j1 b0 b1); simpl; lia.
Qed.

Lemma events_to_nat axis n :
  seqZ 0 (Z.of_nat (Z.to_nat n)) ≫= (λ c, [ev_min axis c; ev_max axis c])
  = events axis n.
Proof.
  unfold events. destruct (Z.le_gt_cases 0 n).
  - by rewrite Z2Nat.id by done.
  - replace (Z.to_nat n) with 0 by lia. simpl. by rewrite seqZ_nil by lia.
Qed.

(** ** The flag arrays *)

Lemma length_realloc_block old bytes fresh :
  length (realloc_block old bytes fresh)
  = Nat.min (Z.to_nat bytes) (length old + (Z.to_nat bytes - length old)).
Proof.
  unfold realloc_block.
  by rewrite length_take, length_app, length_fmap, length_seq.
Qed.

(** What [pa_add] does to a flag array does not depend on what the new
    bytes hold, apart from their contents. *)
Lemma flags_add_fresh a c fresh fresh' :
  match flags_add a c fresh, flags_add a c fresh' with
  | Ok f, Ok f' =>
      flag_header f = flag_header f'
      ∧ length (flag_block f) = length (flag_block f')
  | Err e, Err e' => e = e'
  | _, _ => False
  end.
Proof.
  unfold flags_add.
  destruct (Stretchy.pa_add true (flag_header a) c 1) as [h|e] eqn:Hadd.
  - destruct (Stretchy.pa___needgrow (flag_header a) c).
    + destruct (Stretchy.growf_payload (flag_header a) c 1) as [payload|e];
        simpl; [|done].
      by rewrite !length_realloc_block.
    + done.
  - destruct (Stretchy.pa___needgrow (flag_header a) c).
    + by destruct (Stretchy.growf_payload (flag_header a) c 1) as [payload|e'].
    + done.
Qed.

(** [pa_add] on a null flag array. *)
Lemma flags_add_null c fresh :
  (0 ≤ c < 2 ^ 31)%Z →
  flags_add (flags_clear flags_null) c fresh
  = Ok {| flag_header := Some {| Stretchy.pa___m := c; Stretchy.pa___n := c |};
          flag_block := fresh <$> seq 0 (Z.to_nat (4 * (c / 4))) |}.
Proof.
  intros Hc. unfold flags_add, flags_clear, flags_null,
    Stretchy.growf_payload, Stretchy.growf_bytes, Stretchy.growf_capacity,
    Stretchy.pa_add, Stretchy.pa___maybegrow, Stretchy.pa___growf,
    Stretchy.growf_capacity. simpl.
  rewrite !Z.add_0_l. destruct (Z.ltb_spec c 0); [lia|].
  rewrite Z.mul_1_l, int32_Ok by lia. rewrite !bind_Ok.
  rewrite (Z.mod_small c) by lia.
  pose proof (Z.div_mod c 4 ltac:(lia)) as Hdiv.
  pose proof (Z.mod_pos_bound c 4 ltac:(lia)) as Hmod.
  rewrite (Z.mod_small (4 * (c / 4 + 2))) by lia.
  replace (4 * (c / 4 + 2) - 2 * 4)%Z with (4 * (c / 4))%Z by lia.
  unfold realloc_block. simpl. rewrite Nat.sub_0_r.
  rewrite firstn_all2 by (by rewrite length_fmap, length_seq). done.
Qed.

Lemma flags_add_null_negative c fresh :
  (- 2 ^ 31 ≤ c < 0)%Z →
  flags_add (flags_clear flags_null) c fresh
  = Ok {| flag_header := Some {| Stretchy.pa___m := 0; Stretchy.pa___n := c |};
          flag_block := [] |}.
Proof.
  intros Hc. unfold flags_add, flags_clear, flags_null,
    Stretchy.growf_payload, Stretchy.growf_bytes, Stretchy.growf_capacity,
    Stretchy.pa_add, Stretchy.pa___maybegrow, Stretchy.pa___growf,
    Stretchy.growf_capacity. simpl.
  rewrite !Z.add_0_l. destruct (Z.ltb_spec c 0); [|lia]. done.
Qed.

(** ** The index arrays *)

(** What [pa_add] does to an index array does not depend on what the new
    cells hold, apart from their contents. *)
Lemma indices_add_fresh a c fresh fresh' :
  match indices_add a c fresh, indices_add a c fresh' with
  | Ok s, Ok s' =>
      index_header s = index_header s'
      ∧ length (index_cells s) = length (index_cells a) + Z.to_nat c
      ∧ length (index_cells s') = length (index_cells a) + Z.to_nat c
  | Err e, Err e' => e = e'
  | _, _ => False
  end.
Proof.
  unfold indices_add.
  destruct (if Stretchy.pa___needgrow (index_header a) c
            then Stretchy.growf_bytes (index_header a) c 4
            else Ok 0%Z) as [bytes|e]; [|done].
  rewrite !bind_Ok.
  destruct (Stretchy.pa_add true (index_header a) c 4) as [h|e]; [|done].
  simpl. unfold pa_add. by rewrite !length_app, !length_fmap, !length_seq.
Qed.

(** [pa_add] on a null index array. *)
Lemma indices_add_null c fresh :
  (0 ≤ c < 2 ^ 29)%Z →
  indices_add (indices_clear indices_null) c fresh
  = Ok {| index_header := Some {| Stretchy.pa___m := c; Stretchy.pa___n := c |};
          index_cells := fresh <$> seq 0 (Z.to_nat c) |}.
Proof.
  intros Hc. unfold indices_add, indices_clear, indices_null,
    Stretchy.growf_bytes, Stretchy.growf_capacity,
    Stretchy.pa_add, Stretchy.pa___maybegrow, Stretchy.pa___growf,
    Stretchy.growf_capacity. simpl.
  rewrite !Z.add_0_l. destruct (Z.ltb_spec c 0); [lia|].
  by rewrite int32_Ok by lia.
Qed.

Lemma indices_add_null_negative c fresh :
  (- 2 ^ 31 ≤ c < 0)%Z →
  indices_add (indices_clear indices_null) c fresh
  = Ok {| index_header := Some {| Stretchy.pa___m := 0; Stretchy.pa___n := c |};
          index_cells := [] |}.
Proof.
  intros Hc. unfold indices_add, indices_clear, indices_null,
    Stretchy.growf_bytes, Stretchy.growf_capacity,
    Stretchy.pa_add, Stretchy.pa___maybegrow, Stretchy.pa___growf,
    Stretchy.growf_capacity, pa_add. simpl.
  rewrite !Z.add_0_l. destruct (Z.ltb_spec c 0); [|lia].
  replace (Z.to_nat c) with 0 by lia. done.
Qed.

Lemma indices_add_faults a c (cells : nat → Z) e :
  indices_add a c cells = Err e → e = OutOfBounds ∨ e = IntOverflow.
Proof.
  unfold indices_add, Stretchy.growf_bytes, Stretchy.pa_add.
  destruct (Stretchy.pa___needgrow _ _); cbv zeta.
  - unfold int32. destruct (_ && _); simpl.
    + destruct (Stretchy.pa___maybegrow _ _ _ _); simpl; intros; simplify_eq.
      by left.
    + intros; simplify_eq. by right.
  - simpl. destruct (Stretchy.pa___maybegrow _ _ _ _); simpl; intros;
      simplify_eq. by left.
Qed.

(** ** The first half of a call *)

(** The outcome of the first half of a call, for two choices of what the
    memory handed out held: the same fault, or in both cases the same index
    arrays, with the events of the two axes in their cells. *)
Lemma init_arrays_fresh {F} fresh fresh' n (ctx : @Sprune.par_sprune__context F) :
  match Sprune.init_arrays fresh n ctx, Sprune.init_arrays fresh' n ctx with
  | Ok (s0, s1, f0, f1), Ok (s0', s1', f0', f1') =>
      index_cells s0 = events 0 n ∧ index_cells s1 = events 1 n
      ∧ s0' = s0 ∧ s1' = s1
      ∧ flag_header f0 = flag_header f0' ∧ flag_header f1 = flag_header f1'
  | Err e, Err e' => e = e'
  | _, _ => False
  end.
Proof.
  unfold Sprune.init_arrays.
  destruct (int32 (n * 2)) as [c|e] eqn:Hc; [|done].
  apply int32_inv in Hc as [-> _]. rewrite !bind_Ok.
  pose proof (indices_add_fresh (indices_clear (Sprune.sorted_indices ctx).1)
                (n * 2) (Sprune.fresh_indices0 fresh)
                (Sprune.fresh_indices0 fresh')) as G0.
  destruct (indices_add _ _ (Sprune.fresh_indices0 fresh)) as [s0|e0],
    (indices_add _ _ (Sprune.fresh_indices0 fresh')) as [s0'|e0']; try done.
  destruct G0 as (Hg0 & Hc0 & Hc0'). rewrite !bind_Ok.
  pose proof (flags_add_fresh (flags_clear (Sprune.overlap_flags ctx).1) (n * 2)
                (Sprune.fresh_flags0 fresh) (Sprune.fresh_flags0 fresh')) as H0.
  destruct (flags_add _ _ (Sprune.fresh_flags0 fresh)) as [f0|e0],
    (flags_add _ _ (Sprune.fresh_flags0 fresh')) as [f0'|e0']; try done.
  destruct H0 as [Hh0 Hl0]. rewrite !bind_Ok.
  pose proof (indices_add_fresh (indices_clear (Sprune.sorted_indices ctx).2)
                (n * 2) (Sprune.fresh_indices1 fresh)
                (Sprune.fresh_indices1 fresh')) as G1.
  destruct (indices_add _ _ (Sprune.fresh_indices1 fresh)) as [s1|e1],
    (indices_add _ _ (Sprune.fresh_indices1 fresh')) as [s1'|e1']; try done.
  destruct G1 as (Hg1 & Hc1 & Hc1'). rewrite !bind_Ok.
  pose proof (flags_add_fresh (flags_clear (Sprune.overlap_flags ctx).2) (n * 2)
                (Sprune.fresh_flags1 fresh) (Sprune.fresh_flags1 fresh')) as H1.
  destruct (flags_add _ _ (Sprune.fresh_flags1 fresh)) as [f1|e1],
    (flags_add _ _ (Sprune.fresh_flags1 fresh')) as [f1'|e1']; try done.
  destruct H1 as [Hh1 Hl1]. rewrite !bind_Ok.
  simpl in Hc0, Hc0', Hc1, Hc1'.
  rewrite !fill_loop_outcome by lia.
  rewrite <-Hl0, <-Hl1.
  destruct (decide _); [|done]. rewrite !bind_Ok, !events_to_nat. simpl.
  by rewrite Hg0, Hg1.
Qed.

(** When the first half of a call returns, the index arrays hold the
    events of the two axes, whatever they held before. *)
Lemma init_arrays_Ok {F} fresh n (ctx : @Sprune.par_sprune__context F) s0 s1 f0 f1 :
  Sprune.init_arrays fresh n ctx = Ok (s0, s1, f0, f1) →
  index_cells s0 = events 0 n ∧ index_cells s1 = events 1 n.
Proof.
  intros Hrun. pose proof (init_arrays_fresh fresh fresh n ctx) as H.
  rewrite Hrun in H. tauto.
Qed.

(** The faults of the first half of a call: a write outside a flag block
    or an [int] product outside [int32_t]. *)
Lemma flags_add_faults a c (cells : nat → bool) e :
  flags_add a c cells = Err e → e = OutOfBounds ∨ e = IntOverflow.
Proof.
  unfold flags_add, Stretchy.growf_payload, Stretchy.growf_bytes,
    Stretchy.pa_add.
  destruct (Stretchy.pa___needgrow _ _); cbv zeta.
  - unfold int32. destruct (_ && _); simpl.
    + destruct (Stretchy.pa___maybegrow _ _ _ _); simpl; intros; simplify_eq.
      by left.
    + intros; simplify_eq. by right.
  - simpl. destruct (Stretchy.pa___maybegrow _ _ _ _); simpl; intros;
      simplify_eq. by left.
Qed.

Lemma init_arrays_faults {F} fresh n (ctx : @Sprune.par_sprune__context F) e :
  Sprune.init_arrays fresh n ctx = Err e → e = OutOfBounds ∨ e = IntOverflow.
Proof.
  unfold Sprune.init_arrays.
  destruct (int32 (n * 2)) as [c|e'] eqn:Hc.
  2:{ unfold int32 in Hc. destruct (_ && _); simplify_eq.
      simpl. intros; simplify_eq. by right. }
  apply int32_inv in Hc as [-> _]. rewrite !bind_Ok.
  pose proof (indices_add_fresh (indices_clear (Sprune.sorted_indices ctx).1)
                (n * 2) (Sprune.fresh_indices0 fresh)
                (Sprune.fresh_indices0 fresh)) as G0.
  destruct (indices_add _ _ (Sprune.fresh_indices0 fresh)) as [s0|e0] eqn:I0.
  2:{ simpl. intros ?. simplify_eq. by eapply indices_add_faults. }
  rewrite bind_Ok.
  destruct (flags_add _ _ (Sprune.fresh_flags0 fresh)) as [f0|e0] eqn:H0.
  2:{ simpl. intros ?. simplify_eq. by eapply flags_add_faults. }
  rewrite bind_Ok.
  pose proof (indices_add_fresh (indices_clear (Sprune.sorted_indices ctx).2)
                (n * 2) (Sprune.fresh_indices1 fresh)
                (Sprune.fresh_indices1 fresh)) as G1.
  destruct (indices_add _ _ (Sprune.fresh_indices1 fresh)) as [s1|e1] eqn:I1.
  2:{ simpl. intros ?. simplify_eq. by eapply indices_add_faults. }
  rewrite bind_Ok.
  destruct (flags_add _ _ (Sprune.fresh_flags1 fresh)) as [f1|e1] eqn:H1.
  2:{ simpl. intros ?. simplify_eq. by eapply flags_add_faults. }
  simpl in G0, G1.
  rewrite bind_Ok, fill_loop_outcome by lia.
  destruct (decide _); simpl; intros; simplify_eq. by left.
Qed.

(** The first half of a call without a previous context: the flag blocks
    [pa___growf] asks for hold the [n] flags the fill loop writes unless
    [n = 1]. *)
Lemma init_arrays_calloc {F} fresh n :
  (0 ≤ n < 2 ^ 28)%Z →
  Sprune.init_arrays (F:=F) fresh n Sprune.calloc_context
  = if decide (n = 1%Z)
    then Err OutOfBounds
    else Ok ({| index_header :=
                  Some {| Stretchy.pa___m := n * 2; Stretchy.pa___n := n * 2 |};
                index_cells := events 0 n |},
             {| index_header :=
                  Some {| Stretchy.pa___m := n * 2; Stretchy.pa___n := n * 2 |};
                index_cells := events 1 n |},
             {| flag_header :=
                  Some {| Stretchy.pa___m := n * 2; Stretchy.pa___n := n * 2 |};
                flag_block :=
                  replicate (Z.to_nat n) false
                  ++ drop (Z.to_nat n)
                       (Sprune.fresh_flags0 fresh
                          <$> seq 0 (Z.to_nat (4 * (n * 2 / 4)))) |},
             {| flag_header :=
                  Some {| Stretchy.pa___m := n * 2; Stretchy.pa___n := n * 2 |};
                flag_block :=
                  replicate (Z.to_nat n) false
                  ++ drop (Z.to_nat n)
                       (Sprune.fresh_flags1 fresh
                          <$> seq 0 (Z.to_nat (4 * (n * 2 / 4)))) |}).
Proof.
  intros Hn. unfold Sprune.init_arrays.
  rewrite int32_Ok, bind_Ok by lia.
  change (Sprune.overlap_flags Sprune.calloc_context).1 with flags_null.
  change (Sprune.overlap_flags Sprune.calloc_context).2 with flags_null.
  change (Sprune.sorted_indices Sprune.calloc_context).1 with indices_null.
  change (Sprune.sorted_indices Sprune.calloc_context).2 with indices_null.
  rewrite !indices_add_null, !flags_add_null, !bind_Ok by lia.
  cbn [index_cells index_header flag_block flag_header].
  rewrite fill_loop_outcome by (rewrite length_fmap, length_seq; lia).
  rewrite !length_fmap, !length_seq.
  pose proof (Z.div_mod (n * 2) 4 ltac:(lia)) as Hdiv.
  pose proof (Z.mod_pos_bound (n * 2) 4 ltac:(lia)) as Hmod.
  destruct (decide (n = 1%Z)) as [->|Hn1].
  - rewrite decide_False; [done|]. vm_compute. lia.
  - rewrite decide_True.
    + by rewrite bind_Ok, !events_to_nat.
    + assert ((n * 2) mod 4 = 0 ∨ (n * 2) mod 4 = 2)%Z as Hcases.
      { pose proof (Z.div_mod n 2 ltac:(lia)).
        pose proof (Z.mod_pos_bound n 2 ltac:(lia)).
        assert (n mod 2 = 0 ∨ n mod 2 = 1)%Z as [Hm|Hm] by lia.
        - left. replace (n * 2)%Z with (0 + (n / 2) * 4)%Z by lia.
          by rewrite Z.mod_add.
        - right. replace (n * 2)%Z with (2 + (n / 2) * 4)%Z by lia.
          by rewrite Z.mod_add. }
      lia.
Qed.

Lemma init_arrays_calloc_negative {F} fresh n :
  (- 2 ^ 30 ≤ n < 0)%Z →
  ∃ s0 s1 f0 f1,
    Sprune.init_arrays (F:=F) fresh n Sprune.calloc_context = Ok (s0, s1, f0, f1).
Proof.
  intros Hn. unfold Sprune.init_arrays.
  rewrite int32_Ok, bind_Ok by lia.
  change (Sprune.overlap_flags Sprune.calloc_context).1 with flags_null.
  change (Sprune.overlap_flags Sprune.calloc_context).2 with flags_null.
  change (Sprune.sorted_indices Sprune.calloc_context).1 with indices_null.
  change (Sprune.sorted_indices Sprune.calloc_context).2 with indices_null.
  rewrite !indices_add_null_negative, !flags_add_null_negative, !bind_Ok by lia.
  replace (Z.to_nat n) with 0 by lia. simpl.
  by eexists _, _, _, _.
Qed.

(** ** The candidate pairs sorted, searched and intersected *)

Lemma cmppairs_nonpos p q :
  (par__cmppairs p q () ≤ 0)%Z ↔ (p.1 < q.1 ∨ (p.1 = q.1 ∧ p.2 ≤ q.2))%Z.
Proof.
  unfold par__cmppairs.
  destruct (Z.ltb_spec q.1 p.1), (Z.ltb_spec p.1 q.1),
    (Z.ltb_spec q.2 p.2), (Z.ltb_spec p.2 q.2); lia.
Qed.

Lemma cmppairs_pos p q :
  (0 < par__cmppairs p q ())%Z ↔ (q.1 < p.1 ∨ (p.1 = q.1 ∧ q.2 < p.2))%Z.
Proof.
  unfold par__cmppairs.
  destruct (Z.ltb_spec q.1 p.1), (Z.ltb_spec p.1 q.1),
    (Z.ltb_spec q.2 p.2), (Z.ltb_spec p.2 q.2); lia.
Qed.

Lemma cmppairs_ordered : Qsort.cmp_ordered par__cmppairs ().
Proof.
  split.
  - intros p q. rewrite cmppairs_pos, cmppairs_nonpos. lia.
  - intros p q r. rewrite !cmppairs_nonpos. lia.
Qed.

Lemma cmpfind_cases key p :
  ((par__cmpfind key p < 0)%Z ∧ pair_lt key p)
  ∨ ((0 < par__cmpfind key p)%Z ∧ pair_lt p key)
  ∨ (par__cmpfind key p = 0%Z ∧ key = p).
Proof.
  unfold par__cmpfind, pair_lt. destruct key as [k1 k2], p as [p1 p2]. simpl.
  destruct (Z.ltb_spec p1 k1), (Z.ltb_spec k1 p1),
    (Z.ltb_spec p2 k2), (Z.ltb_spec k2 p2);
    try (left; lia); try (right; left; lia).
  right. right. split; [done|]. f_equal; lia.
Qed.

Lemma pair_lt_le_ne key p x :
  pair_lt key p → Qsort.cmp_le par__cmppairs () p x → key ≠ x.
Proof.
  unfold pair_lt, Qsort.cmp_le. rewrite cmppairs_nonpos. intros ? ? ->. lia.
Qed.

Lemma pair_le_lt_ne key p x :
  pair_lt p key → Qsort.cmp_le par__cmppairs () x p → key ≠ x.
Proof.
  unfold pair_lt, Qsort.cmp_le. rewrite cmppairs_nonpos. intros ? ? ->. lia.
Qed.

Lemma sorted_lookup_le {T} (R : relation T) (l : list T) i j x y :
  StronglySorted R l → i < j → l !! i = Some x → l !! j = Some y → R x y.
Proof.
  intros Hs Hij Hi Hj. rewrite <-(take_drop j l) in Hs.
  eapply StronglySorted_app_1_elem_of; [done| |].
  - apply list_elem_of_lookup. exists i. by rewrite lookup_take_lt.
  - apply list_elem_of_lookup. exists 0. by rewrite lookup_drop, Nat.add_0_r.
Qed.

Lemma bsearch_loop_sorted key base fuel : ∀ lo width,
  StronglySorted (Qsort.cmp_le par__cmppairs ()) base →
  width ≤ fuel → lo + width ≤ length base →
  bsearch_loop par__cmpfind key base lo width fuel = true
  ↔ ∃ i, lo ≤ i < lo + width ∧ base !! i = Some key.
Proof.
  intros lo width Hs. revert lo width.
  induction fuel as [|fuel IH]; intros lo width Hfuel Hlen; cbn [bsearch_loop].
  { split; [done|]. intros (i & ? & _). lia. }
  destruct (Nat.eqb_spec width 0) as [->|Hw].
  { split; [done|]. intros (i & ? & _). lia. }
  assert (width / 2 < width) as Hhalf by (apply Nat.div_lt; lia).
  destruct (lookup_lt_is_Some_2 base (lo + width / 2)) as [p Hp]; [lia|].
  rewrite Hp.
  destruct (cmpfind_cases key p) as [[Hc Hlt]|[[Hc Hlt]|[Hc ->]]].
  - replace (par__cmpfind key p <? 0)%Z with true by (symmetry; by apply Z.ltb_lt).
    rewrite IH by lia. split.
    + intros (i & ? & ?). exists i. split; [lia|done].
    + intros (i & Hi & Hkey). exists i. split; [|done].
      destruct (decide (i < lo + width / 2)); [lia|]. exfalso.
      destruct (decide (i = lo + width / 2)) as [->|].
      * simplify_eq. unfold pair_lt in Hlt. lia.
      * eapply (pair_lt_le_ne key p key); [done| |done].
        eapply (sorted_lookup_le _ base (lo + width / 2) i); [done|lia|done..].
  - replace (par__cmpfind key p <? 0)%Z with false by (symmetry; apply Z.ltb_ge; lia).
    replace (0 <? par__cmpfind key p)%Z with true by (symmetry; by apply Z.ltb_lt).
    rewrite IH by lia. split.
    + intros (i & ? & ?). exists i. split; [lia|done].
    + intros (i & Hi & Hkey). exists i. split; [|done].
      destruct (decide (lo + width / 2 < i)); [lia|]. exfalso.
      destruct (decide (i = lo + width / 2)) as [->|].
      * simplify_eq. unfold pair_lt in Hlt. lia.
      * eapply (pair_le_lt_ne key p key); [done| |done].
        eapply (sorted_lookup_le _ base i (lo + width / 2)); [done|lia|done..].
  - rewrite Hc. simpl. split; [|done]. intros _. exists (lo + width / 2).
    split; [lia|done].
Qed.

Lemma bsearch_sorted key base :
  StronglySorted (Qsort.cmp_le par__cmppairs ()) base →
  bsearch key base (length base) par__cmpfind = true ↔ key ∈ base.
Proof.
  intros Hs. unfold bsearch. rewrite bsearch_loop_sorted by (done || lia).
  rewrite list_elem_of_lookup. split.
  - intros (i & _ & ?). by exists i.
  - intros (i & Hi). exists i. split; [|done].
    apply lookup_lt_Some in Hi. lia.
Qed.

Lemma sort_pairs_sorted ps :
  ∃ s, Sprune.sort_pairs (untuples ps) = Ok (untuples s)
     ∧ s ≡ₚ ps
     ∧ StronglySorted (Qsort.cmp_le par__cmppairs ()) s.
Proof.
  unfold Sprune.sort_pairs. rewrite tuples_untuples, pa_count_untuples.
  destruct (par_qsort_prefix par__cmppairs () ps (length ps)) as (s & -> & Hp & Hs);
    [done|].
  rewrite drop_all, app_nil_r, bind_Ok. rewrite firstn_all in Hp.
  exists s. split_and!; [done|done|]. apply Hs, cmppairs_ordered.
Qed.

Lemma intersect_loop_filter keys s1 acc :
  StronglySorted (Qsort.cmp_le par__cmppairs ()) s1 →
  Sprune.intersect_loop keys (untuples s1) (untuples acc)
  = untuples (acc ++ filter (λ k, k ∈ s1) keys).
Proof.
  intros Hs. revert acc. induction keys as [|key keys IH]; intros acc; simpl.
  { by rewrite app_nil_r. }
  rewrite tuples_untuples, pa_count_untuples.
  rewrite filter_cons. destruct (decide (key ∈ s1)) as [Hin|Hnot].
  - apply (bsearch_sorted key s1 Hs) in Hin. rewrite Hin.
    unfold pa_push. rewrite <-(assoc_L (++)). simpl.
    change [key.1; key.2] with (untuples [key]).
    rewrite <-untuples_app, IH, <-(assoc_L (++)). done.
  - destruct (bsearch key s1 (length s1) par__cmpfind) eqn:Hb.
    { by apply (bsearch_sorted key s1 Hs) in Hb. }
    apply IH.
Qed.

(** The intersection: the sorted x pairs that occur among the y pairs. *)
Lemma intersect_filter ps0 ps1 coll :
  ∃ s0 s1,
    Sprune.intersect (untuples ps0) (untuples ps1) coll
    = Ok (untuples (filter (λ k, k ∈ s1) s0))
    ∧ s0 ≡ₚ ps0 ∧ s1 ≡ₚ ps1
    ∧ StronglySorted (Qsort.cmp_le par__cmppairs ()) s0.
Proof.
  destruct (sort_pairs_sorted ps0) as (s0 & Hrun0 & Hp0 & Hs0).
  destruct (sort_pairs_sorted ps1) as (s1 & Hrun1 & Hp1 & Hs1).
  exists s0, s1. unfold Sprune.intersect.
  rewrite Hrun0, bind_Ok, Hrun1, bind_Ok, tuples_untuples.
  split_and!; [|done..]. f_equal.
  apply (intersect_loop_filter s0 s1 [] Hs1).
Qed.

(** ** The sort permutes, whatever the comparator and the count *)

Lemma load_Ok {T} (base : list T) i x : load base i = Ok x → base !! i = Some x.
Proof. unfold load. destruct (base !! i); naive_solver. Qed.

Section QsortPermutes.
Context {T Arg : Type}.
Variable compar : T → T → Arg → Z.
Variable arg : Arg.

Lemma cmpswap_Permutation base a b base' sw :
  Qsort.par_qsort_cmpswap compar arg base a b = Ok (base', sw) → base' ≡ₚ base.
Proof.
  unfold Qsort.par_qsort_cmpswap. intros H.
  bind_inv H. bind_inv H. apply load_Ok in E, E0.
  destruct (0 <? compar v v0 arg)%Z; simplify_eq; [|done].
  by apply exchange_Permutation.
Qed.

Lemma sift_down_Permutation pj : ∀ base base',
  Qsort.sift_down compar arg base pj = Ok base' → base' ≡ₚ base.
Proof.
  induction pj as [|pj IH]; intros base base' H; simpl in H; [by simplify_eq|].
  bind_inv H. destruct v as [base1 sw].
  apply cmpswap_Permutation in E. destruct sw; [|by simplify_eq].
  apply IH in H. by rewrite H.
Qed.

Lemma insertion_loop_Permutation todo : ∀ base pi base',
  Qsort.insertion_loop compar arg base pi todo = Ok base' → base' ≡ₚ base.
Proof.
  induction todo as [|todo IH]; intros base pi base' H; simpl in H;
    [by simplify_eq|].
  bind_inv H. apply sift_down_Permutation in E. apply IH in H. by rewrite H.
Qed.

Lemma partition_loop_Permutation gap : ∀ up base pl base' pl',
  Qsort.partition_loop compar arg up base pl gap = Ok (base', pl') →
  base' ≡ₚ base.
Proof.
  induction gap as [|gap IH]; intros up base pl base' pl' H; simpl in H;
    [by simplify_eq|].
  bind_inv H. destruct v as [base1 sw]. apply cmpswap_Permutation in E.
  destruct up, sw; apply IH in H; by rewrite H.
Qed.

Lemma partition_Permutation base nel base' pl :
  Qsort.partition compar arg base nel = Ok (base', pl) → base' ≡ₚ base.
Proof.
  unfold Qsort.partition. intros H. bind_inv H. bind_inv H.
  apply partition_loop_Permutation in H. rewrite H.
  unfold Qsort.swap_blocks in E0. bind_inv E0. bind_inv E0.
  apply load_Ok in E1, E2. simplify_eq. by apply exchange_Permutation.
Qed.

Lemma par_qsort_rec_Permutation fuel : ∀ base nel base',
  Qsort.par_qsort_rec compar arg fuel base nel = Ok base' → base' ≡ₚ base.
Proof.
  induction fuel as [|fuel IH]; intros base nel base' H; simpl in H.
  { destruct (nel <? 7); by apply insertion_loop_Permutation in H. }
  destruct (nel <? 7); [by apply insertion_loop_Permutation in H|].
  bind_inv H. destruct v as [base1 pl]. apply partition_Permutation in E.
  bind_inv H. apply IH in E0. bind_inv H. apply IH in E1. simplify_eq.
  by rewrite E1, take_drop, E0.
Qed.

Lemma par_qsort_Permutation base nel base' :
  Qsort.par_qsort compar arg base nel = Ok base' → base' ≡ₚ base.
Proof. apply par_qsort_rec_Permutation. Qed.

End QsortPermutes.

(** ** One axis: the events sorted, then swept *)

Lemma length_events axis n : length (events axis n) = Z.to_nat (n * 2).
Proof.
  unfold events.
  assert (∀ l : list Z,
    length (l ≫= (λ c, [ev_min axis c; ev_max axis c])) = 2 * length l) as Hlen.
  { induction l as [|c l IH]; [done|].
    change (length (ev_min axis c :: ev_max axis c
                    :: (l ≫= (λ c, [ev_min axis c; ev_max axis c])))
            = 2 * length (c :: l)).
    simpl. rewrite IH. lia. }
  rewrite Hlen, length_seqZ. lia.
Qed.

Lemma StronglySorted_filter {T} (R : relation T) (P : T → Prop)
    `{∀ x, Decision (P x)} l :
  StronglySorted R l → StronglySorted R (filter P l).
Proof.
  induction 1 as [|x l Hs IH Hall]; [constructor|].
  rewrite filter_cons. destruct (decide (P x)); [|done].
  constructor; [done|]. apply Forall_forall. intros y [_ Hy]%list_elem_of_filter.
  by eapply Forall_forall in Hall.
Qed.

Lemma sorted_pairs_strict s :
  StronglySorted (Qsort.cmp_le par__cmppairs ()) s → NoDup s →
  StronglySorted pair_lt s.
Proof.
  induction 1 as [|p s Hs IH Hall]; intros Hnd; [constructor|].
  apply NoDup_cons in Hnd as [Hp Hnd]. constructor; [by apply IH|].
  apply Forall_forall. intros q Hq. eapply Forall_forall in Hall; [|done].
  unfold Qsort.cmp_le in Hall. apply cmppairs_nonpos in Hall.
  assert (p ≠ q) as Hne by (by intros ->).
  unfold pair_lt. destruct p as [p1 p2], q as [q1 q2]. simpl in *.
  destruct Hall as [?|[-> ?]]; [by left|right]. split; [done|].
  assert (p2 ≠ q2) by congruence. lia.
Qed.

Section Axis.
Context {F : Type} (flt_lt : F → F → bool).
Variable boxes : Z → F.
Variable n : Z.
Variable axis : Z.
Hypothesis axis01 : (axis = 0 ∨ axis = 1)%Z.

Local Abbreviation srt := {| Sprune.sorter_aabbs := boxes |}.
Local Abbreviation cmpinds := (Sprune.par__cmpinds flt_lt).

Lemma sweep_axis_weak act0 E act out :
  Sprune.sweep_axis flt_lt srt axis (events axis n) act0 n = Ok (E, act, out) →
  E ≡ₚ events axis n
  ∧ ∃ ps, out = untuples ps ∧ NoDup ps
      ∧ ∀ a b, (a, b) ∈ ps → (0 ≤ a < b ∧ b < n)%Z.
Proof.
  unfold Sprune.sweep_axis. intros H. bind_inv H as count Hcount.
  apply int32_inv in Hcount as [-> _]. bind_inv H.
  apply par_qsort_Permutation in E0. bind_inv H. destruct v0 as [act1 out1].
  simplify_eq. split; [done|].
  pose proof (Permutation_length E0) as Hlen. rewrite length_events in Hlen.
  rewrite <-Hlen in E1.
  apply (sweep_loop_weak axis axis01 E [] [] [] act out) in E1.
  - destruct E1 as (ps & -> & _ & _ & Hnd & Hps). exists ps.
    split_and!; [done..|]. intros a b Hab.
    destruct (Hps a b Hab) as (Hlt & Ha & Hb). simpl in Ha, Hb.
    rewrite E0 in Ha, Hb. apply ev_min_events in Ha, Hb. lia.
  - simpl. rewrite E0. apply NoDup_events.
  - intros e He. rewrite E0 in He.
    apply elem_of_events in He as (c & Hc & He). exists c. split; [lia|done].
  - split_and!; [constructor|by intros c ?%elem_of_nil|constructor|].
    by intros a b ?%elem_of_nil.
Qed.

Context `{!FltOrder flt_lt}.
Hypothesis Hwf : boxes_wf flt_lt boxes n = true.
Hypothesis Hn : (0 ≤ n ≤ 2 ^ 29)%Z.

Lemma size_t_of_count : size_t_of_int (n * 2) = length (events axis n).
Proof.
  rewrite length_events. unfold size_t_of_int.
  rewrite Z.mod_small; [done|]. lia.
Qed.

Lemma sorted_events :
  ∃ E, Qsort.par_qsort cmpinds srt (events axis n) (size_t_of_int (n * 2)) = Ok E
     ∧ E ≡ₚ events axis n
     ∧ StronglySorted (Qsort.cmp_le cmpinds srt) E.
Proof.
  rewrite size_t_of_count.
  destruct (par_qsort_prefix cmpinds srt (events axis n)
              (length (events axis n))) as (E & Hrun & Hperm & Hs); [done|].
  rewrite drop_all, app_nil_r in Hrun. rewrite firstn_all in Hperm.
  exists E. split_and!; [done..|]. apply Hs, cmpinds_ordered. done.
Qed.

Lemma sweep_axis_strong act0 :
  ∃ E act ps,
    Sprune.sweep_axis flt_lt srt axis (events axis n) act0 n
    = Ok (E, act, untuples ps)
    ∧ E ≡ₚ events axis n
    ∧ StronglySorted (Qsort.cmp_le cmpinds srt) E
    ∧ ∀ a b, (a, b) ∈ ps ↔
        (0 ≤ a < b ∧ b < n)%Z ∧ sweep_overlap flt_lt boxes axis a b = true.
Proof.
  destruct sorted_events as (E & Hrun & Hperm & Hs).
  unfold Sprune.sweep_axis. rewrite int32_Ok, bind_Ok by lia.
  rewrite Hrun, bind_Ok.
  pose proof (Permutation_length Hperm) as Hlen. rewrite length_events in Hlen.
  rewrite <-Hlen.
  destruct (sweep_loop_strong flt_lt boxes n axis axis01 Hwf E [] [] [] [])
    as (act & ps & Hsweep & _ & _ & Hps).
  - by rewrite app_nil_r.
  - by rewrite app_nil_r.
  - split_and!; [constructor| |].
    + intros c. split; [by intros ?%elem_of_nil|by intros [?%elem_of_nil _]].
    + intros a b. split; [by intros ?%elem_of_nil|].
      by intros (_ & ?%elem_of_nil & _).
  - simpl in Hsweep, Hps. rewrite app_nil_r in Hsweep. unfold pa_clear.
    change (untuples []) with (@nil Z) in Hsweep. rewrite Hsweep, bind_Ok.
    exists E, act, ps. split_and!; [done..|]. intros a b. rewrite Hps.
    rewrite !Hperm, !ev_min_events. split.
    + intros (Hab & Ha & Hb & Hcr). split; [lia|].
      by apply crossing_overlap.
    + intros (Hab & Hov). split_and!; [lia..|].
      apply crossing_overlap; [done|lia|done].
Qed.

End Axis.

(** ** Both axes and the intersection *)

Section Collide.
Context {F : Type} (flt_lt : F → F → bool).
Variable boxes : Z → F.
Variable n : Z.

Local Abbreviation srt := {| Sprune.sorter_aabbs := boxes |}.
Local Abbreviation cmpinds := (Sprune.par__cmpinds flt_lt).

Lemma collide_weak coll0 E0 E1 out :
  Sprune.collide flt_lt boxes n (events 0 n) (events 1 n) coll0 = Ok (E0, E1, out) →
  E0 ≡ₚ events 0 n ∧ E1 ≡ₚ events 1 n
  ∧ ∃ coll, out = untuples coll ∧ StronglySorted pair_lt coll
      ∧ ∀ a b, (a, b) ∈ coll → (0 ≤ a < b ∧ b < n)%Z.
Proof.
  unfold Sprune.collide. intros H.
  bind_inv H. destruct v as [[s0 act0] pairs0].
  bind_inv H. destruct v as [[s1 act1] pairs1].
  bind_inv H. simplify_eq.
  apply sweep_axis_weak in E as (Hp0 & ps0 & -> & Hnd0 & Hps0); [|by left].
  apply sweep_axis_weak in E2 as (Hp1 & ps1 & -> & Hnd1 & Hps1); [|by right].
  split_and!; [done..|].
  destruct (intersect_filter ps0 ps1 coll0) as (t0 & t1 & Hrun & Ht0 & Ht1 & Hs0).
  rewrite Hrun in E3. simplify_eq.
  exists (filter (λ k, k ∈ t1) t0). split_and!; [done| |].
  - apply StronglySorted_filter, sorted_pairs_strict; [done|].
    by rewrite Ht0.
  - intros a b [_ Hab]%list_elem_of_filter. apply Hps0. by rewrite <-Ht0.
Qed.

Context `{!FltOrder flt_lt}.
Hypothesis Hwf : boxes_wf flt_lt boxes n = true.
Hypothesis Hn : (0 ≤ n ≤ 2 ^ 29)%Z.

Lemma collide_strong coll0 :
  ∃ E0 E1 coll,
    Sprune.collide flt_lt boxes n (events 0 n) (events 1 n) coll0
    = Ok (E0, E1, untuples coll)
    ∧ (E0 ≡ₚ events 0 n ∧ StronglySorted (Qsort.cmp_le cmpinds srt) E0)
    ∧ (E1 ≡ₚ events 1 n ∧ StronglySorted (Qsort.cmp_le cmpinds srt) E1)
    ∧ ∀ a b, (a, b) ∈ coll ↔
        (0 ≤ a < b ∧ b < n)%Z
        ∧ sweep_overlap flt_lt boxes 0 a b = true
        ∧ sweep_overlap flt_lt boxes 1 a b = true.
Proof.
  unfold Sprune.collide.
  destruct (sweep_axis_strong flt_lt boxes n 0 (or_introl eq_refl) Hwf Hn [])
    as (E0 & act0 & ps0 & -> & Hp0 & Hs0 & Hps0).
  rewrite bind_Ok.
  destruct (sweep_axis_strong flt_lt boxes n 1 (or_intror eq_refl) Hwf Hn act0)
    as (E1 & act1 & ps1 & -> & Hp1 & Hs1 & Hps1).
  rewrite bind_Ok.
  destruct (intersect_filter ps0 ps1 coll0) as (t0 & t1 & -> & Ht0 & Ht1 & _).
  rewrite bind_Ok.
  exists E0, E1, (filter (λ k, k ∈ t1) t0). split_and!; [done..|].
  intros a b. rewrite list_elem_of_filter, Ht0, Ht1, Hps0, Hps1. tauto.
Qed.

End Collide.

(** ** [par_sprune_overlap] *)

Section Overlap.
Context {F : Type} (flt_lt : F → F → bool).
Implicit Types (fresh : Sprune.fresh_cells) (boxes : Z → F) (n : Z).
Implicit Types (prev : option (@Sprune.par_sprune__context F)).

(** What a call reports: the fault of its first half, or what the sweeps
    and the intersection give on the boxes and the count. *)
Lemma reported_overlap fresh boxes n prev :
  Sprune.reported (Sprune.par_sprune_overlap flt_lt fresh boxes n prev)
  = _ ← Sprune.init_arrays fresh n (Sprune.context_taken prev);
    '(_, _, coll) ← Sprune.collide flt_lt boxes n (events 0 n) (events 1 n) [];
    Ok (coll, (pa_count coll `quot` 2)%Z).
Proof.
  unfold Sprune.par_sprune_overlap. cbv zeta.
  destruct (Sprune.init_arrays fresh n (Sprune.context_taken prev))
    as [[[[s0 s1] f0] f1]|e] eqn:Hinit; [|done].
  apply init_arrays_Ok in Hinit as [H0 H1]. rewrite !bind_Ok.
  cbv beta iota. rewrite H0, H1.
  change (Sprune.collide flt_lt boxes n (events 0 n) (events 1 n)
            (Sprune.collision_pairs (Sprune.context_taken prev)))
    with (Sprune.collide flt_lt boxes n (events 0 n) (events 1 n) []).
  by destruct (Sprune.collide flt_lt boxes n (events 0 n) (events 1 n) [])
    as [[[c0 c1] coll]|].
Qed.

Lemma overlap_Ok fresh boxes n prev ctx :
  Sprune.par_sprune_overlap flt_lt fresh boxes n prev = Ok ctx →
  ∃ E0 E1,
    Sprune.collide flt_lt boxes n (events 0 n) (events 1 n) []
    = Ok (E0, E1, Sprune.collision_pairs ctx)
    ∧ Sprune.ncollision_pairs ctx
      = (pa_count (Sprune.collision_pairs ctx) `quot` 2)%Z
    ∧ Sprune.sorted_cells ctx = (E0, E1)
    ∧ Sprune.naabbs ctx = n.
Proof.
  unfold Sprune.par_sprune_overlap. cbv zeta. intros H.
  bind_inv H as [[[s0 s1] f0] f1] Hinit.
  apply init_arrays_Ok in Hinit as [H0 H1]. cbv beta iota in H.
  rewrite H0, H1 in H.
  bind_inv H. destruct v as [[E0 E1] coll].
  simplify_eq. simpl. by exists E0, E1.
Qed.

(** A call returns when its first half and the sweeps do. *)
Lemma overlap_collide fresh boxes n prev arrays E0 E1 coll :
  Sprune.init_arrays fresh n (Sprune.context_taken prev) = Ok arrays →
  Sprune.collide flt_lt boxes n (events 0 n) (events 1 n) [] = Ok (E0, E1, coll) →
  ∃ ctx, Sprune.par_sprune_overlap flt_lt fresh boxes n prev = Ok ctx
    ∧ Sprune.collision_pairs ctx = coll
    ∧ Sprune.ncollision_pairs ctx = (pa_count coll `quot` 2)%Z
    ∧ Sprune.sorted_cells ctx = (E0, E1)
    ∧ Sprune.naabbs ctx = n.
Proof.
  intros Hinit Hrun. unfold Sprune.par_sprune_overlap. cbv zeta.
  destruct arrays as [[[s0 s1] f0] f1]. rewrite Hinit, bind_Ok.
  apply init_arrays_Ok in Hinit as [H0 H1]. cbv beta iota. rewrite H0, H1.
  change (Sprune.collide flt_lt boxes n (events 0 n) (events 1 n)
            (Sprune.collision_pairs (Sprune.context_taken prev)))
    with (Sprune.collide flt_lt boxes n (events 0 n) (events 1 n) []).
  rewrite Hrun, bind_Ok. eexists. by split_and!.
Qed.

(** A call never ends on the [assert] when the sweeps do not. *)
Lemma overlap_no_assert fresh boxes n prev r :
  Sprune.collide flt_lt boxes n (events 0 n) (events 1 n) [] = Ok r →
  Sprune.par_sprune_overlap flt_lt fresh boxes n prev ≠ Err AssertFailed.
Proof.
  intros Hrun. unfold Sprune.par_sprune_overlap. cbv zeta.
  destruct (Sprune.init_arrays fresh n (Sprune.context_taken prev))
    as [[[[s0 s1] f0] f1]|e] eqn:Hinit.
  - apply init_arrays_Ok in Hinit as [H0 H1]. rewrite bind_Ok.
    cbv beta iota. rewrite H0, H1.
    change (Sprune.collide flt_lt boxes n (events 0 n) (events 1 n)
              (Sprune.collision_pairs (Sprune.context_taken prev)))
      with (Sprune.collide flt_lt boxes n (events 0 n) (events 1 n) []).
    destruct r as [[E0 E1] coll]. by rewrite Hrun.
  - simpl. intros ?. simplify_eq.
    by destruct (init_arrays_faults _ _ _ _ Hinit).
Qed.

End Overlap.

Lemma Z_ltb_order : FltOrder Z.ltb.
Proof. split; intros *; rewrite ?Z.ltb_lt, ?Z.ltb_ge; lia. Qed.

Lemma pair_lt_sorted_NoDup ps : StronglySorted pair_lt ps → NoDup ps.
Proof.
  induction 1 as [|p ps Hs IH Hall]; [constructor|].
  apply NoDup_cons. split; [|done]. intros Hin.
  eapply Forall_forall in Hall; [|done]. unfold pair_lt in Hall. lia.
Qed.

Lemma events_nil axis n : (n ≤ 0)%Z → events axis n = [].
Proof. intros. unfold events. by rewrite seqZ_nil. Qed.

Lemma par_qsort_nil {T Arg} (compar : T → T → Arg → Z) arg nel :
  7 ≤ nel → Qsort.par_qsort compar arg [] nel = Err OutOfBounds.
Proof.
  intros Hnel. unfold Qsort.par_qsort. destruct nel as [|fuel]; [lia|].
  cbn [Qsort.par_qsort_rec].
  destruct (Nat.ltb_spec (S fuel) 7); [lia|]. done.
Qed.

Lemma size_t_of_negative n :
  (- 2 ^ 31 ≤ n < 0)%Z → 7 ≤ size_t_of_int (n * 2).
Proof.
  intros Hn. unfold size_t_of_int.
  replace (n * 2)%Z with ((n * 2 + 2 ^ 64) + (-1) * 2 ^ 64)%Z by lia.
  rewrite Z_mod_plus_full, Z.mod_small by lia. lia.
Qed.

Lemma collide_negative {F} (flt_lt : F → F → bool) boxes n coll :
  (- 2 ^ 30 ≤ n < 0)%Z →
  Sprune.collide flt_lt boxes n (events 0 n) (events 1 n) coll = Err OutOfBounds.
Proof.
  intros Hn. rewrite !events_nil by lia.
  unfold Sprune.collide, Sprune.sweep_axis.
  rewrite int32_Ok, bind_Ok by lia.
  by rewrite par_qsort_nil by (apply size_t_of_negative; lia).
Qed.

(** ** Properties of [par_sprune_overlap] *)

Section OverlapProperties.
Context {F : Type} (flt_lt : F → F → bool).
Implicit Types (fresh : Sprune.fresh_cells) (boxes : Z → F) (n : Z).
Implicit Types (prev : option (@Sprune.par_sprune__context F)).

(** C3.  The collision pairs a call returns are two-tuples with first <
    second, without repetition, in ascending order of (first, second); their
    number is [ncollision_pairs]. *)
Theorem overlap_pairs_canonical fresh boxes n prev ctx :
  Sprune.par_sprune_overlap flt_lt fresh boxes n prev = Ok ctx →
  Sprune.collision_pairs ctx = untuples (tuples (Sprune.collision_pairs ctx))
  ∧ Sprune.ncollision_pairs ctx
    = Z.of_nat (length (tuples (Sprune.collision_pairs ctx)))
  ∧ Forall (λ p, (p.1 < p.2)%Z) (tuples (Sprune.collision_pairs ctx))
  ∧ NoDup (tuples (Sprune.collision_pairs ctx))
  ∧ StronglySorted pair_lt (tuples (Sprune.collision_pairs ctx)).
Proof.
  intros (E0 & E1 & Hrun & Hcount & _)%overlap_Ok.
  apply collide_weak in Hrun as (_ & _ & coll & Hcoll & Hsorted & Hrange).
  rewrite Hcount, Hcoll, tuples_untuples. split_and!; [done| | |..|done].
  - unfold pa_count. rewrite length_untuples.
    replace (Z.of_nat (2 * length coll)) with (Z.of_nat (length coll) * 2)%Z by lia.
    by rewrite Z.quot_mul by lia.
  - apply Forall_forall. intros [a b] Hab. apply Hrange in Hab. simpl. lia.
  - by apply pair_lt_sorted_NoDup.
Qed.

(** C5.  Two calls without a previous context on the same boxes and count
    report the same pairs in the same order (or the same fault), whatever
    the freshly allocated cells held. *)
Theorem overlap_deterministic fresh1 fresh2 boxes n :
  Sprune.reported (Sprune.par_sprune_overlap flt_lt fresh1 boxes n None)
  = Sprune.reported (Sprune.par_sprune_overlap flt_lt fresh2 boxes n None).
Proof.
  rewrite !reported_overlap.
  pose proof (init_arrays_fresh fresh1 fresh2 n (Sprune.context_taken (F:=F) None))
    as Hinit.
  destruct (Sprune.init_arrays fresh1 n _) as [[[[s0 s1] f0] f1]|e],
    (Sprune.init_arrays fresh2 n _) as [[[[s0' s1'] f0'] f1']|e']; try done.
  by subst.
Qed.


(** C6, as amended.  The count is not checked: with a negative count (for
    which [naabbs * 2] is an [int]) a call never returns and never ends on
    [InvalidCount]; without a previous context the sort is entered with the
    count converted to [size_t] and reads outside the (empty) event array. *)
Theorem overlap_negative_count fresh boxes n prev :
  (- 2 ^ 30 ≤ n < 0)%Z →
  Sprune.par_sprune_overlap flt_lt fresh boxes n None = Err OutOfBounds
  ∧ (∃ e, Sprune.par_sprune_overlap flt_lt fresh boxes n prev = Err e
          ∧ e ≠ InvalidCount).
Proof.
  intros Hn. split.
  - unfold Sprune.par_sprune_overlap. cbv zeta.
    destruct (init_arrays_calloc_negative (F:=F) fresh n Hn)
      as (s0 & s1 & f0 & f1 & Hinit).
    change (Sprune.context_taken None) with (Sprune.calloc_context (F:=F)).
    rewrite Hinit, bind_Ok. cbv beta iota.
    apply init_arrays_Ok in Hinit as [H0 H1]. rewrite H0, H1.
    by rewrite collide_negative.
  - unfold Sprune.par_sprune_overlap. cbv zeta.
    destruct (Sprune.init_arrays fresh n (Sprune.context_taken prev))
      as [[[[s0 s1] f0] f1]|e] eqn:Hinit.
    + apply init_arrays_Ok in Hinit as [H0 H1]. rewrite bind_Ok.
      cbv beta iota. rewrite H0, H1.
      rewrite collide_negative by done. by exists OutOfBounds.
    + exists e. split; [done|]. intros ->.
      by destruct (init_arrays_faults _ _ _ _ Hinit).
Qed.

End OverlapProperties.

(** ** Zero or one box *)

Section Few.
Context {F : Type} (flt_lt : F → F → bool).
Variable boxes : Z → F.
Local Abbreviation srt := {| Sprune.sorter_aabbs := boxes |}.

Lemma sweep_inv_nil axis : sweep_inv flt_lt boxes axis [] [] [].
Proof.
  split_and!; [constructor| |].
  - intros c. split; [by intros ?%elem_of_nil|by intros [?%elem_of_nil _]].
  - intros a b. split; [by intros ?%elem_of_nil|].
    by intros (_ & ?%elem_of_nil & _).
Qed.

Lemma sweep_axis_one axis act0 :
  (axis = 0 ∨ axis = 1)%Z →
  flt_lt (boxes (ev_max axis 0)) (boxes (ev_min axis 0)) = false →
  Sprune.sweep_axis flt_lt srt axis (events axis 1) act0 1
  = Ok ([ev_min axis 0; ev_max axis 0], [], []).
Proof.
  intros Hax Hwf.
  assert ((0 <? Sprune.par__cmpinds flt_lt (ev_min axis 0) (ev_max axis 0) srt)%Z
          = false) as Hcmp.
  { apply Z.ltb_ge. apply cmpinds_nonpos. split; [done|].
    right. unfold ev_min, ev_max. lia. }
  unfold Sprune.sweep_axis.
  change (events axis 1) with [ev_min axis 0; ev_max axis 0].
  change (int32 (1 * 2)) with (Ok 2%Z). rewrite bind_Ok.
  change (size_t_of_int 2) with 2.
  change (Z.to_nat 2) with 2.
  unfold Qsort.par_qsort. cbn [Qsort.par_qsort_rec Nat.ltb Nat.leb].
  unfold Qsort.insertion_sort. cbn [Nat.sub Qsort.insertion_loop Qsort.sift_down].
  unfold Qsort.par_qsort_cmpswap. cbn [load lookup list_lookup].
  rewrite !bind_Ok, Hcmp, !bind_Ok.
  cbn [Sprune.sweep_loop load lookup list_lookup]. rewrite bind_Ok.
  pose proof (sweep_event_min axis Hax [] [] 0) as Hmin.
  change (untuples []) with (@nil Z) in Hmin. unfold pa_clear.
  rewrite Hmin by done. simpl.
  rewrite (sweep_event_max axis Hax) by done.
  pose proof (remove_last_occurrence [] [] 0 (not_elem_of_nil _)) as Hrm.
  simpl in Hrm. by rewrite Hrm.
Qed.

Lemma collide_zero coll :
  Sprune.collide flt_lt boxes 0 (events 0 0) (events 1 0) coll = Ok ([], [], []).
Proof. reflexivity. Qed.

Lemma collide_one coll :
  boxes_wf flt_lt boxes 1 = true →
  ∃ E0 E1, Sprune.collide flt_lt boxes 1 (events 0 1) (events 1 1) coll
           = Ok (E0, E1, []).
Proof.
  intros Hwf. unfold boxes_wf in Hwf.
  change (seqZ 0 1) with [0%Z] in Hwf. simpl in Hwf.
  rewrite andb_true_r, andb_true_iff, !negb_true_iff in Hwf.
  destruct Hwf as [H0 H1].
  unfold Sprune.collide.
  rewrite (sweep_axis_one 0) by (by left || done). rewrite bind_Ok.
  rewrite (sweep_axis_one 1) by (by right || done). rewrite bind_Ok.
  by eexists _, _.
Qed.

End Few.

Section SweepSafety.
Context {F : Type} (flt_lt : F → F → bool).
Implicit Types (fresh : Sprune.fresh_cells) (boxes : Z → F) (n : Z).
Implicit Types (prev : option (@Sprune.par_sprune__context F)).

(** X26.  With a count of 0 or 1 a call that returns reports no collision
    pair and [ncollision_pairs = 0]; the call returns when the box (if any)
    is well-formed and the arrays could be set up, as they can for a count
    of 0 without a previous context. *)
Theorem overlap_few_boxes fresh boxes n prev :
  (n = 0 ∨ n = 1)%Z →
  (∀ ctx, Sprune.par_sprune_overlap flt_lt fresh boxes n prev = Ok ctx →
     Sprune.collision_pairs ctx = [] ∧ Sprune.ncollision_pairs ctx = 0%Z)
  ∧ (∀ arrays,
       boxes_wf flt_lt boxes n = true →
       Sprune.init_arrays fresh n (Sprune.context_taken prev) = Ok arrays →
       ∃ ctx, Sprune.par_sprune_overlap flt_lt fresh boxes n prev = Ok ctx)
  ∧ (n = 0%Z →
     ∃ ctx, Sprune.par_sprune_overlap flt_lt fresh boxes n None = Ok ctx).
Proof.
  intros Hn. split_and!.
  - intros ctx (E0 & E1 & Hrun & Hcount & _)%overlap_Ok.
    apply collide_weak in Hrun as (_ & _ & coll & Hcoll & _ & Hrange).
    destruct coll as [|[a b] coll].
    + rewrite Hcount, Hcoll. done.
    + destruct (Hrange a b); [left|]. lia.
  - intros arrays Hwf Hinit. destruct Hn as [-> | ->].
    + destruct (overlap_collide flt_lt fresh boxes 0 prev _ _ _ _ Hinit
                  (collide_zero flt_lt boxes [])) as (ctx & Hctx & _).
      by exists ctx.
    + destruct (collide_one flt_lt boxes [] Hwf) as (E0 & E1 & Hrun).
      destruct (overlap_collide flt_lt fresh boxes 1 prev _ _ _ _ Hinit Hrun)
        as (ctx & Hctx & _).
      by exists ctx.
  - intros ->.
    pose proof (init_arrays_calloc (F:=F) fresh 0 ltac:(lia)) as Hinit.
    rewrite decide_False in Hinit by done.
    destruct (overlap_collide flt_lt fresh boxes 0 None _ _ _ _ Hinit
                (collide_zero flt_lt boxes [])) as (ctx & Hctx & _).
    by exists ctx.
Qed.


End SweepSafety.

(** ** The culler *)

Lemma elem_of_untuples ps x :
  x ∈ untuples ps ↔ ∃ p, p ∈ ps ∧ (x = p.1 ∨ x = p.2).
Proof.
  unfold untuples. rewrite list_elem_of_bind. split.
  - intros (p & Hx & Hp). exists p. split; [done|].
    rewrite elem_of_cons, list_elem_of_singleton in Hx. done.
  - intros (p & Hp & Hx). exists p. split; [|done].
    by rewrite elem_of_cons, list_elem_of_singleton.
Qed.

Lemma touches_true v e : Cull.touches v e = true ↔ e.1 = v ∨ e.2 = v.
Proof. unfold Cull.touches. rewrite orb_true_iff, !Z.eqb_eq. done. Qed.

Lemma add_vertex_incl v vs x : x ∈ vs → x ∈ Cull.add_vertex v vs.
Proof.
  unfold Cull.add_vertex. intros Hx. case_bool_decide; [done|].
  apply elem_of_app. by left.
Qed.

Lemma flood_step_incl edges : ∀ seen x, x ∈ seen → x ∈ Cull.flood_step edges seen.
Proof.
  unfold Cull.flood_step.
  induction edges as [|e edges IH]; intros seen x Hx; simpl; [done|].
  apply IH. destruct (_ || _); [|done]. by do 2 apply add_vertex_incl.
Qed.

Lemma flood_incl rounds : ∀ edges seen x,
  x ∈ seen → x ∈ Cull.flood rounds edges seen.
Proof.
  induction rounds as [|r IH]; intros edges seen x Hx; simpl; [done|].
  by apply IH, flood_step_incl.
Qed.

Lemma component_of_self edges v : v ∈ Cull.component_of edges v.
Proof. apply flood_incl. left. Qed.

(** Every pair lands in one of the components. *)
Lemma components_cover fuel : ∀ edges e,
  length edges ≤ fuel → e ∈ edges →
  ∃ comp, comp ∈ Cull.components fuel edges ∧ e ∈ comp.
Proof.
  induction fuel as [|fuel IH]; intros edges e Hlen He.
  { destruct edges; [by apply elem_of_nil in He|simpl in Hlen; lia]. }
  destruct edges as [|e0 edges]; [by apply elem_of_nil in He|].
  cbn [Cull.components].
  set (vs := Cull.component_of (e0 :: edges) e0.1).
  destruct (decide (e.1 ∈ vs)) as [Hin|Hout].
  - eexists. split; [left|]. by apply list_elem_of_filter.
  - destruct (IH (filter (λ e', e'.1 ∉ vs) (e0 :: edges)) e) as (comp & Hc & Hec).
    + assert (length (filter (λ e', e'.1 ∉ vs) (e0 :: edges))
              < length (e0 :: edges)); [|lia].
      apply (length_filter_lt _ _ e0); [left|].
      intros Hnot. apply Hnot, component_of_self.
    + by apply list_elem_of_filter.
    + exists comp. split; [by right|done].
Qed.

Lemma foldl_better_elem edges l : ∀ x,
  foldl (Cull.better edges) x l = x ∨ foldl (Cull.better edges) x l ∈ l.
Proof.
  induction l as [|y l IH]; intros x; simpl; [by left|].
  destruct (IH (Cull.better edges x y)) as [-> | Hin]; [|right; by right].
  unfold Cull.better. destruct (_ || _); [right; left|by left].
Qed.

(** The box picked is an endpoint of one of the pairs. *)
Lemma pick_touches e edges :
  ∃ e', e' ∈ e :: edges ∧ Cull.touches (Cull.pick (e :: edges) e.1) e' = true.
Proof.
  unfold Cull.pick.
  destruct (foldl_better_elem (e :: edges) (untuples (e :: edges)) e.1)
    as [-> | Hin].
  - exists e. split; [left|]. apply touches_true. by left.
  - apply elem_of_untuples in Hin as (p & Hp & Hx). exists p. split; [done|].
    apply touches_true. destruct Hx as [Hx|Hx]; [left|right]; by rewrite Hx.
Qed.

(** The greedy selection covers every pair of its component. *)
Lemma greedy_covers fuel : ∀ edges e,
  length edges ≤ fuel → e ∈ edges →
  e.1 ∈ Cull.greedy fuel edges ∨ e.2 ∈ Cull.greedy fuel edges.
Proof.
  induction fuel as [|fuel IH]; intros edges e Hlen He.
  { destruct edges; [by apply elem_of_nil in He|simpl in Hlen; lia]. }
  destruct edges as [|e0 edges]; [by apply elem_of_nil in He|].
  cbn [Cull.greedy]. set (v := Cull.pick (e0 :: edges) e0.1).
  destruct (Cull.touches v e) eqn:Htouch.
  - apply touches_true in Htouch as [<- | <-]; [left|right]; left.
  - destruct (IH (filter (λ e', Cull.touches v e' = false) (e0 :: edges)) e)
      as [H1|H2]; [| |left; by right|right; by right].
    + destruct (pick_touches e0 edges) as (e' & He' & Ht).
      assert (length (filter (λ e', Cull.touches v e' = false) (e0 :: edges))
              < length (e0 :: edges)); [|lia].
      apply (length_filter_lt _ _ e'); [done|]. subst v. by rewrite Ht.
    + by apply list_elem_of_filter.
Qed.

Lemma cull_pairs_covers edges e :
  e ∈ edges → e.1 ∈ Cull.cull_pairs edges ∨ e.2 ∈ Cull.cull_pairs edges.
Proof.
  intros He. unfold Cull.cull_pairs.
  destruct (components_cover (length edges) edges e) as (comp & Hc & Hec);
    [done..|].
  destruct (greedy_covers (length comp) comp e) as [H1|H2]; [done..| |];
    [left|right]; apply list_elem_of_bind; by exists comp.
Qed.

(** C4.  After [par_sprune_cull], whose collision pairs are the ones it was
    given, every collision pair has an endpoint among the culled boxes, and
    [nculled] counts them. *)
Theorem cull_covers_pairs {F} (ctx : @Sprune.par_sprune__context F) :
  Sprune.collision_pairs (Cull.par_sprune_cull ctx) = Sprune.collision_pairs ctx
  ∧ Sprune.nculled (Cull.par_sprune_cull ctx)
    = Z.of_nat (length (Sprune.culled (Cull.par_sprune_cull ctx)))
  ∧ Forall (λ p, p.1 ∈ Sprune.culled (Cull.par_sprune_cull ctx)
                 ∨ p.2 ∈ Sprune.culled (Cull.par_sprune_cull ctx))
      (tuples (Sprune.collision_pairs (Cull.par_sprune_cull ctx))).
Proof.
  split_and!; [done..|]. apply Forall_forall. intros p Hp.
  by apply cull_pairs_covers.
Qed.

(** ** The incremental update *)


Section Update.
Context {F : Type} (flt_lt : F → F → bool) `{!FltOrder flt_lt}.
Variable n : Z.
Hypothesis Hn : (0 ≤ n ≤ 2 ^ 29)%Z.

Local Abbreviation cmpinds := (Sprune.par__cmpinds flt_lt).
Local Abbreviation update := (Incremental.par_sprune_update flt_lt).
Local Abbreviation overlap := (Sprune.par_sprune_overlap flt_lt).

Section Frame.
Variable boxes : Z → F.
Local Abbreviation srt := {| Sprune.sorter_aabbs := boxes |}.
Local Abbreviation le := (Qsort.cmp_le cmpinds srt).

Lemma cmpinds_le_trans : Transitive le.
Proof. intros x y z. apply cmpinds_ordered. done. Qed.

Lemma cmpinds_le_antisym : AntiSymm (=) le.
Proof. intros x y. apply cmpinds_antisym. Qed.

Lemma order_kept_Sorted l :
  Incremental.order_broken flt_lt srt l = false → Sorted le l.
Proof.
  induction l as [|a [|b l] IH]; intros Hb; [repeat constructor..|].
  cbn [Incremental.order_broken] in Hb. apply orb_false_iff in Hb as [Hab Hb].
  constructor; [by apply IH|]. constructor. unfold Qsort.cmp_le.
  apply Z.ltb_ge in Hab. done.
Qed.

(** The refreshed order of an axis is the order a fresh sort gives. *)
Lemma refresh_axis_fresh axis E E' :
  (axis = 0 ∨ axis = 1)%Z →
  E ≡ₚ events axis n →
  Qsort.par_qsort cmpinds srt (events axis n) (size_t_of_int (n * 2)) = Ok E' →
  Incremental.refresh_axis flt_lt srt axis E
  = '(_, pairs) ← Sprune.sweep_loop axis E' [] [] 0 (length E'); Ok (E', pairs).
Proof.
  intros Hax Hperm Hsort.
  destruct (sorted_events flt_lt boxes n axis Hn) as (E'' & Hsort' & Hperm' & Hs').
  rewrite Hsort in Hsort'. simplify_eq.
  unfold Incremental.refresh_axis.
  destruct (Incremental.order_broken flt_lt srt E) eqn:Hb.
  - destruct (insertion_sort_cut cmpinds srt E []) as (s & Hrun & Hp & Hs).
    rewrite !app_nil_r in Hrun. rewrite Hrun, bind_Ok.
    assert (s = E'') as ->; [|done].
    pose proof cmpinds_le_antisym.
    apply (StronglySorted_unique le); [|done|by rewrite Hp, Hperm, Hperm'].
    apply Hs, cmpinds_ordered. done.
  - rewrite bind_Ok. assert (E = E'') as ->; [|done].
    pose proof cmpinds_le_antisym.
    apply (StronglySorted_unique le); [|done|by rewrite Hperm, Hperm'].
    apply Sorted_StronglySorted;
      [exact cmpinds_le_trans|by apply order_kept_Sorted].
Qed.

Lemma refresh_axis_kept axis E a p :
  Incremental.order_broken flt_lt srt E = false →
  Sprune.sweep_loop axis E [] [] 0 (length E) = Ok (a, p) →
  Incremental.refresh_axis flt_lt srt axis E = Ok (E, p).
Proof.
  intros Hb Hsweep. unfold Incremental.refresh_axis.
  by rewrite Hb, bind_Ok, Hsweep.
Qed.

(** The parts of a run of [collide]. *)
Lemma collide_parts coll0 E0 E1 coll :
  Sprune.collide flt_lt boxes n (events 0 n) (events 1 n) coll0 = Ok (E0, E1, coll) →
  ∃ a0 a1 p0 p1,
    Qsort.par_qsort cmpinds srt (events 0 n) (size_t_of_int (n * 2)) = Ok E0
    ∧ Qsort.par_qsort cmpinds srt (events 1 n) (size_t_of_int (n * 2)) = Ok E1
    ∧ Sprune.sweep_loop 0 E0 [] [] 0 (length E0) = Ok (a0, p0)
    ∧ Sprune.sweep_loop 1 E1 [] [] 0 (length E1) = Ok (a1, p1)
    ∧ Sprune.intersect p0 p1 [] = Ok coll.
Proof.
  unfold Sprune.collide. intros H.
  bind_inv H as [[s0 act0] p0] Hax0. bind_inv H as [[s1 act1] p1] Hax1.
  bind_inv H as coll' Hint. simplify_eq.
  unfold Sprune.sweep_axis in Hax0, Hax1.
  rewrite int32_Ok, bind_Ok in Hax0, Hax1 by lia.
  bind_inv Hax0 as F0 Hsort0. bind_inv Hax0 as [a0 q0] Hsw0.
  bind_inv Hax1 as F1 Hsort1. bind_inv Hax1 as [a1 q1] Hsw1. simplify_eq.
  pose proof (par_qsort_Permutation _ _ _ _ _ Hsort0) as Hl0.
  pose proof (par_qsort_Permutation _ _ _ _ _ Hsort1) as Hl1.
  apply Permutation_length in Hl0, Hl1. rewrite length_events in Hl0, Hl1.
  rewrite <-Hl0 in Hsw0. rewrite <-Hl1 in Hsw1.
  by exists act0, act1, p0, p1.
Qed.

(** A context a call of [par_sprune_overlap] returns tracks the count. *)
Lemma overlap_tracks fresh prev ctx :
  overlap fresh boxes n prev = Ok ctx → Incremental.tracks ctx n.
Proof.
  intros (E0 & E1 & Hrun & _ & Hidx & Hcount)%overlap_Ok.
  pose proof (collide_weak _ _ _ _ _ _ _ Hrun) as (Hp0 & Hp1 & _).
  apply collide_parts in Hrun as (a0 & a1 & p0 & p1 & _ & _ & Hs0 & Hs1 & Hint).
  split; [done|]. by exists E0, E1, a0, a1, p0, p1.
Qed.

(** One update against a fresh call on the same frame. *)
Lemma update_step fresh ctx :
  Incremental.tracks ctx n →
  boxes_wf flt_lt boxes n = true →
  ∃ ctx' changed,
    update boxes ctx = Ok (ctx', changed)
    ∧ (∀ created, overlap fresh boxes n None = Ok created →
         Sprune.collision_pairs ctx' = Sprune.collision_pairs created)
    ∧ ((n ≤ 2 ^ 13)%Z → n ≠ 1%Z →
       ∃ created, overlap fresh boxes n None = Ok created)
    ∧ (changed = true
       ↔ Sprune.collision_pairs ctx' ≠ Sprune.collision_pairs ctx)
    ∧ Incremental.tracks ctx' n.
Proof.
  intros (Hcount & E0 & E1 & a0 & a1 & p0 & p1 & Hidx & Hp0 & Hp1
          & Hs0 & Hs1 & Hint) Hwf.
  destruct (collide_strong flt_lt boxes n Hwf Hn [])
    as (G0 & G1 & coll & Hrun & [Hq0 _] & [Hq1 _] & _).
  assert (∀ created, overlap fresh boxes n None = Ok created →
            untuples coll = Sprune.collision_pairs created) as Hsame.
  { intros created (E0' & E1' & Hrun' & _)%overlap_Ok.
    rewrite Hrun in Hrun'. by simplify_eq. }
  assert ((n ≤ 2 ^ 13)%Z → n ≠ 1%Z →
          ∃ created, overlap fresh boxes n None = Ok created) as Hreturns.
  { intros Hsmall Hn1.
    pose proof (init_arrays_calloc (F:=F) fresh n ltac:(lia)) as Hinit.
    rewrite decide_False in Hinit by done.
    destruct (overlap_collide flt_lt fresh boxes n None _ _ _ _ Hinit Hrun)
      as (created & Hcreated & _).
    by exists created. }
  apply collide_parts in Hrun as (b0 & b1 & q0 & q1 & Hsort0 & Hsort1
                                   & Ht0 & Ht1 & Hint').
  assert (Incremental.refresh_axis flt_lt srt 0 E0 = Ok (G0, q0)) as Hr0.
  { rewrite (refresh_axis_fresh 0 E0 G0) by (done || by left).
    by rewrite Ht0. }
  assert (Incremental.refresh_axis flt_lt srt 1 E1 = Ok (G1, q1)) as Hr1.
  { rewrite (refresh_axis_fresh 1 E1 G1) by (done || by right).
    by rewrite Ht1. }
  unfold Incremental.par_sprune_update. rewrite Hidx.
  destruct (Incremental.order_broken flt_lt srt E0) eqn:Hb0;
    [|destruct (Incremental.order_broken flt_lt srt E1) eqn:Hb1]; simpl.
  3:{ rewrite (refresh_axis_kept 0 E0 a0 p0) in Hr0 by done.
      rewrite (refresh_axis_kept 1 E1 a1 p1) in Hr1 by done.
      simplify_eq. exists ctx, false.
      split_and!; [done| |done| |].
      - intros created Hcr. apply Hsame in Hcr. congruence.
      - split; [done|]. by intros [].
      - split; [done|]. by exists G0, G1, a0, a1, q0, q1. }
  all: rewrite Hr0, bind_Ok, Hr1, bind_Ok.
  all: change (Sprune.intersect q0 q1 (Sprune.collision_pairs ctx))
         with (Sprune.intersect q0 q1 []).
  all: rewrite Hint', bind_Ok.
  all: eexists _, _; split_and!; [done|by apply Hsame|done| |].
  all: try (simpl; by rewrite bool_decide_eq_true).
  all: split; [done|]; by exists G0, G1, b0, b1, q0, q1.
Qed.

End Frame.

(** C2.  From a context that [par_sprune_overlap] returned, every update on
    a frame of well-formed boxes returns, leaves the collision pairs a fresh
    call on that frame gives, and answers [true] exactly when these differ
    from the pairs held before.  The fresh call returns for up to [2 ^ 13]
    boxes, one box apart: with one box it writes a flag outside the block
    of its flag array. *)
Theorem update_matches_overlap fresh boxes0 prev ctx0 frames :
  overlap fresh boxes0 n prev = Ok ctx0 →
  Forall (λ boxes, boxes_wf flt_lt boxes n = true) frames →
  Incremental.frames_agree flt_lt fresh ctx0 frames.
Proof.
  intros Htracks%overlap_tracks Hframes. revert ctx0 Htracks.
  induction Hframes as [|boxes frames Hwf _ IH]; intros ctx Htracks; [done|].
  destruct (update_step boxes fresh ctx Htracks Hwf)
    as (ctx' & changed & Hup & Hsame & Hcr & Hch & Htracks').
  simpl. exists ctx', changed.
  rewrite (proj1 Htracks). split_and!; [done..|]. by apply IH.
Qed.

End Update.

(** ** The properties on sample inputs *)

Lemma par_qsort_sorts_witness :
  Qsort.cmp_ordered zcompar ()
  ∧ 10 ≤ length sample_array
  ∧ ∃ base', Qsort.par_qsort zcompar () sample_array 10 = Ok base'
      ∧ take 10 base' ≡ₚ take 10 sample_array
      ∧ drop 10 base' = drop 10 sample_array
      ∧ StronglySorted (Qsort.cmp_le zcompar ()) (take 10 base').
Proof.
  assert (Qsort.cmp_ordered zcompar ()) as Ho
    by (split; unfold zcompar; intros; lia).
  assert (10 ≤ length sample_array) as Hl by (simpl; lia).
  split; [exact Ho|]. split; [exact Hl|].
  exact (par_qsort_sorts zcompar () sample_array 10 Ho Hl).
Defined.

Lemma three_boxes_run :
  Sprune.par_sprune_overlap Z.ltb zero_cells three_boxes 3 None
  = Ok three_boxes_context.
Proof. reflexivity. Qed.

Lemma touching_boxes_run :
  Sprune.par_sprune_overlap Z.ltb zero_cells touching_boxes 2 None
  = Ok touching_context.
Proof. reflexivity. Qed.

(** C1.  The two rectangles of [touching_boxes] meet as closed intervals
    on both axes, and the call reports no pair; numbered the other way
    round ([touching_boxes_swapped]) the same two rectangles are reported. *)
Theorem touching_pair_by_numbering :
  closed_overlap Z.ltb touching_boxes 0 0 1 = true
  ∧ closed_overlap Z.ltb touching_boxes 1 0 1 = true
  ∧ Sprune.reported
      (Sprune.par_sprune_overlap Z.ltb zero_cells touching_boxes 2 None)
    = Ok ([], 0%Z)
  ∧ Sprune.reported
      (Sprune.par_sprune_overlap Z.ltb zero_cells touching_boxes_swapped 2 None)
    = Ok ([0; 1]%Z, 1%Z).
Proof. by split_and!. Qed.

(** C1, as stated, fails on two boxes that touch on x: the closed
    intervals of boxes 0 and 1 overlap on both axes and the pair is not
    reported. *)
Lemma touching_boxes_not_reported :
  ¬ (∀ ctx,
       Sprune.par_sprune_overlap Z.ltb zero_cells touching_boxes 2 None = Ok ctx →
       ∀ a b, (0 ≤ a < b ∧ b < 2)%Z →
         (a, b) ∈ tuples (Sprune.collision_pairs ctx) ↔
         closed_overlap Z.ltb touching_boxes 0 a b = true
         ∧ closed_overlap Z.ltb touching_boxes 1 a b = true).
Proof.
  intros Hclaim.
  destruct (Hclaim touching_context touching_boxes_run 0%Z 1%Z) as [_ Hin];
    [lia|].
  specialize (Hin (conj eq_refl eq_refl)). by apply elem_of_nil in Hin.
Qed.

Lemma overlap_pairs_canonical_witness :
  Sprune.par_sprune_overlap Z.ltb zero_cells three_boxes 3 None
  = Ok three_boxes_context
  ∧ Sprune.collision_pairs three_boxes_context
    = untuples (tuples (Sprune.collision_pairs three_boxes_context))
  ∧ Sprune.ncollision_pairs three_boxes_context
    = Z.of_nat (length (tuples (Sprune.collision_pairs three_boxes_context)))
  ∧ Forall (λ p, (p.1 < p.2)%Z)
      (tuples (Sprune.collision_pairs three_boxes_context))
  ∧ NoDup (tuples (Sprune.collision_pairs three_boxes_context))
  ∧ StronglySorted pair_lt
      (tuples (Sprune.collision_pairs three_boxes_context)).
Proof.
  assert (Sprune.par_sprune_overlap Z.ltb zero_cells three_boxes 3 None
          = Ok three_boxes_context) as Hrun by reflexivity.
  split; [exact Hrun|].
  exact (overlap_pairs_canonical Z.ltb zero_cells three_boxes 3 None
           three_boxes_context Hrun).
Defined.

Lemma overlap_negative_count_witness :
  (- 2 ^ 30 ≤ -1 < 0)%Z
  ∧ Sprune.par_sprune_overlap Z.ltb zero_cells no_boxes (-1) None
    = Err OutOfBounds
  ∧ (∃ e, Sprune.par_sprune_overlap Z.ltb zero_cells no_boxes (-1)
            (Some used_context) = Err e
          ∧ e ≠ InvalidCount).
Proof.
  assert (- 2 ^ 30 ≤ -1 < 0)%Z as Hn by lia.
  split; [exact Hn|].
  exact (overlap_negative_count Z.ltb zero_cells no_boxes (-1)
           (Some used_context) Hn).
Defined.

(** C6, as stated, fails: a call with count -1 does not end on
    [InvalidCount]. *)
Lemma negative_count_not_rejected :
  Sprune.par_sprune_overlap Z.ltb zero_cells no_boxes (-1) None
  ≠ Err InvalidCount.
Proof. discriminate. Qed.


(** C9.  With one box and no previous context, [pa___growf] asks for no
    byte behind the header of the flag arrays, and the fill loop writes the
    flag of the box outside the block: the call does not produce the empty
    sequence it produces when it reuses a context whose flag arrays have
    room. *)
Theorem one_box_flag_outside_block :
  Stretchy.growf_payload None (1 * 2) 1 = Ok 0%Z
  ∧ Sprune.init_arrays (F:=Z) zero_cells 1 Sprune.calloc_context
    = Err OutOfBounds
  ∧ Sprune.par_sprune_overlap Z.ltb zero_cells one_box 1 None = Err OutOfBounds
  ∧ Sprune.reported
      (Sprune.par_sprune_overlap Z.ltb zero_cells one_box 1 (Some touching_context))
    = Ok ([], 0%Z).
Proof. by split_and!. Qed.

Lemma overlap_few_boxes_witness :
  (1 = 0 ∨ 1 = 1)%Z
  ∧ (∀ ctx,
       Sprune.par_sprune_overlap Z.ltb zero_cells one_box 1 (Some touching_context)
       = Ok ctx →
       Sprune.collision_pairs ctx = [] ∧ Sprune.ncollision_pairs ctx = 0%Z)
  ∧ (∀ arrays,
       boxes_wf Z.ltb one_box 1 = true →
       Sprune.init_arrays zero_cells 1
         (Sprune.context_taken (Some touching_context)) = Ok arrays →
       ∃ ctx,
         Sprune.par_sprune_overlap Z.ltb zero_cells one_box 1
           (Some touching_context) = Ok ctx)
  ∧ (1%Z = 0%Z →
     ∃ ctx, Sprune.par_sprune_overlap Z.ltb zero_cells one_box 1 None = Ok ctx).
Proof.
  assert (1 = 0 ∨ 1 = 1)%Z as Hn by (right; reflexivity).
  split; [exact Hn|].
  exact (overlap_few_boxes Z.ltb zero_cells one_box 1 (Some touching_context) Hn).
Defined.


Lemma update_matches_overlap_witness :
  (0 ≤ 3 ≤ 2 ^ 29)%Z
  ∧ Sprune.par_sprune_overlap Z.ltb zero_cells three_boxes 3 None
    = Ok three_boxes_context
  ∧ Forall (λ boxes, boxes_wf Z.ltb boxes 3 = true)
      [three_boxes_moved; three_boxes_moved; three_boxes]
  ∧ Incremental.frames_agree Z.ltb zero_cells three_boxes_context
      [three_boxes_moved; three_boxes_moved; three_boxes].
Proof.
  assert (0 ≤ 3 ≤ 2 ^ 29)%Z as Hn by lia.
  assert (Sprune.par_sprune_overlap Z.ltb zero_cells three_boxes 3 None
          = Ok three_boxes_context) as Hrun by reflexivity.
  assert (Forall (λ boxes, boxes_wf Z.ltb boxes 3 = true)
            [three_boxes_moved; three_boxes_moved; three_boxes]) as Hwf
    by (repeat constructor).
  split; [exact Hn|]. split; [exact Hrun|]. split; [exact Hwf|].
  exact (update_matches_overlap Z.ltb (FltOrder0 := Z_ltb_order) 3 Hn
           zero_cells three_boxes None three_boxes_context _ Hrun Hwf).
Defined.

(** The two scenarios of the interface description. *)
Example cull_three_boxes :
  Sprune.culled (Cull.par_sprune_cull three_boxes_context) = [0%Z].
Proof. reflexivity. Qed.

Example update_three_boxes_moved :
  (λ r, match r with
        | Ok (ctx, changed) => Some (Sprune.collision_pairs ctx, changed)
        | Err _ => None
        end)
    (Incremental.par_sprune_update Z.ltb three_boxes_moved three_boxes_context)
  = Some ([0; 1; 1; 2]%Z, true).
Proof. reflexivity. Qed.

(** Touching boxes are reported when the lower-numbered box is the one
    that starts where the other ends. *)
Example touching_boxes_swapped_run :
  Sprune.reported
    (Sprune.par_sprune_overlap Z.ltb zero_cells touching_boxes_swapped 2 None)
  = Ok ([0; 1]%Z, 1%Z).
Proof. reflexivity. Qed.

Example crossed_boxes_run :
  Sprune.par_sprune_overlap Z.ltb zero_cells crossed_boxes 2 None
  = Err AssertFailed.
Proof. reflexivity. Qed.

Example crossed_box_run :
  Sprune.par_sprune_overlap Z.ltb zero_cells crossed_box 1
    (Some touching_context)
  = Err AssertFailed.
Proof. reflexivity. Qed.

Example reused_context_run :
  Sprune.reported
    (Sprune.par_sprune_overlap Z.ltb stale_cells three_boxes 3 (Some used_context))
  = Ok ([0; 1]%Z, 1%Z).
Proof. reflexivity. Qed.

Example cull_used_context :
  Sprune.culled (Cull.par_sprune_cull used_context) = [0%Z].
Proof. reflexivity. Qed.

Example cull_mutual_boxes :
  (c ← Sprune.par_sprune_overlap Z.ltb zero_cells mutual_boxes 3 None;
   Ok (Sprune.collision_pairs c, Sprune.culled (Cull.par_sprune_cull c)))
  = Ok ([0; 1; 0; 2; 1; 2]%Z, [0; 1]%Z).
Proof. reflexivity. Qed.

Example touching_boxes_wf : boxes_wf Z.ltb touching_boxes 2 = true.
Proof. reflexivity. Qed.

(** * Further properties of the code *)

(** ** [par_sprune__remove], from its caller's side *)

(** X1.  [par_sprune__remove] on an array that holds [val] takes out the last
    cell equal to [val] and keeps the other cells in their order. *)
Theorem remove_drops_last_occurrence arr val :
  val ∈ arr →
  ∃ l1 l2, arr = l1 ++ val :: l2 ∧ (val ∉ l2)
         ∧ par_sprune__remove arr val = Ok (l1 ++ l2).
Proof.
  intros (l1 & l2 & -> & Hval)%list_elem_of_split_r.
  exists l1, l2. split_and!; [done..|]. by apply remove_last_occurrence.
Qed.

(** X2.  The [assert] of [par_sprune__remove] fails exactly when [val] is in no
    cell of the array; the function never reads outside the cells. *)
Theorem remove_fails_iff_absent arr val :
  (par_sprune__remove arr val = Err AssertFailed ↔ val ∉ arr)
  ∧ par_sprune__remove arr val ≠ Err OutOfBounds.
Proof.
  destruct (decide (val ∈ arr)) as [Hin|Hnot].
  - apply list_elem_of_split_r in Hin as (l1 & l2 & -> & Hval).
    rewrite remove_last_occurrence by done. split; [|done].
    split; [done|]. intros Hnot. exfalso. apply Hnot.
    apply elem_of_app. right. by left.
  - rewrite remove_absent by done. done.
Qed.

(** ** The sort and its comparator *)

Section QsortRobust.
Context {T Arg : Type}.
Variable compar : T → T → Arg → Z.
Variable arg : Arg.

Lemma sift_down_short (base : list T) pj :
  0 < pj → length base ≤ pj →
  Qsort.sift_down compar arg base pj = Err OutOfBounds.
Proof.
  intros Hpos Hlen. destruct pj as [|pj]; [lia|]. simpl.
  unfold Qsort.par_qsort_cmpswap.
  destruct (load base pj) as [x|e] eqn:Hx.
  - rewrite bind_Ok. unfold load at 1.
    by rewrite (lookup_ge_None_2 base (S pj)) by lia.
  - unfold load in Hx. by destruct (base !! pj); simplify_eq.
Qed.

Lemma sift_down_length pj : ∀ (base base' : list T),
  Qsort.sift_down compar arg base pj = Ok base' → length base' = length base.
Proof.
  intros base base' H. by apply sift_down_Permutation, Permutation_length in H.
Qed.

Lemma sift_down_outcome pj (base : list T) :
  (∃ base', Qsort.sift_down compar arg base pj = Ok base')
  ∨ Qsort.sift_down compar arg base pj = Err OutOfBounds.
Proof.
  revert base. induction pj as [|pj IH]; intros base; simpl; [by eauto|].
  unfold Qsort.par_qsort_cmpswap.
  destruct (load base pj) as [x|e] eqn:Hx.
  2:{ right. unfold load in Hx. by destruct (base !! pj); simplify_eq. }
  rewrite bind_Ok.
  destruct (load base (S pj)) as [y|e] eqn:Hy.
  2:{ right. unfold load in Hy. by destruct (base !! S pj); simplify_eq. }
  rewrite bind_Ok. destruct (0 <? compar x y arg)%Z; rewrite bind_Ok; [|by eauto].
  apply IH.
Qed.

Lemma insertion_loop_short todo : ∀ (base : list T) pi,
  0 < pi → 0 < todo → length base < pi + todo →
  Qsort.insertion_loop compar arg base pi todo = Err OutOfBounds.
Proof.
  induction todo as [|todo IH]; intros base pi Hpi Htodo Hlen; [lia|].
  simpl. destruct (decide (length base ≤ pi)) as [Hshort|Hlong].
  { by rewrite sift_down_short. }
  destruct (sift_down_outcome pi base) as [[base' Hrun]| ->]; [|done].
  rewrite Hrun, bind_Ok. apply sift_down_length in Hrun.
  apply IH; lia.
Qed.

Lemma median3_short (base : list T) nel :
  length base < nel → Qsort.median3 compar arg base nel = Err OutOfBounds.
Proof.
  intros Hlen. unfold Qsort.median3. cbv zeta.
  assert (load base (nel - 1) = Err OutOfBounds) as Hlast.
  { unfold load. by rewrite lookup_ge_None_2 by lia. }
  assert (∀ i, (∃ x, load base i = Ok x) ∨ load base i = Err OutOfBounds) as Hload.
  { intros i. unfold load. destruct (base !! i); eauto. }
  destruct (Hload 0) as [[x0 H0]|H0]; rewrite H0; [rewrite bind_Ok|done].
  destruct (Hload (nel / 2)) as [[x1 H1]|H1]; rewrite H1; [rewrite bind_Ok|done].
  destruct (0 <? compar x0 x1 arg)%Z; rewrite ?H0, ?H1, bind_Ok, Hlast; done.
Qed.

Lemma par_qsort_short (base : list T) nel :
  1 < nel → length base < nel →
  Qsort.par_qsort compar arg base nel = Err OutOfBounds.
Proof.
  intros Hnel Hlen. rewrite par_qsort_equation.
  destruct (Nat.ltb_spec nel 7).
  - unfold Qsort.insertion_sort. apply insertion_loop_short; lia.
  - unfold Qsort.partition. by rewrite median3_short.
Qed.

(** X3.  [par_qsort] returns exactly when the count is at most one (no cell is
    read then) or the array has [nel] cells; otherwise it reads a cell past
    the end.  No property of the comparator is needed. *)
Theorem par_qsort_returns_iff (base : list T) nel :
  ((∃ base', Qsort.par_qsort compar arg base nel = Ok base')
   ↔ nel ≤ 1 ∨ nel ≤ length base)
  ∧ (Qsort.par_qsort compar arg base nel = Err OutOfBounds
     ↔ 1 < nel ∧ length base < nel).
Proof.
  destruct (decide (nel ≤ 1 ∨ nel ≤ length base)) as [Hok|Hbad].
  - assert (∃ base', Qsort.par_qsort compar arg base nel = Ok base')
      as [base' Hrun].
    { destruct Hok as [Hsmall|Hfit].
      - exists base. destruct nel as [|[|nel]]; [reflexivity|reflexivity|lia].
      - destruct (par_qsort_prefix compar arg base nel Hfit) as (s & Hrun & _).
        eauto. }
    rewrite Hrun. split; (split; [by eauto|]); [by eauto|intros [? ?]; lia].
  - rewrite par_qsort_short by lia. split; [|split; [lia|done]].
    split; [by intros [? ?]|done].
Qed.

(** X4.  Whatever the comparator returns (it need not define an order),
    [par_qsort] on the first [nel] cells of an array returns, permutes these
    cells among themselves and leaves the cells behind them untouched. *)
Theorem par_qsort_any_comparator (base : list T) nel :
  nel ≤ length base →
  ∃ base', Qsort.par_qsort compar arg base nel = Ok base'
    ∧ take nel base' ≡ₚ take nel base
    ∧ drop nel base' = drop nel base.
Proof.
  intros Hnel.
  destruct (par_qsort_prefix compar arg base nel Hnel) as (s & Hrun & Hperm & _).
  assert (length s = nel) as Hlen.
  { rewrite (Permutation_length Hperm), length_take. lia. }
  exists (s ++ drop nel base).
  by rewrite take_app_length', drop_app_length'.
Qed.

(** X5.  The partition step of [par_qsort] (median of three moved to the end,
    then the two scans): the pivot ends at the position returned, with no
    larger cell before it and no smaller cell behind it among the first
    [nel] cells. *)
Theorem partition_splits (base : list T) nel :
  Qsort.cmp_ordered compar arg →
  0 < nel → nel ≤ length base →
  ∃ base' pl p,
    Qsort.partition compar arg base nel = Ok (base', pl)
    ∧ pl < nel ∧ base' !! pl = Some p
    ∧ take nel base' ≡ₚ take nel base ∧ drop nel base' = drop nel base
    ∧ (∀ i x, i < pl → base' !! i = Some x → Qsort.cmp_le compar arg x p)
    ∧ (∀ i x, pl < i < nel → base' !! i = Some x → Qsort.cmp_le compar arg p x).
Proof.
  intros Ho Hpos Hnel.
  assert (length (take nel base) = nel) as Hlen by (rewrite length_take; lia).
  destruct (partition_cut compar arg (take nel base) (drop nel base))
    as (A & p & B & Hrun & Hperm & Hord); [lia|].
  rewrite take_drop, Hlen in Hrun. destruct (Hord Ho) as [HA HB].
  pose proof (Permutation_length Hperm) as HlenAB.
  rewrite length_app in HlenAB. simpl in HlenAB.
  exists (A ++ p :: B ++ drop nel base), (length A), p.
  split_and!; [done|lia|by apply list_lookup_middle| | | |].
  - replace (A ++ p :: B ++ drop nel base) with ((A ++ p :: B) ++ drop nel base)
      by (by rewrite <-(assoc_L (++))).
    rewrite take_app_length' by (rewrite length_app; simpl; lia). done.
  - replace (A ++ p :: B ++ drop nel base) with ((A ++ p :: B) ++ drop nel base)
      by (by rewrite <-(assoc_L (++))).
    rewrite drop_app_length' by (rewrite length_app; simpl; lia). done.
  - intros i x Hi Hx. rewrite lookup_app_l in Hx by done.
    eapply Forall_forall in HA; [exact HA|]. by eapply list_elem_of_lookup_2.
  - intros i x Hi Hx. rewrite lookup_app_r in Hx by lia.
    destruct (i - length A) as [|k] eqn:Hk; [lia|]. simpl in Hx.
    rewrite lookup_app_l in Hx by lia.
    eapply Forall_forall in HB; [exact HB|]. by eapply list_elem_of_lookup_2.
Qed.

End QsortRobust.

Section QsortReads.
Context {T Arg Arg' : Type}.
Variable compar : T → T → Arg → Z.
Variable arg : Arg.
Variable compar' : T → T → Arg' → Z.
Variable arg' : Arg'.

(** The two comparators agree on the cells of [l]. *)
Local Abbreviation agree l :=
  (∀ x y : T, x ∈ l → y ∈ l → compar x y arg = compar' x y arg').

Lemma cmpswap_agree (base : list T) a b :
  agree base →
  Qsort.par_qsort_cmpswap compar arg base a b
  = Qsort.par_qsort_cmpswap compar' arg' base a b.
Proof.
  intros Hag. unfold Qsort.par_qsort_cmpswap.
  destruct (load base a) as [x|] eqn:Hx; [|done].
  destruct (load base b) as [y|] eqn:Hy; [|done].
  rewrite !bind_Ok. apply load_Ok in Hx, Hy.
  rewrite Hag; [done|by eapply list_elem_of_lookup_2..].
Qed.

Lemma sift_down_agree pj : ∀ base : list T,
  agree base →
  Qsort.sift_down compar arg base pj = Qsort.sift_down compar' arg' base pj.
Proof.
  induction pj as [|pj IH]; intros base Hag; [done|]. simpl.
  rewrite <-cmpswap_agree by done.
  destruct (Qsort.par_qsort_cmpswap compar arg base pj (S pj))
    as [[base1 sw]|] eqn:Hswap; [|done].
  rewrite !bind_Ok. destruct sw; [|done].
  apply cmpswap_Permutation in Hswap. apply IH.
  intros x y. rewrite !Hswap. apply Hag.
Qed.

Lemma insertion_loop_agree todo : ∀ (base : list T) pi,
  agree base →
  Qsort.insertion_loop compar arg base pi todo
  = Qsort.insertion_loop compar' arg' base pi todo.
Proof.
  induction todo as [|todo IH]; intros base pi Hag; [done|]. simpl.
  rewrite <-sift_down_agree by done.
  destruct (Qsort.sift_down compar arg base pi) as [base1|] eqn:Hsift; [|done].
  rewrite !bind_Ok. apply sift_down_Permutation in Hsift. apply IH.
  intros x y. rewrite !Hsift. apply Hag.
Qed.

Lemma median3_agree (base : list T) nel :
  agree base →
  Qsort.median3 compar arg base nel = Qsort.median3 compar' arg' base nel.
Proof.
  intros Hag. unfold Qsort.median3. cbv zeta.
  assert (∀ i j x y, load base i = Ok x → load base j = Ok y →
            compar x y arg = compar' x y arg') as Hcmp.
  { intros i j x y Hx%load_Ok Hy%load_Ok.
    apply Hag; by eapply list_elem_of_lookup_2. }
  destruct (load base 0) as [x0|] eqn:H0; [|done].
  destruct (load base (nel / 2)) as [x1|] eqn:H1; [|done].
  rewrite !bind_Ok, <-(Hcmp _ _ _ _ H0 H1).
  destruct (0 <? compar x0 x1 arg)%Z; cbv beta iota;
    rewrite ?H0, ?H1, !bind_Ok;
    (destruct (load base (nel - 1)) as [x2|] eqn:H2; [|done]);
    rewrite !bind_Ok.
  - rewrite <-(Hcmp _ _ _ _ H0 H2).
    destruct (0 <? compar x0 x2 arg)%Z; [|done]. cbv beta iota.
    rewrite ?H0, ?H1, ?H2, ?bind_Ok. by rewrite <-(Hcmp _ _ _ _ H1 H2).
  - rewrite <-(Hcmp _ _ _ _ H1 H2).
    destruct (0 <? compar x1 x2 arg)%Z; [|done]. cbv beta iota.
    rewrite ?H0, ?H1, ?H2, ?bind_Ok. by rewrite <-(Hcmp _ _ _ _ H0 H2).
Qed.

Lemma partition_loop_agree gap : ∀ up (base : list T) pl,
  agree base →
  Qsort.partition_loop compar arg up base pl gap
  = Qsort.partition_loop compar' arg' up base pl gap.
Proof.
  induction gap as [|gap IH]; intros up base pl Hag; [done|]. simpl.
  rewrite <-cmpswap_agree by done.
  destruct (Qsort.par_qsort_cmpswap compar arg base pl (pl + S gap))
    as [[base1 sw]|] eqn:Hswap; [|done].
  rewrite !bind_Ok. apply cmpswap_Permutation in Hswap.
  assert (agree base1) as Hag1 by (intros x y; rewrite !Hswap; apply Hag).
  destruct up, sw; by apply IH.
Qed.

Lemma partition_agree (base : list T) nel :
  agree base →
  Qsort.partition compar arg base nel = Qsort.partition compar' arg' base nel.
Proof.
  intros Hag. unfold Qsort.partition. rewrite <-median3_agree by done.
  destruct (Qsort.median3 compar arg base nel) as [m|]; [|done].
  rewrite !bind_Ok.
  destruct (Qsort.swap_blocks base m (nel - 1)) as [base1|] eqn:Hswap; [|done].
  rewrite !bind_Ok. apply partition_loop_agree.
  unfold Qsort.swap_blocks in Hswap. bind_inv Hswap. bind_inv Hswap.
  apply load_Ok in E, E0. simplify_eq.
  intros x y. rewrite !(exchange_Permutation base m (nel - 1) v v0) by done.
  apply Hag.
Qed.

Lemma par_qsort_rec_agree fuel : ∀ (base : list T) nel,
  agree base →
  Qsort.par_qsort_rec compar arg fuel base nel
  = Qsort.par_qsort_rec compar' arg' fuel base nel.
Proof.
  induction fuel as [|fuel IH]; intros base nel Hag; simpl.
  { destruct (nel <? 7); by apply insertion_loop_agree. }
  destruct (nel <? 7); [by apply insertion_loop_agree|].
  rewrite <-partition_agree by done.
  destruct (Qsort.partition compar arg base nel) as [[base1 pl]|] eqn:Hpart;
    [|done].
  rewrite !bind_Ok. apply partition_Permutation in Hpart.
  assert (agree base1) as Hag1 by (intros x y; rewrite !Hpart; apply Hag).
  rewrite <-(IH base1 pl) by done.
  destruct (Qsort.par_qsort_rec compar arg fuel base1 pl) as [base2|] eqn:Hleft;
    [|done].
  rewrite !bind_Ok. apply par_qsort_rec_Permutation in Hleft.
  rewrite <-(IH (drop (S pl) base2)); [done|].
  intros x y Hx%subseteq_drop Hy%subseteq_drop. rewrite Hleft in Hx, Hy.
  by apply Hag1.
Qed.

(** X6.  [par_qsort] calls the comparator on cells of the array only: two
    comparators that agree on these cells give the same outcome, the same
    array or the same fault. *)
Theorem par_qsort_reads_cells_only (base : list T) nel :
  (∀ x y, x ∈ base → y ∈ base → compar x y arg = compar' x y arg') →
  Qsort.par_qsort compar arg base nel = Qsort.par_qsort compar' arg' base nel.
Proof. apply par_qsort_rec_agree. Qed.

End QsortReads.

Section QsortUnique.
Context {T Arg : Type}.
Variable compar : T → T → Arg → Z.
Variable arg : Arg.
Hypothesis Hordered : Qsort.cmp_ordered compar arg.
Hypothesis Hantisym :
  ∀ x y, (compar x y arg ≤ 0)%Z → (compar y x arg ≤ 0)%Z → x = y.

Lemma sorted_unique (l1 l2 : list T) :
  StronglySorted (Qsort.cmp_le compar arg) l1 →
  StronglySorted (Qsort.cmp_le compar arg) l2 →
  l1 ≡ₚ l2 → l1 = l2.
Proof.
  assert (AntiSymm (=) (Qsort.cmp_le compar arg)) as Hanti
    by (intros x y; apply Hantisym).
  apply (StronglySorted_unique _).
Qed.

End QsortUnique.

(** X7.  For a comparator that defines a total order in which no two distinct
    cells compare equal, the outcome of [par_qsort] on a whole array depends
    on the cells alone, not on the order they come in. *)
Theorem par_qsort_order_independent {T Arg} (compar : T → T → Arg → Z)
    (arg : Arg) (base1 base2 : list T) :
  Qsort.cmp_ordered compar arg →
  (∀ x y, (compar x y arg ≤ 0)%Z → (compar y x arg ≤ 0)%Z → x = y) →
  base1 ≡ₚ base2 →
  Qsort.par_qsort compar arg base1 (length base1)
  = Qsort.par_qsort compar arg base2 (length base2).
Proof.
  intros Ho Ha Hperm.
  destruct (par_qsort_prefix compar arg base1 (length base1))
    as (s1 & -> & Hp1 & Hs1); [done|].
  destruct (par_qsort_prefix compar arg base2 (length base2))
    as (s2 & -> & Hp2 & Hs2); [done|].
  rewrite !drop_all, !app_nil_r. rewrite firstn_all in Hp1, Hp2. f_equal.
  apply (sorted_unique compar arg Ha); [by apply Hs1|by apply Hs2|].
  by rewrite Hp1, Hp2.
Qed.

(** X8.  For such a comparator, [par_qsort] leaves cells that are already in
    order as they are. *)
Theorem par_qsort_sorted_unchanged {T Arg} (compar : T → T → Arg → Z)
    (arg : Arg) (base : list T) (nel : nat) :
  Qsort.cmp_ordered compar arg →
  (∀ x y, (compar x y arg ≤ 0)%Z → (compar y x arg ≤ 0)%Z → x = y) →
  nel ≤ length base →
  StronglySorted (Qsort.cmp_le compar arg) (take nel base) →
  Qsort.par_qsort compar arg base nel = Ok base.
Proof.
  intros Ho Ha Hnel Hsorted.
  destruct (par_qsort_prefix compar arg base nel Hnel) as (s & -> & Hp & Hs).
  f_equal. rewrite <-(take_drop nel base) at 2. f_equal.
  apply (sorted_unique compar arg Ha); [by apply Hs|done..].
Qed.

(** ** The comparators of the sweep *)

(** X9.  [par__cmpinds] on coordinates without NaN: exchanging the arguments
    negates the result, the result is zero for one and the same event only,
    and the order it defines is total and transitive. *)
Theorem cmpinds_strict_total_order {F} (flt_lt : F → F → bool)
    `{!FltOrder flt_lt} (boxes : Z → F) :
  (∀ a b, Sprune.par__cmpinds flt_lt b a {| Sprune.sorter_aabbs := boxes |}
          = (- Sprune.par__cmpinds flt_lt a b {| Sprune.sorter_aabbs := boxes |})%Z)
  ∧ (∀ a b, Sprune.par__cmpinds flt_lt a b {| Sprune.sorter_aabbs := boxes |} = 0%Z
            ↔ a = b)
  ∧ Qsort.cmp_ordered (Sprune.par__cmpinds flt_lt)
      {| Sprune.sorter_aabbs := boxes |}.
Proof.
  split_and!; [| |by apply cmpinds_ordered].
  - intros a b. unfold Sprune.par__cmpinds. simpl.
    destruct (flt_lt (boxes a) (boxes b)) eqn:Hab.
    + by rewrite (flt_asym flt_lt _ _ Hab).
    + destruct (flt_lt (boxes b) (boxes a)); [done|].
      destruct (Z.ltb_spec a b), (Z.ltb_spec b a); lia.
  - intros a b. unfold Sprune.par__cmpinds. simpl. split.
    + destruct (flt_lt (boxes b) (boxes a)); [done|].
      destruct (flt_lt (boxes a) (boxes b)); [done|].
      destruct (Z.ltb_spec b a), (Z.ltb_spec a b); lia.
    + intros ->. by rewrite flt_irrefl, Z.ltb_irrefl.
Qed.

(** X10.  [par__cmppairs] is the lexicographic order on two-tuples: negative
    exactly below, zero exactly on equal tuples, negated when the arguments
    are exchanged; [par__cmpfind], which [bsearch] is given, returns the
    same values. *)
Theorem cmppairs_lexicographic (p q : Z * Z) :
  ((par__cmppairs p q () < 0)%Z ↔ pair_lt p q)
  ∧ (par__cmppairs p q () = 0%Z ↔ p = q)
  ∧ par__cmppairs q p () = (- par__cmppairs p q ())%Z
  ∧ par__cmpfind p q = par__cmppairs p q ().
Proof.
  destruct p as [p1 p2], q as [q1 q2].
  unfold par__cmppairs, par__cmpfind, pair_lt. simpl.
  destruct (Z.ltb_spec q1 p1), (Z.ltb_spec p1 q1), (Z.ltb_spec q2 p2),
    (Z.ltb_spec p2 q2); split_and!; try done; try lia;
    (split; [intros ?|intros ?; simplify_eq]; try lia; try (f_equal; lia)).
Qed.

(** ** The events decoded by the sweep *)

Lemma emit_pairs_flat act c pairs :
  Sprune.emit_pairs act c pairs
  = pairs ++ (act ≫= λ aj, [PAR_MIN aj c; PAR_MAX aj c]).
Proof.
  revert pairs. induction act as [|aj act IH]; intros pairs; simpl.
  { by rewrite app_nil_r. }
  rewrite IH. unfold pa_push. by rewrite <-!(assoc_L (++)).
Qed.

(** X11.  The encoding of the fill loop and the decoding of the sweep fit: on
    the min event of box [c] the sweep emits one pair (smaller, larger) per
    active box, in their order, and appends [c] to the active boxes; on the
    max event it removes [c] from them. *)
Theorem sweep_event_decodes axis act pairs c :
  (axis = 0 ∨ axis = 1)%Z → (0 ≤ c)%Z →
  Sprune.sweep_event axis act pairs (ev_min axis c)
  = Ok (act ++ [c], pairs ++ (act ≫= λ aj, [PAR_MIN aj c; PAR_MAX aj c]))
  ∧ Sprune.sweep_event axis act pairs (ev_max axis c)
    = (act' ← par_sprune__remove act c; Ok (act', pairs)).
Proof.
  intros Hax Hc. split.
  - unfold Sprune.sweep_event.
    destruct (decode_min axis c Hc Hax) as [-> ->].
    by rewrite emit_pairs_flat.
  - by apply sweep_event_max.
Qed.

(** ** The arrays after the fill loop, flags included *)

(** X12.  The first half of a call ([pa_clear], [pa_add], the fill loop),
    for a count below [2 ^ 28] (beyond it [pa___growf] takes a product of an
    [int] by [sizeof(PARINT)] outside [int32_t]).  Whenever it returns, the
    index arrays hold the events [4i, 4i+2] (x) and [4i+1, 4i+3] (y) of the
    boxes in their order, whatever the context and the new cells held.
    Without a previous context it returns unless [n = 1], where the flag of
    the box is written outside the block of the flag array; it then leaves
    index and flag arrays of capacity and count [2 n], the flags in blocks of
    [4 (2 n / 4)] bytes, the first [n] of them cleared and the others never
    written. *)
Theorem init_arrays_cells {F} fresh n (ctx : @Sprune.par_sprune__context F) :
  (0 ≤ n < 2 ^ 28)%Z →
  (∀ s0 s1 f0 f1,
     Sprune.init_arrays fresh n ctx = Ok (s0, s1, f0, f1) →
     index_cells s0 = events 0 n ∧ index_cells s1 = events 1 n)
  ∧ Sprune.init_arrays (F:=F) fresh n Sprune.calloc_context
    = if decide (n = 1%Z)
      then Err OutOfBounds
      else Ok ({| index_header :=
                    Some {| Stretchy.pa___m := n * 2; Stretchy.pa___n := n * 2 |};
                  index_cells := events 0 n |},
               {| index_header :=
                    Some {| Stretchy.pa___m := n * 2; Stretchy.pa___n := n * 2 |};
                  index_cells := events 1 n |},
               {| flag_header :=
                    Some {| Stretchy.pa___m := n * 2; Stretchy.pa___n := n * 2 |};
                  flag_block :=
                    replicate (Z.to_nat n) false
                    ++ drop (Z.to_nat n)
                         (Sprune.fresh_flags0 fresh
                            <$> seq 0 (Z.to_nat (4 * (n * 2 / 4)))) |},
               {| flag_header :=
                    Some {| Stretchy.pa___m := n * 2; Stretchy.pa___n := n * 2 |};
                  flag_block :=
                    replicate (Z.to_nat n) false
                    ++ drop (Z.to_nat n)
                         (Sprune.fresh_flags1 fresh
                            <$> seq 0 (Z.to_nat (4 * (n * 2 / 4)))) |}).
Proof.
  intros Hn. split.
  - intros s0 s1 f0 f1. apply init_arrays_Ok.
  - by apply init_arrays_calloc.
Qed.

(** ** The intersection of the candidate pairs *)

(** X13.  The last part of [par_sprune_overlap], on any two arrays of pairs: the
    result holds the pairs of the first array that occur in the second,
    as often as the first array holds them, in ascending order; what
    [collision_pairs] held before plays no part. *)
Theorem intersect_common_pairs ps0 ps1 coll :
  ∃ out,
    Sprune.intersect (untuples ps0) (untuples ps1) coll = Ok (untuples out)
    ∧ out ≡ₚ filter (λ p, p ∈ ps1) ps0
    ∧ StronglySorted (Qsort.cmp_le par__cmppairs ()) out.
Proof.
  destruct (intersect_filter ps0 ps1 coll) as (s0 & s1 & Hrun & Hp0 & Hp1 & Hs0).
  exists (filter (λ k, k ∈ s1) s0). split_and!; [done| |].
  - rewrite Hp0. apply reflexive_eq, list_filter_iff.
    intros p. by rewrite Hp1.
  - by apply StronglySorted_filter.
Qed.

(** ** The sweep of one axis, start to end *)

Section AxisRun.
Context {F : Type} (flt_lt : F → F → bool) `{!FltOrder flt_lt}.
Variable boxes : Z → F.
Variable n : Z.
Hypothesis Hn : (0 ≤ n ≤ 2 ^ 29)%Z.
Variable axis : Z.
Hypothesis axis01 : (axis = 0 ∨ axis = 1)%Z.

Local Abbreviation srt := {| Sprune.sorter_aabbs := boxes |}.
Local Abbreviation cmpinds := (Sprune.par__cmpinds flt_lt).

Lemma remove_outcome arr val :
  (∃ arr', par_sprune__remove arr val = Ok arr')
  ∨ par_sprune__remove arr val = Err AssertFailed.
Proof.
  destruct (decide (val ∈ arr)) as [Hin|Hnot].
  - apply list_elem_of_split_r in Hin as (l1 & l2 & -> & Hval).
    left. eexists. by apply remove_last_occurrence.
  - right. by apply remove_absent.
Qed.

Lemma sweep_loop_outcome todo : ∀ (E act pairs : list Z) i,
  i + todo ≤ length E →
  (∃ r, Sprune.sweep_loop axis E act pairs i todo = Ok r)
  ∨ Sprune.sweep_loop axis E act pairs i todo = Err AssertFailed.
Proof.
  induction todo as [|todo IH]; intros E act pairs i Hlen; simpl; [by eauto|].
  destruct (load_lt E i) as (e & -> & _); [lia|]. rewrite bind_Ok.
  unfold Sprune.sweep_event.
  destruct ((e - axis) `rem` 4 =? 0)%Z.
  - rewrite bind_Ok. apply IH. lia.
  - destruct (remove_outcome act (e `quot` 4)) as [[act' ->]| ->]; [|by right].
    rewrite !bind_Ok. apply IH. lia.
Qed.

(** In a sweep that returns, every max event comes after the min event of
    its box. *)
Lemma sweep_loop_min_first Q : ∀ P act pairs r,
  (∀ e, e ∈ Q → ∃ c, (0 ≤ c)%Z ∧ (e = ev_min axis c ∨ e = ev_max axis c)) →
  (∀ c, c ∈ act → ev_min axis c ∈ P) →
  Sprune.sweep_loop axis (P ++ Q) act pairs (length P) (length Q) = Ok r →
  ∀ Q1 c Q2, Q = Q1 ++ ev_max axis c :: Q2 → (0 ≤ c)%Z →
    ev_min axis c ∈ P ++ Q1.
Proof.
  induction Q as [|e Q IH]; intros P act pairs r Hev Hact Hrun Q1 c Q2 HQ Hc.
  { by destruct Q1. }
  simpl in Hrun. rewrite load_middle, bind_Ok in Hrun.
  bind_inv Hrun as [act1 pairs1] Hevent.
  replace (P ++ e :: Q) with ((P ++ [e]) ++ Q) in Hrun
    by (by rewrite <-(assoc_L (++))).
  replace (S (length P)) with (length (P ++ [e])) in Hrun
    by (rewrite length_app; simpl; lia).
  destruct Q1 as [|e1 Q1]; simpl in HQ; simplify_eq.
  - rewrite (sweep_event_max axis axis01) in Hevent by done.
    bind_inv Hevent as act' Hrem. apply remove_Ok in Hrem as (l1 & l2 & -> & _).
    rewrite app_nil_r. apply Hact, elem_of_app. right. by left.
  - assert (∀ c', c' ∈ act1 → ev_min axis c' ∈ P ++ [e1]) as Hact1.
    { destruct (Hev e1) as (c1 & Hc1 & [-> | ->]); [by left| |].
      - unfold Sprune.sweep_event in Hevent.
        destruct (decode_min axis c1 Hc1 axis01) as [Hq Hr].
        rewrite Hq, Hr in Hevent. simplify_eq.
        intros c' [Hc'|Hc']%elem_of_app; apply elem_of_app.
        + left. by apply Hact.
        + right. apply list_elem_of_singleton in Hc' as ->. by left.
      - rewrite (sweep_event_max axis axis01) in Hevent by done.
        bind_inv Hevent as act' Hrem.
        apply remove_Ok in Hrem as (l1 & l2 & -> & -> & _). simplify_eq.
        intros c' Hc'. apply elem_of_app. left. apply Hact.
        apply elem_of_app in Hc' as [?|?]; apply elem_of_app; [by left|].
        right. by right. }
    eapply IH in Hrun; [| |exact Hact1|reflexivity|exact Hc].
    + by rewrite <-(assoc_L (++)) in Hrun.
    + intros e He. apply Hev. by right.
Qed.

Lemma sweep_axis_outcome act0 :
  (∃ r, Sprune.sweep_axis flt_lt srt axis (events axis n) act0 n = Ok r)
  ∨ Sprune.sweep_axis flt_lt srt axis (events axis n) act0 n = Err AssertFailed.
Proof.
  destruct (sorted_events flt_lt boxes n axis Hn) as (E & Hrun & Hperm & _).
  unfold Sprune.sweep_axis. rewrite int32_Ok, bind_Ok by lia.
  rewrite Hrun, bind_Ok.
  pose proof (Permutation_length Hperm) as Hlen. rewrite length_events in Hlen.
  destruct (sweep_loop_outcome (Z.to_nat (n * 2)) E (pa_clear act0) [] 0)
    as [[[act pairs] ->]| ->]; [lia| |by right].
  rewrite bind_Ok. eauto.
Qed.

(** A box with min above max on the axis stops the sweep of that axis. *)
Lemma sweep_axis_crossed act0 c :
  (0 ≤ c < n)%Z →
  flt_lt (boxes (ev_max axis c)) (boxes (ev_min axis c)) = true →
  Sprune.sweep_axis flt_lt srt axis (events axis n) act0 n = Err AssertFailed.
Proof.
  intros Hc Hcross.
  destruct (sweep_axis_outcome act0) as [[[[E act] pairs] Hrun]|]; [|done].
  exfalso.
  destruct (sorted_events flt_lt boxes n axis Hn) as (E' & Hsort & Hperm & Hsorted).
  unfold Sprune.sweep_axis in Hrun. rewrite int32_Ok, bind_Ok in Hrun by lia.
  rewrite Hsort, bind_Ok in Hrun.
  bind_inv Hrun as [act1 pairs1] Hloop. simplify_eq.
  pose proof (Permutation_length Hperm) as Hlen. rewrite length_events in Hlen.
  rewrite <-Hlen in Hloop.
  assert (ev_max axis c ∈ E) as Hmax by (rewrite Hperm; by apply ev_max_events).
  apply list_elem_of_split in Hmax as (Q1 & Q2 & ->).
  assert (ev_min axis c ∈ [] ++ Q1) as Hmin.
  { eapply (sweep_loop_min_first (Q1 ++ ev_max axis c :: Q2) [] (pa_clear act0)
              [] (act, pairs)); [| |exact Hloop|reflexivity|lia].
    - intros e He. rewrite Hperm in He.
      apply elem_of_events in He as (c' & Hc' & He). exists c'. split; [lia|done].
    - by intros c' ?%elem_of_nil. }
  simpl in Hmin.
  assert (NoDup (Q1 ++ ev_max axis c :: Q2)) as Hnd
    by (rewrite Hperm; apply NoDup_events).
  pose proof (sorted_before flt_lt boxes Q1 (ev_max axis c :: Q2)
                (ev_min axis c) (ev_max axis c) Hsorted Hnd Hmin) as Hbefore.
  eapply (before_asym flt_lt boxes); [apply Hbefore; by left|].
  apply cmpinds_neg. split; [by apply (flt_asym flt_lt)|by left].
Qed.


End AxisRun.

Lemma forallb_false {A} (f : A → bool) (l : list A) :
  forallb f l = false → ∃ x, x ∈ l ∧ f x = false.
Proof.
  induction l as [|x l IH]; simpl; [done|].
  destruct (f x) eqn:Hx; simpl.
  - intros (y & Hy & Hfy)%IH. exists y. split; [by right|done].
  - intros _. exists x. split; [by left|done].
Qed.

Section Crossed.
Context {F : Type} (flt_lt : F → F → bool) `{!FltOrder flt_lt}.
Implicit Types (fresh : Sprune.fresh_cells) (boxes : Z → F) (n : Z).
Implicit Types (prev : option (@Sprune.par_sprune__context F)).

Lemma collide_crossed boxes n coll0 :
  (0 ≤ n ≤ 2 ^ 29)%Z →
  boxes_wf flt_lt boxes n = false →
  Sprune.collide flt_lt boxes n (events 0 n) (events 1 n) coll0
  = Err AssertFailed.
Proof.
  intros Hn (c & Hc & Hcross)%forallb_false.
  apply elem_of_seqZ in Hc. unfold Sprune.collide.
  apply andb_false_iff in Hcross as [Hx|Hy]; apply negb_false_iff in Hx || apply negb_false_iff in Hy.
  - by rewrite (sweep_axis_crossed flt_lt boxes n Hn 0 (or_introl eq_refl) [] c)
      by (done || lia).
  - destruct (sweep_axis_outcome flt_lt boxes n Hn 0 [])
      as [[[[E0 act0] pairs0] ->]| ->]; [|done].
    rewrite bind_Ok.
    by rewrite (sweep_axis_crossed flt_lt boxes n Hn 1 (or_intror eq_refl) act0 c)
      by (done || lia).
Qed.

(** X15.  A box whose min lies above its max on one of the axes makes the
    [assert] of [par_sprune__remove] fail: the call does not return, and
    for up to [2 ^ 13] boxes it ends on the [assert] once its arrays are set
    up. *)
Theorem overlap_crossed_box_asserts fresh boxes n prev :
  (0 ≤ n ≤ 2 ^ 29)%Z →
  boxes_wf flt_lt boxes n = false →
  (∀ ctx, Sprune.par_sprune_overlap flt_lt fresh boxes n prev ≠ Ok ctx)
  ∧ ((n ≤ 2 ^ 13)%Z →
     ∀ arrays,
       Sprune.init_arrays fresh n (Sprune.context_taken prev) = Ok arrays →
       Sprune.par_sprune_overlap flt_lt fresh boxes n prev = Err AssertFailed).
Proof.
  intros Hn Hwf.
  assert (∀ arrays,
            Sprune.init_arrays fresh n (Sprune.context_taken prev) = Ok arrays →
            Sprune.par_sprune_overlap flt_lt fresh boxes n prev
            = Err AssertFailed) as Hassert.
  { intros [[[s0 s1] f0] f1] Hinit. unfold Sprune.par_sprune_overlap. cbv zeta.
    rewrite Hinit, bind_Ok. apply init_arrays_Ok in Hinit as [H0 H1].
    cbv beta iota. rewrite H0, H1.
    by rewrite collide_crossed. }
  split; [|by intros _]. intros ctx Hrun.
  destruct (Sprune.init_arrays fresh n (Sprune.context_taken prev))
    as [arrays|e] eqn:Hinit.
  - by rewrite (Hassert arrays) in Hrun.
  - unfold Sprune.par_sprune_overlap in Hrun. cbv zeta in Hrun.
    by rewrite Hinit in Hrun.
Qed.

(** X16.  What a call that returns leaves in the other fields of the context:
    the box array and the count as given, [culled] and [nculled] as they
    were, and in [sorted_indices] the events of each axis in ascending order
    of (coordinate, encoding). *)
Theorem overlap_context_fields fresh boxes n prev ctx :
  (0 ≤ n ≤ 2 ^ 29)%Z →
  Sprune.par_sprune_overlap flt_lt fresh boxes n prev = Ok ctx →
  Sprune.aabbs ctx = Some boxes ∧ Sprune.naabbs ctx = n
  ∧ Sprune.culled ctx
    = Sprune.culled match prev with Some c => c | None => Sprune.calloc_context end
  ∧ Sprune.nculled ctx
    = Sprune.nculled match prev with Some c => c | None => Sprune.calloc_context end
  ∧ (Sprune.sorted_cells ctx).1 ≡ₚ events 0 n
  ∧ StronglySorted (Qsort.cmp_le (Sprune.par__cmpinds flt_lt)
                      {| Sprune.sorter_aabbs := boxes |})
      (Sprune.sorted_cells ctx).1
  ∧ (Sprune.sorted_cells ctx).2 ≡ₚ events 1 n
  ∧ StronglySorted (Qsort.cmp_le (Sprune.par__cmpinds flt_lt)
                      {| Sprune.sorter_aabbs := boxes |})
      (Sprune.sorted_cells ctx).2.
Proof.
  intros Hn. unfold Sprune.par_sprune_overlap. cbv zeta. intros H.
  bind_inv H as [[[i0 i1] f0] f1] Hinit.
  apply init_arrays_Ok in Hinit as [H0 H1]. cbv beta iota in H.
  rewrite H0, H1 in H.
  bind_inv H as [[E0 E1] coll] Hrun.
  simplify_eq. simpl. split_and!; try done.
  all: unfold Sprune.collide in Hrun;
    bind_inv Hrun as [[s0 act0] pairs0] Hax0;
    bind_inv Hrun as [[s1 act1] pairs1] Hax1;
    bind_inv Hrun as coll' Hint; simplify_eq;
    unfold Sprune.sweep_axis in Hax0, Hax1;
    rewrite int32_Ok, bind_Ok in Hax0, Hax1 by lia;
    destruct (sorted_events flt_lt boxes n 0 Hn) as (E0' & Hs0 & Hp0 & Hsorted0);
    destruct (sorted_events flt_lt boxes n 1 Hn) as (E1' & Hs1 & Hp1 & Hsorted1);
    rewrite Hs0, bind_Ok in Hax0; rewrite Hs1, bind_Ok in Hax1;
    bind_inv Hax0 as [a0 p0] Hl0; bind_inv Hax1 as [a1 p1] Hl1; by simplify_eq.
Qed.

End Crossed.

Section ReadsBoxes.
Context {F : Type} (flt_lt : F → F → bool).

Lemma sweep_axis_boxes (boxes boxes' : Z → F) n axis act :
  (axis = 0 ∨ axis = 1)%Z →
  (∀ i, (0 ≤ i < n * 4)%Z → boxes i = boxes' i) →
  Sprune.sweep_axis flt_lt {| Sprune.sorter_aabbs := boxes |} axis
    (events axis n) act n
  = Sprune.sweep_axis flt_lt {| Sprune.sorter_aabbs := boxes' |} axis
      (events axis n) act n.
Proof.
  intros Hax Hsame. unfold Sprune.sweep_axis, Qsort.par_qsort.
  destruct (int32 (n * 2)) as [count|]; [rewrite !bind_Ok|done].
  rewrite (par_qsort_rec_agree (Sprune.par__cmpinds flt_lt)
             {| Sprune.sorter_aabbs := boxes |}
             (Sprune.par__cmpinds flt_lt) {| Sprune.sorter_aabbs := boxes' |});
    [done|].
  assert (∀ e, e ∈ events axis n → boxes e = boxes' e) as Hev.
  { intros e (c & Hc & He)%elem_of_events. apply Hsame.
    unfold ev_min, ev_max in He. lia. }
  intros x y Hx Hy. unfold Sprune.par__cmpinds. simpl.
  by rewrite (Hev x Hx), (Hev y Hy).
Qed.

(** What the sweeps and the intersection give on two box arrays that agree
    on the floats [0 .. 4 n). *)
Lemma collide_boxes (boxes boxes' : Z → F) n coll :
  (∀ i, (0 ≤ i < n * 4)%Z → boxes i = boxes' i) →
  Sprune.collide flt_lt boxes n (events 0 n) (events 1 n) coll
  = Sprune.collide flt_lt boxes' n (events 0 n) (events 1 n) coll.
Proof.
  intros Hsame. unfold Sprune.collide. cbv zeta.
  rewrite (sweep_axis_boxes boxes boxes' n 0) by (done || by left).
  destruct (Sprune.sweep_axis flt_lt {| Sprune.sorter_aabbs := boxes' |} 0
              (events 0 n) [] n) as [[[s0 act0] pairs0]|]; [|done].
  rewrite !bind_Ok.
  by rewrite (sweep_axis_boxes boxes boxes' n 1) by (done || by right).
Qed.

(** X17.  The call reads the floats [0 .. 4 n) of the box array and no other:
    two box arrays that agree there give the same report or the same fault,
    whatever the new cells held, on the same previous context, and on any
    two contexts with which the calls can set up their arrays. *)
Theorem overlap_reads_boxes_only fresh fresh' (boxes boxes' : Z → F) n
    (prev prev' : option (@Sprune.par_sprune__context F)) :
  (∀ i, (0 ≤ i < n * 4)%Z → boxes i = boxes' i) →
  Sprune.reported (Sprune.par_sprune_overlap flt_lt fresh boxes n prev)
  = Sprune.reported (Sprune.par_sprune_overlap flt_lt fresh' boxes' n prev)
  ∧ (∀ arrays arrays',
       Sprune.init_arrays fresh n (Sprune.context_taken prev) = Ok arrays →
       Sprune.init_arrays fresh' n (Sprune.context_taken prev') = Ok arrays' →
       Sprune.reported (Sprune.par_sprune_overlap flt_lt fresh boxes n prev)
       = Sprune.reported (Sprune.par_sprune_overlap flt_lt fresh' boxes' n prev')).
Proof.
  intros Hsame. rewrite !reported_overlap. split.
  - pose proof (init_arrays_fresh fresh fresh' n (Sprune.context_taken prev))
      as Hinit.
    destruct (Sprune.init_arrays fresh n _) as [[[[i0 i1] f0] f1]|e],
      (Sprune.init_arrays fresh' n _) as [[[[i0' i1'] f0'] f1']|e']; try done;
      [|by subst].
    rewrite !bind_Ok. by rewrite (collide_boxes boxes boxes').
  - intros arrays arrays' Hinit Hinit'. rewrite Hinit, Hinit', !bind_Ok.
    by rewrite (collide_boxes boxes boxes').
Qed.

End ReadsBoxes.

(** ** The report against open and closed intervals *)

Section Sandwich.
Context {F : Type} (flt_lt : F → F → bool) `{!FltOrder flt_lt}.

Lemma sweep_between_open_closed (boxes : Z → F) axis a b :
  (open_overlap flt_lt boxes axis a b = true →
   sweep_overlap flt_lt boxes axis a b = true)
  ∧ (sweep_overlap flt_lt boxes axis a b = true →
     closed_overlap flt_lt boxes axis a b = true).
Proof.
  unfold open_overlap, sweep_overlap, closed_overlap.
  rewrite !andb_true_iff, !negb_true_iff. split.
  - intros [H1 H2]. split; [by apply (flt_asym flt_lt)|done].
  - intros [H1 H2]. split; [done|by apply (flt_asym flt_lt)].
Qed.

(** X25.  For well-formed boxes the report lies between the two readings of
    "overlap": every pair reported has closed intervals that meet on both
    axes, and every pair whose intervals share more than an end point on
    both axes is reported; for up to [2 ^ 13] boxes the call returns once
    its arrays are set up. *)
Theorem overlap_between_open_and_closed fresh boxes n
    (prev : option (@Sprune.par_sprune__context F)) :
  boxes_wf flt_lt boxes n = true →
  (0 ≤ n ≤ 2 ^ 29)%Z →
  (∀ ctx,
     Sprune.par_sprune_overlap flt_lt fresh boxes n prev = Ok ctx →
     (∀ a b, (a, b) ∈ tuples (Sprune.collision_pairs ctx) →
        closed_overlap flt_lt boxes 0 a b = true
        ∧ closed_overlap flt_lt boxes 1 a b = true)
     ∧ (∀ a b, (0 ≤ a < b ∧ b < n)%Z →
          open_overlap flt_lt boxes 0 a b = true →
          open_overlap flt_lt boxes 1 a b = true →
          (a, b) ∈ tuples (Sprune.collision_pairs ctx)))
  ∧ ((n ≤ 2 ^ 13)%Z →
     ∀ arrays,
       Sprune.init_arrays fresh n (Sprune.context_taken prev) = Ok arrays →
       ∃ ctx, Sprune.par_sprune_overlap flt_lt fresh boxes n prev = Ok ctx).
Proof.
  intros Hwf Hn.
  destruct (collide_strong flt_lt boxes n Hwf Hn [])
    as (E0 & E1 & coll & Hrun & _ & _ & Hcoll).
  split.
  - intros ctx (E0' & E1' & Hrun' & _)%overlap_Ok.
    rewrite Hrun in Hrun'. injection Hrun' as _ _ Hpairs.
    rewrite <-Hpairs, tuples_untuples. split.
    + intros a b (_ & H0 & H1)%Hcoll.
      split; by apply sweep_between_open_closed.
    + intros a b Hab H0 H1. apply Hcoll.
      split; [done|split; by apply sweep_between_open_closed].
  - intros _ arrays Hinit.
    destruct (overlap_collide flt_lt fresh boxes n prev _ _ _ _ Hinit Hrun)
      as (ctx & Hctx & _).
    by exists ctx.
Qed.

(** X27.  What a call that returns reports for well-formed boxes, exactly:
    the pairs [(a, b)] with [0 ≤ a < b < n] and, on both axes, [a.min ≤ b.max]
    and [b.min < a.max].  Two boxes that only touch are reported when the
    lower-numbered one starts where the other ends, and not when it ends
    where the other starts. *)
Theorem overlap_pairs_exact fresh boxes n
    (prev : option (@Sprune.par_sprune__context F)) ctx :
  boxes_wf flt_lt boxes n = true →
  (0 ≤ n ≤ 2 ^ 29)%Z →
  Sprune.par_sprune_overlap flt_lt fresh boxes n prev = Ok ctx →
  ∀ a b, (a, b) ∈ tuples (Sprune.collision_pairs ctx) ↔
    (0 ≤ a < b ∧ b < n)%Z
    ∧ sweep_overlap flt_lt boxes 0 a b = true
    ∧ sweep_overlap flt_lt boxes 1 a b = true.
Proof.
  intros Hwf Hn (E0' & E1' & Hrun' & _)%overlap_Ok.
  destruct (collide_strong flt_lt boxes n Hwf Hn [])
    as (E0 & E1 & coll & Hrun & _ & _ & Hcoll).
  rewrite Hrun in Hrun'. injection Hrun' as _ _ Hpairs.
  intros a b. by rewrite <-Hpairs, tuples_untuples.
Qed.

End Sandwich.

(** ** The number of pairs *)

Lemma length_pairs_below (k : nat) :
  (2 * Z.of_nat (length (pairs_below (Z.of_nat k))) = Z.of_nat k * (Z.of_nat k - 1))%Z.
Proof.
  unfold pairs_below. induction k as [|k IH]; [done|].
  rewrite seqZ_S, bind_app, length_app. simpl.
  rewrite app_nil_r, length_fmap, length_seqZ. lia.
Qed.

Lemma elem_of_pairs_below n a b :
  (a, b) ∈ pairs_below n ↔ (0 ≤ a < b ∧ b < n)%Z.
Proof.
  unfold pairs_below. rewrite list_elem_of_bind. split.
  - intros (b' & (a' & ? & Ha)%list_elem_of_fmap & Hb). simplify_eq.
    apply elem_of_seqZ in Ha, Hb. lia.
  - intros Hab. exists b. split; [|apply elem_of_seqZ; lia].
    apply list_elem_of_fmap. exists a. split; [done|]. apply elem_of_seqZ. lia.
Qed.

(** X18.  A call on [n] boxes reports at most [n (n - 1) / 2] pairs. *)
Theorem overlap_pairs_bound {F} (flt_lt : F → F → bool) fresh boxes n prev ctx :
  (0 ≤ n)%Z →
  Sprune.par_sprune_overlap flt_lt fresh boxes n prev = Ok ctx →
  (0 ≤ Sprune.ncollision_pairs ctx)%Z
  ∧ (2 * Sprune.ncollision_pairs ctx ≤ n * (n - 1))%Z.
Proof.
  intros Hn (E0 & E1 & Hrun & Hcount & _)%overlap_Ok.
  apply collide_weak in Hrun as (_ & _ & coll & Hcoll & Hsorted & Hrange).
  rewrite Hcount, Hcoll. unfold pa_count. rewrite length_untuples.
  replace (Z.of_nat (2 * length coll)) with (Z.of_nat (length coll) * 2)%Z by lia.
  rewrite Z.quot_mul by lia. split; [lia|].
  assert (length coll ≤ length (pairs_below n)) as Hlen.
  { apply submseteq_length, NoDup_submseteq; [by apply pair_lt_sorted_NoDup|].
    intros [a b] Hab. apply elem_of_pairs_below. by apply Hrange. }
  pose proof (length_pairs_below (Z.to_nat n)) as Hbelow.
  rewrite Z2Nat.id in Hbelow by done. lia.
Qed.

(** ** The header of a stretchy array *)

Lemma maybegrow_room a n itemsize :
  ∃ h, Stretchy.pa___maybegrow true a n itemsize = Some h
       ∧ Stretchy.pa___n h = Stretchy.pa_count a
       ∧ (Stretchy.pa___n h + n ≤ Stretchy.pa___m h)%Z
       ∧ (∀ h0, a = Some h0 → (0 ≤ Stretchy.pa___m h0)%Z →
            (Stretchy.pa___m h0 ≤ Stretchy.pa___m h)%Z).
Proof.
  unfold Stretchy.pa___maybegrow, Stretchy.pa___needgrow, Stretchy.pa___growf,
    Stretchy.growf_capacity.
  destruct a as [h0|]; cbn [Stretchy.pa_count].
  - destruct (Z.leb_spec (Stretchy.pa___m h0) (Stretchy.pa___n h0 + n)).
    + eexists; split; [reflexivity|]. cbn.
      destruct (Z.ltb_spec (Stretchy.pa___n h0 + n) (2 * Stretchy.pa___m h0));
        split_and!; try lia; intros ? [= <-] ?; lia.
    + exists h0. split_and!; try done; try lia. intros ? [= <-] ?; lia.
  - eexists; split; [reflexivity|]. cbn.
    destruct (Z.ltb_spec (0 + n) 0); split_and!; try lia; done.
Qed.




Lemma push_step a itemsize :
  (∀ h, a = Some h →
     (0 ≤ Stretchy.pa___n h)%Z ∧ (Stretchy.pa___m h ≤ 2 * Stretchy.pa___n h)%Z) →
  ∃ h, Stretchy.pa_push true a itemsize = Ok (Stretchy.pa_count a, h)
       ∧ Stretchy.pa___n h = (Stretchy.pa_count a + 1)%Z
       ∧ (Stretchy.pa___n h ≤ Stretchy.pa___m h ≤ 2 * Stretchy.pa___n h)%Z.
Proof.
  intros Hm.
  unfold Stretchy.pa_push, Stretchy.pa___maybegrow, Stretchy.pa___needgrow,
    Stretchy.pa___growf, Stretchy.growf_capacity.
  destruct a as [h0|]; cbn [Stretchy.pa_count].
  - destruct (Hm _ eq_refl) as [Hn0 Hm0].
    destruct (Z.leb_spec (Stretchy.pa___m h0) (Stretchy.pa___n h0 + 1)).
    + eexists; split; [reflexivity|]. cbn.
      destruct (Z.ltb_spec (Stretchy.pa___n h0 + 1) (2 * Stretchy.pa___m h0)); lia.
    + eexists; split; [reflexivity|]. cbn. lia.
  - eexists; split; [reflexivity|]. cbn. destruct (Z.ltb_spec (0 + 1) 0); lia.
Qed.

Lemma pushes_step a itemsize k :
  (∀ h, a = Some h →
     (0 ≤ Stretchy.pa___n h)%Z ∧ (Stretchy.pa___m h ≤ 2 * Stretchy.pa___n h)%Z) →
  ∃ h, Stretchy.pushes true a itemsize (S k) = Ok (Some h)
       ∧ Stretchy.pa___n h = (Stretchy.pa_count a + Z.of_nat (S k))%Z
       ∧ (Stretchy.pa___n h ≤ Stretchy.pa___m h ≤ 2 * Stretchy.pa___n h)%Z.
Proof.
  revert a. induction k as [|k IH]; intros a Hm.
  - destruct (push_step a itemsize Hm) as (h & Hp & Hn & Hb).
    exists h. cbn [Stretchy.pushes]. rewrite Hp. cbn. split_and!; [done|lia|lia..].
  - destruct (push_step a itemsize Hm) as (h & Hp & Hn & Hb).
    assert (0 ≤ Stretchy.pa_count a)%Z as Hc.
    { destruct a as [h0|]; cbn; [apply (Hm _ eq_refl)|lia]. }
    destruct (IH (Some h)) as (h' & Hp' & Hn' & Hb').
    { intros ? [= <-]. lia. }
    exists h'. change (Stretchy.pushes true a itemsize (S (S k)))
      with ('(_, h) ← Stretchy.pa_push true a itemsize;
            Stretchy.pushes true (Some h) itemsize (S k)).
    rewrite Hp. cbn [mbind result_bind]. rewrite Hp'.
    cbn [Stretchy.pa_count] in Hn'. split_and!; [done|lia|lia..].
Qed.


(** X23.  Behind its header, the block [pa___growf] asks for has
    [itemsize * m] bytes rounded down to a multiple of [sizeof(int)], for a
    product [itemsize * m] that is an [int] and not negative: it holds the
    [m] cells of the new capacity only when [itemsize * m] is such a
    multiple, and is short by the remainder otherwise. *)
Theorem growf_payload_rounds_down arr increment itemsize :
  (0 ≤ itemsize * Stretchy.growf_capacity arr increment < 2 ^ 31)%Z →
  Stretchy.growf_payload arr increment itemsize
  = Ok (itemsize * Stretchy.growf_capacity arr increment
        - (itemsize * Stretchy.growf_capacity arr increment) mod 4)%Z.
Proof.
  intros Hr. unfold Stretchy.growf_payload, Stretchy.growf_bytes. cbv zeta.
  rewrite int32_Ok, !bind_Ok by lia. f_equal.
  rewrite (Z.mod_small (itemsize * Stretchy.growf_capacity arr increment)
             (2 ^ 64)) by lia.
  pose proof (Z.div_mod (itemsize * Stretchy.growf_capacity arr increment) 4
                ltac:(lia)) as Hdiv.
  pose proof (Z.mod_pos_bound
                (itemsize * Stretchy.growf_capacity arr increment) 4
                ltac:(lia)) as Hmod.
  rewrite Z.mod_small by lia. lia.
Qed.

(** X24.  The flags of [par_sprune_overlap] are one-byte cells: for an odd
    count [n] of boxes and a null array, [pa_add(flags, n * 2)] asks for a
    block two bytes short of its [2 n] cells (with one box, for no byte
    behind the header at all). *)
Theorem flags_block_short n :
  (0 < n < 2 ^ 29)%Z → (n mod 2 = 1)%Z →
  Stretchy.growf_capacity None (n * 2) = (n * 2)%Z
  ∧ Stretchy.growf_payload None (n * 2) 1 = Ok (n * 2 - 2)%Z.
Proof.
  intros Hn Hodd.
  assert (Stretchy.growf_capacity None (n * 2) = (n * 2)%Z) as Hc.
  { unfold Stretchy.growf_capacity. cbn [Stretchy.pa_count].
    destruct (Z.ltb_spec (0 + n * 2) 0); lia. }
  split; [done|].
  unfold Stretchy.growf_payload, Stretchy.growf_bytes. cbv zeta.
  rewrite Hc, Z.mul_1_l, int32_Ok, !bind_Ok by lia. f_equal.
  rewrite (Z.mod_small (n * 2)) by lia.
  pose proof (Z.div_mod n 2 ltac:(lia)) as Hdiv.
  rewrite <-(Z.div_unique (n * 2) 4 (n / 2) 2) by lia.
  rewrite Z.mod_small by lia. lia.
Qed.

(** ** The further properties on sample inputs *)

Lemma zcompar_ordered : Qsort.cmp_ordered zcompar ().
Proof. split; unfold zcompar; intros; lia. Qed.

Lemma zcompar_antisym x y :
  (zcompar x y () ≤ 0)%Z → (zcompar y x () ≤ 0)%Z → x = y.
Proof. unfold zcompar. lia. Qed.

Lemma remove_drops_last_occurrence_witness :
  3%Z ∈ [3; 1; 3; 2]%Z
  ∧ ∃ l1 l2, [3; 1; 3; 2]%Z = l1 ++ 3%Z :: l2 ∧ (3%Z ∉ l2)
           ∧ par_sprune__remove [3; 1; 3; 2]%Z 3 = Ok (l1 ++ l2).
Proof.
  assert (3%Z ∈ [3; 1; 3; 2]%Z) as Hin by (by left).
  split; [exact Hin|].
  exact (remove_drops_last_occurrence [3; 1; 3; 2]%Z 3 Hin).
Defined.

Lemma par_qsort_any_comparator_witness :
  10 ≤ length sample_array
  ∧ ∃ base', Qsort.par_qsort one_compar () sample_array 10 = Ok base'
      ∧ take 10 base' ≡ₚ take 10 sample_array
      ∧ drop 10 base' = drop 10 sample_array.
Proof.
  assert (10 ≤ length sample_array) as Hl by (simpl; lia).
  split; [exact Hl|].
  exact (par_qsort_any_comparator one_compar () sample_array 10 Hl).
Defined.

Lemma partition_splits_witness :
  Qsort.cmp_ordered zcompar ()
  ∧ 0 < 10 ∧ 10 ≤ length sample_array
  ∧ ∃ base' pl p,
      Qsort.partition zcompar () sample_array 10 = Ok (base', pl)
      ∧ pl < 10 ∧ base' !! pl = Some p
      ∧ take 10 base' ≡ₚ take 10 sample_array
      ∧ drop 10 base' = drop 10 sample_array
      ∧ (∀ i x, i < pl → base' !! i = Some x → Qsort.cmp_le zcompar () x p)
      ∧ (∀ i x, pl < i < 10 → base' !! i = Some x → Qsort.cmp_le zcompar () p x).
Proof.
  assert (0 < 10) as Hpos by lia.
  assert (10 ≤ length sample_array) as Hl by (simpl; lia).
  split; [exact zcompar_ordered|]. split; [exact Hpos|]. split; [exact Hl|].
  exact (partition_splits zcompar () sample_array 10 zcompar_ordered Hpos Hl).
Defined.

Lemma clamped_compar_agrees x y :
  x ∈ sample_array → y ∈ sample_array → zcompar x y () = clamped_compar x y true.
Proof.
  assert (Forall (λ x, 0 ≤ x < 10)%Z sample_array) as Hall
    by (repeat constructor; lia).
  rewrite Forall_forall in Hall. intros Hx%Hall Hy%Hall.
  unfold zcompar, clamped_compar.
  destruct (Z.leb_spec 0 x), (Z.ltb_spec x 10), (Z.leb_spec 0 y),
    (Z.ltb_spec y 10); simpl; lia.
Qed.

Lemma par_qsort_reads_cells_only_witness :
  (∀ x y, x ∈ sample_array → y ∈ sample_array →
     zcompar x y () = clamped_compar x y true)
  ∧ Qsort.par_qsort zcompar () sample_array 10
    = Qsort.par_qsort clamped_compar true sample_array 10.
Proof.
  split; [exact clamped_compar_agrees|].
  exact (par_qsort_reads_cells_only zcompar () clamped_compar true
           sample_array 10 clamped_compar_agrees).
Defined.

Lemma par_qsort_order_independent_witness :
  Qsort.cmp_ordered zcompar ()
  ∧ (∀ x y, (zcompar x y () ≤ 0)%Z → (zcompar y x () ≤ 0)%Z → x = y)
  ∧ sample_array ≡ₚ reverse sample_array
  ∧ Qsort.par_qsort zcompar () sample_array (length sample_array)
    = Qsort.par_qsort zcompar () (reverse sample_array)
        (length (reverse sample_array)).
Proof.
  assert (sample_array ≡ₚ reverse sample_array) as Hperm
    by (symmetry; apply reverse_Permutation).
  split; [exact zcompar_ordered|]. split; [exact zcompar_antisym|].
  split; [exact Hperm|].
  exact (par_qsort_order_independent zcompar () sample_array
           (reverse sample_array) zcompar_ordered zcompar_antisym Hperm).
Defined.

Lemma par_qsort_sorted_unchanged_witness :
  Qsort.cmp_ordered zcompar ()
  ∧ (∀ x y, (zcompar x y () ≤ 0)%Z → (zcompar y x () ≤ 0)%Z → x = y)
  ∧ 4 ≤ length [1; 2; 3; 9; 4]%Z
  ∧ StronglySorted (Qsort.cmp_le zcompar ()) (take 4 [1; 2; 3; 9; 4]%Z)
  ∧ Qsort.par_qsort zcompar () [1; 2; 3; 9; 4]%Z 4 = Ok [1; 2; 3; 9; 4]%Z.
Proof.
  assert (4 ≤ length [1; 2; 3; 9; 4]%Z) as Hl by (simpl; lia).
  assert (StronglySorted (Qsort.cmp_le zcompar ()) (take 4 [1; 2; 3; 9; 4]%Z))
    as Hs by (repeat constructor; unfold Qsort.cmp_le, zcompar; lia).
  split; [exact zcompar_ordered|]. split; [exact zcompar_antisym|].
  split; [exact Hl|]. split; [exact Hs|].
  exact (par_qsort_sorted_unchanged zcompar () [1; 2; 3; 9; 4]%Z 4
           zcompar_ordered zcompar_antisym Hl Hs).
Defined.

Lemma cmpinds_strict_total_order_witness :
  FltOrder Z.ltb
  ∧ (∀ a b, Sprune.par__cmpinds Z.ltb b a {| Sprune.sorter_aabbs := three_boxes |}
            = (- Sprune.par__cmpinds Z.ltb a b
                   {| Sprune.sorter_aabbs := three_boxes |})%Z)
  ∧ (∀ a b, Sprune.par__cmpinds Z.ltb a b {| Sprune.sorter_aabbs := three_boxes |}
            = 0%Z ↔ a = b)
  ∧ Qsort.cmp_ordered (Sprune.par__cmpinds Z.ltb)
      {| Sprune.sorter_aabbs := three_boxes |}.
Proof.
  split; [exact Z_ltb_order|].
  exact (cmpinds_strict_total_order Z.ltb (FltOrder0 := Z_ltb_order) three_boxes).
Defined.

Lemma sweep_event_decodes_witness :
  (0 = 0 ∨ 0 = 1)%Z ∧ (0 ≤ 2)%Z
  ∧ Sprune.sweep_event 0 [0; 1]%Z [0; 1]%Z (ev_min 0 2)
    = Ok ([0; 1]%Z ++ [2%Z],
          [0; 1]%Z ++ ([0; 1]%Z ≫= λ aj, [PAR_MIN aj 2; PAR_MAX aj 2]))
  ∧ Sprune.sweep_event 0 [0; 1]%Z [0; 1]%Z (ev_max 0 2)
    = (act' ← par_sprune__remove [0; 1]%Z 2; Ok (act', [0; 1]%Z)).
Proof.
  assert (0 = 0 ∨ 0 = 1)%Z as Hax by (left; reflexivity).
  assert (0 ≤ 2)%Z as Hc by lia.
  split; [exact Hax|]. split; [exact Hc|].
  exact (sweep_event_decodes 0 [0; 1]%Z [0; 1]%Z 2 Hax Hc).
Defined.


Lemma overlap_crossed_box_asserts_witness :
  (0 ≤ 2 ≤ 2 ^ 29)%Z
  ∧ boxes_wf Z.ltb crossed_boxes 2 = false
  ∧ (∀ ctx, Sprune.par_sprune_overlap Z.ltb zero_cells crossed_boxes 2 None
            ≠ Ok ctx)
  ∧ ((2 ≤ 2 ^ 13)%Z →
     ∀ arrays,
       Sprune.init_arrays zero_cells 2 (Sprune.context_taken (F:=Z) None)
       = Ok arrays →
       Sprune.par_sprune_overlap Z.ltb zero_cells crossed_boxes 2 None
       = Err AssertFailed).
Proof.
  assert (0 ≤ 2 ≤ 2 ^ 29)%Z as Hn by lia.
  assert (boxes_wf Z.ltb crossed_boxes 2 = false) as Hwf by reflexivity.
  split; [exact Hn|]. split; [exact Hwf|].
  exact (overlap_crossed_box_asserts Z.ltb (FltOrder0 := Z_ltb_order)
           zero_cells crossed_boxes 2 None Hn Hwf).
Defined.

Lemma overlap_context_fields_witness :
  (0 ≤ 3 ≤ 2 ^ 29)%Z
  ∧ ∃ ctx,
      Sprune.par_sprune_overlap Z.ltb stale_cells three_boxes 3 (Some used_context)
      = Ok ctx
      ∧ Sprune.aabbs ctx = Some three_boxes ∧ Sprune.naabbs ctx = 3%Z
      ∧ Sprune.culled ctx = Sprune.culled used_context
      ∧ Sprune.nculled ctx = Sprune.nculled used_context
      ∧ (Sprune.sorted_cells ctx).1 ≡ₚ events 0 3
      ∧ StronglySorted (Qsort.cmp_le (Sprune.par__cmpinds Z.ltb)
                          {| Sprune.sorter_aabbs := three_boxes |})
          (Sprune.sorted_cells ctx).1
      ∧ (Sprune.sorted_cells ctx).2 ≡ₚ events 1 3
      ∧ StronglySorted (Qsort.cmp_le (Sprune.par__cmpinds Z.ltb)
                          {| Sprune.sorter_aabbs := three_boxes |})
          (Sprune.sorted_cells ctx).2.
Proof.
  assert (0 ≤ 3 ≤ 2 ^ 29)%Z as Hn by lia.
  split; [exact Hn|]. eexists. split; [reflexivity|].
  exact (overlap_context_fields Z.ltb (FltOrder0 := Z_ltb_order) stale_cells
           three_boxes 3 (Some used_context) _ Hn eq_refl).
Defined.

Lemma padded_boxes_agree i :
  (0 ≤ i < 3 * 4)%Z → three_boxes i = three_boxes_padded i.
Proof.
  intros Hi. unfold three_boxes, three_boxes_padded, zboxes.
  destruct (Z.to_nat i) as [|k] eqn:Hk; [done|].
  do 11 (destruct k as [|k]; [done|]). lia.
Qed.

Lemma overlap_reads_boxes_only_witness :
  (∀ i, (0 ≤ i < 3 * 4)%Z → three_boxes i = three_boxes_padded i)
  ∧ Sprune.reported
      (Sprune.par_sprune_overlap Z.ltb zero_cells three_boxes 3 None)
    = Sprune.reported
        (Sprune.par_sprune_overlap Z.ltb stale_cells three_boxes_padded 3 None)
  ∧ (∀ arrays arrays',
       Sprune.init_arrays zero_cells 3 (Sprune.context_taken (F:=Z) None)
       = Ok arrays →
       Sprune.init_arrays stale_cells 3 (Sprune.context_taken (Some used_context))
       = Ok arrays' →
       Sprune.reported
         (Sprune.par_sprune_overlap Z.ltb zero_cells three_boxes 3 None)
       = Sprune.reported
           (Sprune.par_sprune_overlap Z.ltb stale_cells three_boxes_padded 3
              (Some used_context))).
Proof.
  split; [exact padded_boxes_agree|].
  exact (overlap_reads_boxes_only Z.ltb zero_cells stale_cells three_boxes
           three_boxes_padded 3 None (Some used_context) padded_boxes_agree).
Defined.

Lemma overlap_pairs_bound_witness :
  (0 ≤ 3)%Z
  ∧ ∃ ctx,
      Sprune.par_sprune_overlap Z.ltb zero_cells mutual_boxes 3 None = Ok ctx
      ∧ (0 ≤ Sprune.ncollision_pairs ctx)%Z
      ∧ (2 * Sprune.ncollision_pairs ctx ≤ 3 * (3 - 1))%Z.
Proof.
  assert (0 ≤ 3)%Z as Hn by lia.
  split; [exact Hn|]. eexists. split; [reflexivity|].
  exact (overlap_pairs_bound Z.ltb zero_cells mutual_boxes 3 None _ Hn eq_refl).
Defined.


Lemma growf_payload_rounds_down_witness :
  (0 ≤ 1 * Stretchy.growf_capacity None 6 < 2 ^ 31)%Z
  ∧ Stretchy.growf_payload None 6 1
    = Ok (1 * Stretchy.growf_capacity None 6
          - (1 * Stretchy.growf_capacity None 6) mod 4)%Z.
Proof.
  assert (0 ≤ 1 * Stretchy.growf_capacity None 6 < 2 ^ 31)%Z as Hr
    by (vm_compute; split; [discriminate|reflexivity]).
  split; [exact Hr|].
  exact (growf_payload_rounds_down None 6 1 Hr).
Defined.

Lemma flags_block_short_witness :
  (0 < 1 < 2 ^ 29)%Z ∧ (1 mod 2 = 1)%Z
  ∧ Stretchy.growf_capacity None (1 * 2) = (1 * 2)%Z
  ∧ Stretchy.growf_payload None (1 * 2) 1 = Ok (1 * 2 - 2)%Z.
Proof.
  assert (0 < 1 < 2 ^ 29)%Z as Hn by lia.
  assert (1 mod 2 = 1)%Z as Hodd by reflexivity.
  split; [exact Hn|]. split; [exact Hodd|].
  exact (flags_block_short 1 Hn Hodd).
Defined.

Lemma init_arrays_cells_witness :
  (0 ≤ 3 < 2 ^ 28)%Z
  ∧ (∀ s0 s1 f0 f1,
       Sprune.init_arrays stale_cells 3 used_context = Ok (s0, s1, f0, f1) →
       index_cells s0 = events 0 3 ∧ index_cells s1 = events 1 3)
  ∧ Sprune.init_arrays (F:=Z) stale_cells 3 Sprune.calloc_context
    = if decide (3%Z = 1%Z)
      then Err OutOfBounds
      else Ok ({| index_header :=
                    Some {| Stretchy.pa___m := 3 * 2; Stretchy.pa___n := 3 * 2 |};
                  index_cells := events 0 3 |},
               {| index_header :=
                    Some {| Stretchy.pa___m := 3 * 2; Stretchy.pa___n := 3 * 2 |};
                  index_cells := events 1 3 |},
               {| flag_header :=
                    Some {| Stretchy.pa___m := 3 * 2; Stretchy.pa___n := 3 * 2 |};
                  flag_block :=
                    replicate (Z.to_nat 3) false
                    ++ drop (Z.to_nat 3)
                         (Sprune.fresh_flags0 stale_cells
                            <$> seq 0 (Z.to_nat (4 * (3 * 2 / 4)))) |},
               {| flag_header :=
                    Some {| Stretchy.pa___m := 3 * 2; Stretchy.pa___n := 3 * 2 |};
                  flag_block :=
                    replicate (Z.to_nat 3) false
                    ++ drop (Z.to_nat 3)
                         (Sprune.fresh_flags1 stale_cells
                            <$> seq 0 (Z.to_nat (4 * (3 * 2 / 4)))) |}).
Proof.
  assert (0 ≤ 3 < 2 ^ 28)%Z as Hn by lia.
  split; [exact Hn|].
  exact (init_arrays_cells stale_cells 3 used_context Hn).
Defined.

Lemma overlap_between_open_and_closed_witness :
  boxes_wf Z.ltb touching_boxes 2 = true
  ∧ (0 ≤ 2 ≤ 2 ^ 29)%Z
  ∧ (∀ ctx,
       Sprune.par_sprune_overlap Z.ltb zero_cells touching_boxes 2 None = Ok ctx →
       (∀ a b, (a, b) ∈ tuples (Sprune.collision_pairs ctx) →
          closed_overlap Z.ltb touching_boxes 0 a b = true
          ∧ closed_overlap Z.ltb touching_boxes 1 a b = true)
       ∧ (∀ a b, (0 ≤ a < b ∧ b < 2)%Z →
            open_overlap Z.ltb touching_boxes 0 a b = true →
            open_overlap Z.ltb touching_boxes 1 a b = true →
            (a, b) ∈ tuples (Sprune.collision_pairs ctx)))
  ∧ ((2 ≤ 2 ^ 13)%Z →
     ∀ arrays,
       Sprune.init_arrays zero_cells 2 (Sprune.context_taken (F:=Z) None)
       = Ok arrays →
       ∃ ctx,
         Sprune.par_sprune_overlap Z.ltb zero_cells touching_boxes 2 None = Ok ctx).
Proof.
  assert (boxes_wf Z.ltb touching_boxes 2 = true) as Hwf by reflexivity.
  assert (0 ≤ 2 ≤ 2 ^ 29)%Z as Hn by lia.
  split; [exact Hwf|]. split; [exact Hn|].
  exact (overlap_between_open_and_closed Z.ltb (FltOrder0 := Z_ltb_order)
           zero_cells touching_boxes 2 None Hwf Hn).
Defined.

Lemma overlap_pairs_exact_witness :
  boxes_wf Z.ltb touching_boxes_swapped 2 = true
  ∧ (0 ≤ 2 ≤ 2 ^ 29)%Z
  ∧ ∃ ctx,
      Sprune.par_sprune_overlap Z.ltb zero_cells touching_boxes_swapped 2 None
      = Ok ctx
      ∧ ∀ a b, (a, b) ∈ tuples (Sprune.collision_pairs ctx) ↔
          (0 ≤ a < b ∧ b < 2)%Z
          ∧ sweep_overlap Z.ltb touching_boxes_swapped 0 a b = true
          ∧ sweep_overlap Z.ltb touching_boxes_swapped 1 a b = true.
Proof.
  assert (boxes_wf Z.ltb touching_boxes_swapped 2 = true) as Hwf by reflexivity.
  assert (0 ≤ 2 ≤ 2 ^ 29)%Z as Hn by lia.
  split; [exact Hwf|]. split; [exact Hn|]. eexists. split; [reflexivity|].
  exact (overlap_pairs_exact Z.ltb (FltOrder0 := Z_ltb_order) zero_cells
           touching_boxes_swapped 2 None _ Hwf Hn eq_refl).
Defined.
